(** * Texas Hold'em engine of [main.cpp]: model and verified properties

    A shallow embedding of the betting-round state machine and of the
    hand-resolution engine of [src/main.cpp]: [Deck], [Player],
    [evaluateHandStrength], [takeAction], the betting-round pass of
    [gameLoop], [showdown], elimination, [merge] / [mergeSort] and
    [PlayerTree].

    Conventions of the embedding.
    - A C++ [int] that holds chips, a pot, a bet or a score is a [Z].
      Signed overflow is undefined in C++; [takeAction], the betting
      rounds and the showdown compute exactly, which describes the
      executions on which no [int] overflows.  [takeAction_int] is the
      turn on 32-bit ints, with the wrap-around of every addition and
      subtraction written out; it is what the bounds on chips, pot and bet
      are stated for, and [takeAction_int_exact] shows that it is the
      exact turn whenever the player's chips and the pot together fit in
      an [int] and the bet leaves room for a bluff.
    - Array indices and loop counters that the code only ever counts up
      from zero are [nat]; the bounds handed to [mergeSort] are [Z], since
      the game loop calls it with [right = numPlayers - 1 = -1] on an empty
      roster.
    - A C++ array is a [list]; [std::queue<int>] is a list whose head is
      the front; [std::map<string,int>] is a [gmap string Z].
    - Console output is not modelled.  The console input, the [rand()]
      generator and the random shuffle are explicit oracles in [Env].
    - The game loop is modelled by the state it starts with
      ([gameLoop_start]) and by the body of its [while] loop ([playHand]),
      which applies to the state at the start of any hand. *)

From stdpp Require Import base numbers list gmap strings pretty sorting.
From Equations Require Import Equations.
From Stdlib Require Import ZArith Lia.

Local Open Scope Z_scope.

(** ** Outcomes of effectful code *)

(** [Throw] is an uncaught C++ exception; [Blocked] is a console read that
    never completes with a usable answer (the scripted input ran out while
    the code was still prompting). *)
Inductive result (A : Type) : Type :=
| Ok (a : A)
| Throw (msg : string)
| Blocked.
Arguments Ok {A} a.
Arguments Throw {A} msg.
Arguments Blocked {A}.

#[global] Instance result_ret : MRet result := fun A a => Ok a.
#[global] Instance result_bind : MBind result := fun A B k r =>
  match r with
  | Ok a => k a
  | Throw m => Throw m
  | Blocked => Blocked
  end.

(** ** Cards and the deck *)

Definition MAX_PLAYERS : nat := 6.
Definition MAX_CARDS : Z := 52.

Record Card := mkCard { rank : string; suit : string }.

Definition default_Card : Card := mkCard "" "".

#[global] Instance Card_eq_dec : EqDecision Card.
Proof. solve_decision. Defined.
#[global] Instance Card_inhabited : Inhabited Card := populate default_Card.

Record Deck := mkDeck { cards : list Card; topCardIndex : Z }.

Definition suits : list string := ["Hearts"; "Diamonds"; "Clubs"; "Spades"].
Definition ranks : list string :=
  ["2"; "3"; "4"; "5"; "6"; "7"; "8"; "9"; "10"; "Jack"; "Queen"; "King"; "Ace"].

(** [Deck::Deck()]: suits outermost, ranks innermost, cursor at zero. *)
Definition new_Deck : Deck :=
  mkDeck (s ← suits; r ← ranks; [mkCard r s]) 0.

Definition ExhaustedDeck : string := "No cards left in the deck.".

(** [Deck::dealCard()]. *)
Definition dealCard (d : Deck) : result (Card * Deck) :=
  if decide (topCardIndex d < MAX_CARDS) then
    Ok (cards d !!! Z.to_nat (topCardIndex d),
        mkDeck (cards d) (topCardIndex d + 1))
  else Throw ExhaustedDeck.

(** [Deck::reset()]. *)
Definition reset (d : Deck) : Deck := mkDeck (cards d) 0.

(** [n] calls of [dealCard] in a row; the dealt cards in order. *)
Fixpoint deal_n (n : nat) (d : Deck) : result (list Card * Deck) :=
  match n with
  | O => Ok ([], d)
  | S n' =>
      '(c, d1) ← dealCard d;
      '(cs, d2) ← deal_n n' d1;
      Ok (c :: cs, d2)
  end.

(** [std::shuffle] with a random engine: modelled as the exchange shuffle,
    position [i] being exchanged with position [draw i mod (i + 1)], for an
    arbitrary oracle [draw] of random draws.  The cursor is left alone. *)
Definition swap_cards (cs : list Card) (i j : nat) : list Card :=
  match cs !! i, cs !! j with
  | Some x, Some y => <[i := y]> (<[j := x]> cs)
  | _, _ => cs
  end.

Definition shuffle (draw : nat -> nat) (d : Deck) : Deck :=
  mkDeck
    (foldl (fun cs i => swap_cards cs i (draw i mod (i + 1))%nat)
           (cards d) (seq 1 (length (cards d) - 1)))
    (topCardIndex d).

(** The class invariant of [Deck]: 52 cards and a cursor in [0, 52]. *)
Definition deck_wf (d : Deck) : Prop :=
  length (cards d) = 52%nat /\ 0 <= topCardIndex d <= MAX_CARDS.

(** ** Players *)

Record Player := mkPlayer {
  name : string;
  hand : Card * Card;
  chips : Z;
  folded : bool;
  gamesWon : Z;
  handsPlayed : Z;
  handsWon : Z
}.

(** [Player(string playerName)]. *)
Definition new_Player (playerName : string) : Player :=
  mkPlayer playerName (default_Card, default_Card) 1000 false 0 0 0.

#[global] Instance Player_eq_dec : EqDecision Player.
Proof. solve_decision. Defined.
#[global] Instance Player_inhabited : Inhabited Player := populate (new_Player "").

Definition set_chips (c : Z) (p : Player) : Player :=
  mkPlayer (name p) (hand p) c (folded p) (gamesWon p) (handsPlayed p) (handsWon p).
Definition set_folded (b : bool) (p : Player) : Player :=
  mkPlayer (name p) (hand p) (chips p) b (gamesWon p) (handsPlayed p) (handsWon p).
Definition set_hand (h : Card * Card) (p : Player) : Player :=
  mkPlayer (name p) h (chips p) (folded p) (gamesWon p) (handsPlayed p) (handsWon p).

(** [Player::receiveCard]. *)
Definition receiveCard (card : Card) (index : nat) (p : Player) : Player :=
  match index with
  | 0%nat => set_hand (card, snd (hand p)) p
  | 1%nat => set_hand (fst (hand p), card) p
  | _ => p
  end.

(** ** Hand strength *)

(** [rankCount[r]++] on a [std::map<string,int>]: a missing key starts
    from zero. *)
Definition bump (rankCount : gmap string Z) (r : string) : gmap string Z :=
  <[r := default 0 (rankCount !! r) + 1]> rankCount.

(** The body of the scoring loop, for one map entry. *)
Definition entry_score (count : Z) : Z :=
  if decide (count = 2) then 2
  else if decide (count = 3) then 6
  else if decide (count = 4) then 10
  else 0.

(** The ranks tallied by [evaluateHandStrength], in tallying order: the
    first [communitySize] community cards, then the two hole cards. *)
Definition tallied_ranks (h : Card * Card) (communityCards : list Card)
    (communitySize : nat) : list string :=
  (rank <$> take communitySize communityCards) ++ [rank (fst h); rank (snd h)].

(** [Player::evaluateHandStrength], on the player's hole cards.  The final
    loop adds one term per map entry, so the order in which the entries
    are visited does not matter. *)
Definition handStrength (h : Card * Card) (communityCards : list Card)
    (communitySize : nat) : Z :=
  let rankCount :=
    foldl bump (foldl bump ∅ (rank <$> take communitySize communityCards))
          [rank (fst h); rank (snd h)] in
  map_fold (fun _ count score => score + entry_score count) 0 rankCount.

Definition evaluateHandStrength (p : Player) (communityCards : list Card)
    (communitySize : nat) : Z :=
  handStrength (hand p) communityCards communitySize.

(** ** The environment: console input and random numbers *)

(** The console input is a script of whitespace-separated entries, one per
    line: a word, or a decimal number. *)
Inductive entry := EWord (w : string) | ENum (n : Z).

Record Env := mkEnv {
  rng : nat -> nat;             (* the values successive [rand()] calls return *)
  rng_calls : nat;              (* how many calls were made *)
  cin : list entry;             (* what is left of the console input *)
  entropy : nat -> nat -> nat;  (* the draws of the k-th shuffle *)
  shuffles : nat                (* how many shuffles were made *)
}.

Definition rand (env : Env) : Z * Env :=
  (Z.of_nat (rng env (rng_calls env)),
   mkEnv (rng env) (S (rng_calls env)) (cin env) (entropy env) (shuffles env)).

Definition set_cin (c : list entry) (env : Env) : Env :=
  mkEnv (rng env) (rng_calls env) c (entropy env) (shuffles env).

Definition next_shuffle (env : Env) : (nat -> nat) * Env :=
  (entropy env (shuffles env),
   mkEnv (rng env) (rng_calls env) (cin env) (entropy env) (S (shuffles env))).

Definition INT_MAX : Z := 2147483647.
Definition INT_MIN : Z := -2147483648.
Definition in_int (z : Z) : Prop := INT_MIN <= z <= INT_MAX.

(** An [int] is a 32-bit two's complement number: an addition or a
    subtraction whose exact result is [z] leaves [wrap z] in the variable.
    (Where [z] is out of range the C++ standard leaves the behaviour
    undefined; this is what the usual builds compute.) *)
Definition wrap (z : Z) : Z := (z - INT_MIN) mod 2 ^ 32 + INT_MIN.
Definition int_add (x y : Z) : Z := wrap (x + y).
Definition int_sub (x y : Z) : Z := wrap (x - y).

(** [std::to_string] on an [int]. *)
Definition to_string (z : Z) : string := pretty z.

(** [cin >> action] on the next entry: the characters of the entry. *)
Definition entry_word (e : entry) : string :=
  match e with
  | EWord w => w
  | ENum n => to_string n
  end.

(** [while (!(cin >> betAmount) || betAmount <= 0) { clear; ignore line }]:
    entries are discarded until one is a positive number that fits an
    [int]. *)
Fixpoint read_betAmount (input : list entry) : option (Z * list entry) :=
  match input with
  | [] => None
  | ENum n :: rest =>
      if decide (in_int n /\ 0 < n) then Some (n, rest) else read_betAmount rest
  | EWord _ :: rest => read_betAmount rest
  end.

(** [name.find(pat) != string::npos]. *)
Fixpoint contains (pat s : string) : bool :=
  match s with
  | EmptyString => String.prefix pat s
  | String _ s' => String.prefix pat s || contains pat s'
  end.

Definition is_bot (p : Player) : bool := contains "Bot" (name p).

(** ** One turn: [Player::takeAction] *)

Record RoundState := mkRound {
  pot : Z;
  currentBet : Z;
  actionHistory : list string
}.

Definition log (line : string) (rs : RoundState) : RoundState :=
  mkRound (pot rs) (currentBet rs) (actionHistory rs ++ [line]).

(** The [switch (action)] of the automated branch, computed exactly;
    [bot_action_int] below is the same switch on 32-bit ints. *)
Definition bot_action (action : Z) (p : Player) (rs : RoundState)
    : Player * RoundState :=
  if decide (action = 0) then
    let betAmount := Z.min 50 (chips p) in
    if decide (betAmount > currentBet rs) then
      (set_chips (chips p - betAmount) p,
       mkRound (pot rs + betAmount) betAmount
         (actionHistory rs ++
            [name p +:+ " raises to " +:+ to_string betAmount +:+ " chips."]))
    else
      (set_chips (chips p - betAmount) p,
       mkRound (pot rs + betAmount) (currentBet rs)
         (actionHistory rs ++
            [name p +:+ " bets " +:+ to_string betAmount +:+ " chips."]))
  else if decide (action = 1) then
    if decide (chips p >= currentBet rs) then
      (set_chips (chips p - currentBet rs) p,
       mkRound (pot rs + currentBet rs) (currentBet rs)
         (actionHistory rs ++
            [name p +:+ " calls " +:+ to_string (currentBet rs) +:+ " chips."]))
    else (p, log (name p +:+ " checks.") rs)
  else if decide (action = 2) then
    (set_folded true p, log (name p +:+ " folds.") rs)
  else if decide (action = 3) then
    if decide (chips p >= currentBet rs + 20) then
      (set_chips (chips p - 20) p,
       mkRound (pot rs + 20) (currentBet rs + 20)
         (actionHistory rs ++
            [name p +:+ " bluffs with " +:+ to_string 20 +:+ " chips."]))
    else (p, rs)
  else (p, rs).

(** The [do ... while] of the human branch: entries are read until one is
    a menu word.  Computed exactly; [human_action_int] below is the same
    loop on 32-bit ints. *)
Fixpoint human_action (input : list entry) (p : Player) (rs : RoundState)
    : result (Player * RoundState * list entry) :=
  match input with
  | [] => Blocked
  | e :: rest =>
      let action := entry_word e in
      if decide (action = "Bet" \/ action = "Raise") then
        match read_betAmount rest with
        | None => Blocked
        | Some (entered, rest') =>
            let betAmount :=
              if decide (entered > chips p) then chips p else entered in
            let currentBet' :=
              if decide (betAmount > currentBet rs) then betAmount
              else currentBet rs in
            Ok (set_chips (chips p - betAmount) p,
                mkRound (pot rs + betAmount) currentBet'
                  (actionHistory rs ++
                     [name p +:+ " bets " +:+ to_string betAmount +:+ " chips."]),
                rest')
        end
      else if decide (action = "Call") then
        if decide (chips p >= currentBet rs) then
          Ok (set_chips (chips p - currentBet rs) p,
              mkRound (pot rs + currentBet rs) (currentBet rs)
                (actionHistory rs ++
                   [name p +:+ " calls " +:+ to_string (currentBet rs) +:+ " chips."]),
              rest)
        else Ok (p, rs, rest)
      else if decide (action = "Check") then
        Ok (p, log (name p +:+ " checks.") rs, rest)
      else if decide (action = "Fold") then
        Ok (set_folded true p, log (name p +:+ " folds.") rs, rest)
      else human_action rest p rs
  end.

(** The action an automated player settles on: a raise when the hand is
    strong, one of the four actions at random otherwise. *)
Definition choose_action (p : Player) (communityCards : list Card)
    (communitySize : nat) (env : Env) : Z * Env :=
  if decide (evaluateHandStrength p communityCards communitySize > 5)
  then (0, env)
  else let '(r, env') := rand env in (Z.rem r 4, env').

(** [Player::takeAction]. *)
Definition takeAction (p : Player) (rs : RoundState)
    (communityCards : list Card) (communitySize : nat) (env : Env)
    : result (Player * RoundState * Env) :=
  if folded p then Ok (p, rs, env)
  else if is_bot p then
    let '(action, env') := choose_action p communityCards communitySize env in
    let '(p', rs') := bot_action action p rs in
    Ok (p', rs', env')
  else
    '(p', rs', rest) ← human_action (cin env) p rs;
    Ok (p', rs', set_cin rest env).

(** ** [Player::takeAction] on machine integers *)

(** [bot_action], [human_action] and [takeAction] above compute the chips,
    the pot and the bet exactly, which is what the source computes as long
    as no [int] leaves its range.  Below is the same code with every [+],
    [-], [+=] and [-=] of the source carried out on 32-bit ints. *)
Definition bot_action_int (action : Z) (p : Player) (rs : RoundState)
    : Player * RoundState :=
  if decide (action = 0) then
    let betAmount := Z.min 50 (chips p) in
    if decide (betAmount > currentBet rs) then
      (set_chips (int_sub (chips p) betAmount) p,
       mkRound (int_add (pot rs) betAmount) betAmount
         (actionHistory rs ++
            [name p +:+ " raises to " +:+ to_string betAmount +:+ " chips."]))
    else
      (set_chips (int_sub (chips p) betAmount) p,
       mkRound (int_add (pot rs) betAmount) (currentBet rs)
         (actionHistory rs ++
            [name p +:+ " bets " +:+ to_string betAmount +:+ " chips."]))
  else if decide (action = 1) then
    if decide (chips p >= currentBet rs) then
      (set_chips (int_sub (chips p) (currentBet rs)) p,
       mkRound (int_add (pot rs) (currentBet rs)) (currentBet rs)
         (actionHistory rs ++
            [name p +:+ " calls " +:+ to_string (currentBet rs) +:+ " chips."]))
    else (p, log (name p +:+ " checks.") rs)
  else if decide (action = 2) then
    (set_folded true p, log (name p +:+ " folds.") rs)
  else if decide (action = 3) then
    if decide (chips p >= int_add (currentBet rs) 20) then
      (set_chips (int_sub (chips p) 20) p,
       mkRound (int_add (pot rs) 20) (int_add (currentBet rs) 20)
         (actionHistory rs ++
            [name p +:+ " bluffs with " +:+ to_string 20 +:+ " chips."]))
    else (p, rs)
  else (p, rs).

Fixpoint human_action_int (input : list entry) (p : Player) (rs : RoundState)
    : result (Player * RoundState * list entry) :=
  match input with
  | [] => Blocked
  | e :: rest =>
      let action := entry_word e in
      if decide (action = "Bet" \/ action = "Raise") then
        match read_betAmount rest with
        | None => Blocked
        | Some (entered, rest') =>
            let betAmount :=
              if decide (entered > chips p) then chips p else entered in
            let currentBet' :=
              if decide (betAmount > currentBet rs) then betAmount
              else currentBet rs in
            Ok (set_chips (int_sub (chips p) betAmount) p,
                mkRound (int_add (pot rs) betAmount) currentBet'
                  (actionHistory rs ++
                     [name p +:+ " bets " +:+ to_string betAmount +:+ " chips."]),
                rest')
        end
      else if decide (action = "Call") then
        if decide (chips p >= currentBet rs) then
          Ok (set_chips (int_sub (chips p) (currentBet rs)) p,
              mkRound (int_add (pot rs) (currentBet rs)) (currentBet rs)
                (actionHistory rs ++
                   [name p +:+ " calls " +:+ to_string (currentBet rs) +:+ " chips."]),
              rest)
        else Ok (p, rs, rest)
      else if decide (action = "Check") then
        Ok (p, log (name p +:+ " checks.") rs, rest)
      else if decide (action = "Fold") then
        Ok (set_folded true p, log (name p +:+ " folds.") rs, rest)
      else human_action_int rest p rs
  end.

Definition takeAction_int (p : Player) (rs : RoundState)
    (communityCards : list Card) (communitySize : nat) (env : Env)
    : result (Player * RoundState * Env) :=
  if folded p then Ok (p, rs, env)
  else if is_bot p then
    let '(action, env') := choose_action p communityCards communitySize env in
    let '(p', rs') := bot_action_int action p rs in
    Ok (p', rs', env')
  else
    '(p', rs', rest) ← human_action_int (cin env) p rs;
    Ok (p', rs', set_cin rest env).

(** ** A betting-round pass of [gameLoop] *)

(** What the game loop keeps between turns. *)
Record Table := mkTable {
  players : list Player;       (* the roster array, all its slots *)
  round : RoundState;          (* [pot], [currentBet], [actionHistory] *)
  turnOrder : list nat;        (* the Turn Queue, front first *)
  env : Env
}.

(** One iteration of the [for] loop of a betting round: nothing happens on
    an empty queue; otherwise the front index is popped, and only a player
    who is not folded and has chips acts and is pushed back. *)
Definition betting_turn (communityCards : list Card) (communityIndex : nat)
    (t : Table) : result Table :=
  match turnOrder t with
  | [] => Ok t
  | currentPlayerIndex :: popped =>
      match players t !! currentPlayerIndex with
      | Some p =>
          if negb (folded p) && bool_decide (chips p > 0) then
            '(p', rs', env') ←
              takeAction p (round t) communityCards communityIndex (env t);
            Ok (mkTable (<[currentPlayerIndex := p']> (players t)) rs'
                        (popped ++ [currentPlayerIndex]) env')
          else Ok (mkTable (players t) (round t) popped (env t))
      | None => Ok (mkTable (players t) (round t) popped (env t))
      end
  end.

(** [for (int i = 0; i < numPlayers; ++i) { ... }]: [numPlayers] turns. *)
Fixpoint bettingRound (numPlayers : nat) (communityCards : list Card)
    (communityIndex : nat) (t : Table) : result Table :=
  match numPlayers with
  | O => Ok t
  | S n =>
      t' ← betting_turn communityCards communityIndex t;
      bettingRound n communityCards communityIndex t'
  end.

(** ** Showdown *)

(** The scan of [showdown]: the best score so far and the index of its
    holder, starting from [-1] and no winner. *)
Definition showdown_step (ps : list Player) (communityCards : list Card)
    (communitySize : nat) (acc : Z * option nat) (i : nat) : Z * option nat :=
  match ps !! i with
  | Some p =>
      if folded p then acc
      else
        let score := evaluateHandStrength p communityCards communitySize in
        if decide (score > fst acc) then (score, Some i) else acc
  | None => acc
  end.

Definition showdown_scan (ps : list Player) (numPlayers : nat)
    (communityCards : list Card) (communitySize : nat) : Z * option nat :=
  foldl (showdown_step ps communityCards communitySize) (-1, None)
        (seq 0 numPlayers).

(** What the winner receives. *)
Definition award (pot : Z) (p : Player) : Player :=
  mkPlayer (name p) (hand p) (chips p + pot) (folded p)
           (gamesWon p + 1) (handsPlayed p) (handsWon p + 1).

(** [showdown]: the roster and the pot afterwards. *)
Definition showdown (ps : list Player) (numPlayers : nat)
    (communityCards : list Card) (communitySize : nat) (pot : Z)
    : list Player * Z :=
  match snd (showdown_scan ps numPlayers communityCards communitySize) with
  | Some winner => (alter (award pot) winner ps, 0)
  | None => (ps, pot)
  end.

(** ** Elimination *)

(** The elimination loop of [gameLoop]: the roster, the number of
    survivors written so far, and the set of eliminated names. *)
Definition eliminate_step (acc : list Player * nat * gset string) (i : nat)
    : list Player * nat * gset string :=
  let '(ps, remainingPlayers, eliminatedPlayers) := acc in
  match ps !! i with
  | Some p =>
      if decide (chips p = 0) then
        (<[i := set_folded true p]> ps, remainingPlayers,
         {[name p]} ∪ eliminatedPlayers)
      else (<[remainingPlayers := p]> ps, S remainingPlayers, eliminatedPlayers)
  | None => acc
  end.

Definition eliminate (ps : list Player) (numPlayers : nat)
    (eliminatedPlayers : gset string) : list Player * nat * gset string :=
  foldl eliminate_step (ps, 0%nat, eliminatedPlayers) (seq 0 numPlayers).

(** ** Re-ranking: [merge] and [mergeSort] *)

(** The three [while] loops of [merge], as the sequence of elements they
    write: the head of [L] goes first when its chips are [>=] those of the
    head of [R]. *)
Fixpoint merge_loop (L : list Player) : list Player -> list Player :=
  fix merge_right (R : list Player) : list Player :=
    match L, R with
    | [], _ => R
    | _, [] => L
    | x :: L', y :: R' =>
        if decide (chips x >= chips y) then x :: merge_loop L' R
        else y :: merge_right R'
    end.

(** [arr[k++] = x] for each [x] of [xs] in turn. *)
Fixpoint store_from (k : nat) (xs : list Player) (arr : list Player)
    : list Player :=
  match xs with
  | [] => arr
  | x :: xs' => store_from (S k) xs' (<[k := x]> arr)
  end.

(** [arr[from .. from + n - 1]], as copied into a temporary array. *)
Definition copy_range (arr : list Player) (from n : Z) : list Player :=
  take (Z.to_nat n) (drop (Z.to_nat from) arr).

(** [merge(arr, left, mid, right)]; the bounds are written [lo] and [hi],
    since [left] and [right] are taken. *)
Definition merge (arr : list Player) (lo mid hi : Z) : list Player :=
  let n1 := mid - lo + 1 in
  let n2 := hi - mid in
  let L := copy_range arr lo n1 in
  let R := copy_range arr (mid + 1) n2 in
  store_from (Z.to_nat lo) (merge_loop L R) arr.

(** [mergeSort(arr, left, right)].  The C++ division truncates. *)
Equations? mergeSort (arr : list Player) (lo hi : Z) : list Player
    by wf (Z.to_nat (hi - lo)) lt :=
  mergeSort arr lo hi with decide (lo < hi) => {
    | left _ =>
        merge
          (mergeSort (mergeSort arr lo (lo + (hi - lo) `quot` 2))
                     (lo + (hi - lo) `quot` 2 + 1) hi)
          lo (lo + (hi - lo) `quot` 2) hi;
    | right _ => arr }.
Proof.
  all: pose proof (Z.quot_pos (hi - lo) 2);
       pose proof (Z.quot_lt (hi - lo) 2); lia.
Qed.

(** ** The ranking tree *)

Inductive TreeNode : Type :=
| Null
| Node (l : TreeNode) (player : Player) (r : TreeNode).

(** [PlayerTree::insert]. *)
Fixpoint insert (node : TreeNode) (player : Player) : TreeNode :=
  match node with
  | Null => Node Null player Null
  | Node l q r =>
      if decide (chips player > chips q) then Node (insert l player) q r
      else Node l q (insert r player)
  end.

(** [PlayerTree::inOrder]: the players in the order they are printed. *)
Fixpoint inOrder (node : TreeNode) : list Player :=
  match node with
  | Null => []
  | Node l q r => inOrder l ++ q :: inOrder r
  end.

(** [addPlayer] for each player of a sequence in turn, from the empty
    tree. *)
Definition addPlayers (ps : list Player) : TreeNode := foldl insert Null ps.

(** ** One hand of [gameLoop] *)

(** The variables of [gameLoop] that live across hands. *)
Record Game := mkGame {
  table : Table;
  deck : Deck;
  communityCards : list Card;      (* [Card communityCards[5]] *)
  numPlayers : nat;
  eliminatedPlayers : gset string
}.

(** The state with which [gameLoop] enters its [while] loop: an empty pot,
    no bet, no history, and the indices [0 .. numPlayers - 1] queued. *)
Definition gameLoop_start (ps : list Player) (numPlayers : nat) (d : Deck)
    (e : Env) : Game :=
  mkGame (mkTable ps (mkRound 0 0 []) (seq 0 numPlayers) e) d
         (replicate 5 default_Card) numPlayers ∅.

(** A loop body run for each index of a list, in the error monad. *)
Fixpoint for_each {S : Type} (body : S -> nat -> result S) (idx : list nat)
    (s : S) : result S :=
  match idx with
  | [] => Ok s
  | i :: rest => s' ← body s i; for_each body rest s'
  end.

(** Dealing the hole cards of player [i]: the fold flag is cleared, then
    two cards are dealt. *)
Definition deal_hole (acc : list Player * Deck) (i : nat)
    : result (list Player * Deck) :=
  let '(ps, d) := acc in
  '(c0, d0) ← dealCard d;
  '(c1, d1) ← dealCard d0;
  Ok (alter (fun p => receiveCard c1 1 (receiveCard c0 0 (set_folded false p)))
            i ps, d1).

(** [if (communityIndex < 5) communityCards[communityIndex++] = deck.dealCard();] *)
Definition deal_community (acc : list Card * nat * Deck) (_ : nat)
    : result (list Card * nat * Deck) :=
  let '(cc, communityIndex, d) := acc in
  if decide (communityIndex < 5)%nat then
    '(c, d') ← dealCard d;
    Ok (<[communityIndex := c]> cc, S communityIndex, d')
  else Ok acc.

(** The stages of a hand, up to the showdown.  The interaction graph that
    [betInter] fills after each betting round is read by no step of the
    hand and is left out. *)
Definition deal_hand (g : Game) : result (Table * Deck) :=
  let '(draw, e) := next_shuffle (env (table g)) in
  '(ps, d) ← for_each deal_hole (seq 0 (numPlayers g))
                      (players (table g), shuffle draw (deck g));
  Ok (mkTable ps (round (table g)) (turnOrder (table g)) e, d).

(** The first component of the result records the Round State with which
    each of the four betting rounds began. *)
Definition play_to_showdown (g : Game)
    : result (list RoundState * Table * Deck * list Card * nat) :=
  '(t0, d0) ← deal_hand g;
  t1 ← bettingRound (numPlayers g) (communityCards g) 0 t0;
  '(cc1, ci1, d1) ← for_each deal_community (seq 0 3) (communityCards g, 0%nat, d0);
  t2 ← bettingRound (numPlayers g) cc1 ci1 t1;
  '(cc2, ci2, d2) ← deal_community (cc1, ci1, d1) 0%nat;
  t3 ← bettingRound (numPlayers g) cc2 ci2 t2;
  '(cc3, ci3, d3) ← deal_community (cc2, ci2, d2) 0%nat;
  t4 ← bettingRound (numPlayers g) cc3 ci3 t3;
  Ok ([round t0; round t1; round t2; round t3], t4, d3, cc3, ci3).

(** The body of the [while] loop of [gameLoop], up to the re-ranking; the
    two prompts that follow it change nothing of this state but the
    console input. *)
Definition playHand (g : Game) : result Game :=
  '(_, t4, d3, cc3, ci3) ← play_to_showdown g;
  let '(ps5, pot5) :=
    showdown (players t4) (numPlayers g) cc3 ci3 (pot (round t4)) in
  let '(ps6, remainingPlayers, eliminated) :=
    eliminate ps5 (numPlayers g) (eliminatedPlayers g) in
  let ps7 := mergeSort ps6 0 (Z.of_nat remainingPlayers - 1) in
  Ok (mkGame
        (mkTable ps7
           (mkRound pot5 (currentBet (round t4)) (actionHistory (round t4)))
           (turnOrder t4) (env t4))
        d3 cc3 remainingPlayers eliminated).

(** ** The loop of [gameLoop] *)

(** [count_if(players, players + numPlayers, chips > 0)]. *)
Definition players_with_chips (ps : list Player) (numPlayers : nat) : nat :=
  length (filter (fun p => chips p > 0) (take numPlayers ps)).

(** The guard of the [while] loop: more than one player has chips. *)
Definition loop_guard (g : Game) : bool :=
  bool_decide (1 < players_with_chips (players (table g)) (numPlayers g))%nat.

(** The two prompts that end the loop body read the console and touch
    nothing else of the game; [rest] is what they leave of the input. *)
Definition after_prompts (rest : list entry) (g : Game) : Game :=
  mkGame
    (mkTable (players (table g)) (round (table g)) (turnOrder (table g))
             (set_cin rest (env (table g))))
    (deck g) (communityCards g) (numPlayers g) (eliminatedPlayers g).

(** [hands k g g']: the loop can run [k] times from [g] and be at [g'] when
    it tests its guard again.  Each run passes the guard, plays a hand, and
    answers the prompts, which leave some [rest] of the input. *)
Inductive hands : nat -> Game -> Game -> Prop :=
  | hands_none g : hands 0 g g
  | hands_more k g g1 rest g' :
      loop_guard g = true ->
      playHand g = Ok g1 ->
      hands k (after_prompts rest g1) g' ->
      hands (S k) g g'.

(** ** The interaction graph *)

(** [unordered_map<string, vector<pair<string, int>>> adjList]. *)
Abbreviation InterGraph := (gmap string (list (string * Z))).

(** [adjList[a].push_back(e)]: a missing key starts from the empty
    vector. *)
Definition push_edge (a : string) (e : string * Z) (g : InterGraph)
    : InterGraph :=
  <[a := default [] (g !! a) ++ [e]]> g.

(** [InterGraph::addInter]. *)
Definition addInter (player1 player2 : string) (chips : Z) (g : InterGraph)
    : InterGraph :=
  push_edge player2 (player1, chips) (push_edge player1 (player2, chips) g).

(** [InterGraph::reset]. *)
Definition reset_graph (g : InterGraph) : InterGraph := ∅.

(** The inner loop of [betInter], for the player [pi] at the outer index:
    [j] runs over [first .. first + count - 1]. *)
Definition betInter_inner (ps : list Player) (pi : Player) (currentBet : Z)
    (first count : nat) (g : InterGraph) : InterGraph :=
  foldl (fun g j =>
           match ps !! j with
           | Some pj =>
               if folded pj then g
               else addInter (name pi) (name pj) currentBet g
           | None => g
           end)
        g (seq first count).

(** The outer loop of [betInter] from index [first] on, [i] running over
    [first .. numPlayers - 1]. *)
Definition betInter_from (ps : list Player) (numPlayers : nat)
    (currentBet : Z) (first : nat) (g : InterGraph) : InterGraph :=
  foldl (fun g i =>
           match ps !! i with
           | Some pi =>
               if folded pi then g
               else betInter_inner ps pi currentBet (S i) (numPlayers - S i) g
           | None => g
           end)
        g (seq first (numPlayers - first)).

(** [betInter]. *)
Definition betInter (ps : list Player) (numPlayers : nat) (currentBet : Z)
    (g : InterGraph) : InterGraph :=
  betInter_from ps numPlayers currentBet 0 g.

(** ** Displays and tables *)

(** What is printed for one card. *)
Definition card_text (c : Card) : string := rank c +:+ " of " +:+ suit c.

(** [recursiveComcard]: the text it prints. *)
Equations? recursiveComcard (communityCards : list Card)
    (index totalCards : nat) : string by wf (totalCards - index)%nat lt :=
  recursiveComcard communityCards index totalCards
    with decide (totalCards <= index)%nat => {
    | left _ => "";
    | right _ =>
        card_text (communityCards !!! index) +:+
        (if decide (index < totalCards - 1)%nat then ", " else "") +:+
        recursiveComcard communityCards (S index) totalCards }.
Proof. lia. Qed.

(** [playerStats]: the table it fills, from player name to games won and
    chips. *)
Definition playerStats (ps : list Player) (numPlayers : nat)
    : gmap string (Z * Z) :=
  foldl (fun stats i =>
           match ps !! i with
           | Some p => <[name p := (gamesWon p, chips p)]> stats
           | None => stats
           end)
        ∅ (seq 0 numPlayers).

(** [manageSidePot]: the side pots afterwards; the key [&players[i]] is
    the index [i]. *)
Definition manageSidePot (sidePots : gmap nat Z) (ps : list Player)
    (numPlayers : nat) : gmap nat Z :=
  foldl (fun pots i =>
           match ps !! i with
           | Some p =>
               if decide (chips p = 0) then
                 if folded p then pots else <[i := chips p]> pots
               else pots
           | None => pots
           end)
        sidePots (seq 0 numPlayers).

(** ** Seating a new game *)

(** The roster [main] builds for a new game from the names entered for the
    human players: the humans first, then automated players "Bot 1",
    "Bot 2", ... on the seats that are left, up to [MAX_PLAYERS]. *)
Definition seat_players (humans : list string) : list Player * nat :=
  let numPlayers := length humans in
  let numBots := (MAX_PLAYERS - numPlayers)%nat in
  ((new_Player <$> humans) ++
   ((fun i => new_Player ("Bot " +:+ to_string (Z.of_nat i + 1))) <$> seq 0 numBots),
   (numPlayers + numBots)%nat).

(** * Notions used to state the properties *)

(** ** Scores *)

(** How often a rank occurs among the tallied ranks, the points a rank
    earns for that many occurrences, and the score as the specification
    describes it: the sum of those points over the distinct ranks. *)
Definition occurrences (r : string) (rs : list string) : nat :=
  length (filter (r =.) rs).

Definition rank_points (n : nat) : Z :=
  match n with
  | 2%nat => 2
  | 3%nat => 6
  | 4%nat => 10
  | _ => 0
  end.

Definition sum_Z (zs : list Z) : Z := foldr Z.add 0 zs.

Definition points_of_ranks (rs : list string) : Z :=
  sum_Z ((fun r => rank_points (occurrences r rs)) <$> remove_dups rs).

(** ** Choices at a turn *)

(** An entry that is none of the five menu words is skipped by the human
    prompt. *)
Definition menu_word (w : string) : Prop :=
  w = "Bet" \/ w = "Raise" \/ w = "Call" \/ w = "Check" \/ w = "Fold".

Definition skipped_entry (it : entry) : Prop := ~ menu_word (entry_word it).

(** A player who is not folded chooses Call: an automated player when the
    action it settles on is 1, a human when the first menu word of the
    console input is "Call". *)
Definition chooses_call (p : Player) (communityCards : list Card)
    (communitySize : nat) (ev : Env) : Prop :=
  folded p = false /\
  if is_bot p then fst (choose_action p communityCards communitySize ev) = 1
  else exists junk it rest,
         cin ev = junk ++ it :: rest /\ Forall skipped_entry junk /\
         entry_word it = "Call".

(** The specification's wording of a call without the chips: whoever calls
    leaves chips, pot and bet alone and is logged as checking. *)
Definition call_degrades_to_logged_check : Prop :=
  forall p rs cc n ev,
    chooses_call p cc n ev -> chips p < currentBet rs ->
    exists p' rs' ev',
      takeAction p rs cc n ev = Ok (p', rs', ev') /\
      chips p' = chips p /\ pot rs' = pot rs /\
      currentBet rs' = currentBet rs /\
      actionHistory rs' = actionHistory rs ++ [name p +:+ " checks."].

(** ** Winners *)

(** Player [i] is in the hand and scores strictly more than every player
    in the hand before it. *)
Definition beats_earlier (ps : list Player) (cc : list Card) (cs : nat)
    (i : nat) : Prop :=
  exists p, ps !! i = Some p /\ folded p = false /\
    forall j q, (j < i)%nat -> ps !! j = Some q -> folded q = false ->
      evaluateHandStrength q cc cs < evaluateHandStrength p cc cs.

(** Player [i] scores at least as much as every player in the hand after
    it, among the first [n]. *)
Definition holds_off_later (ps : list Player) (n : nat) (cc : list Card)
    (cs : nat) (i : nat) : Prop :=
  exists p, ps !! i = Some p /\
    forall j q, (i < j < n)%nat -> ps !! j = Some q -> folded q = false ->
      evaluateHandStrength q cc cs <= evaluateHandStrength p cc cs.


(** The first holder of the highest score. *)
Definition first_with_best_score (ps : list Player) (n : nat)
    (cc : list Card) (cs : nat) (w : nat) : Prop :=
  (w < n)%nat /\ beats_earlier ps cc cs w /\ holds_off_later ps n cc cs w.




(** ** Rankings *)

(** Sorted by chip count, in non-increasing order, over the whole list. *)
Definition by_chips_desc (ps : list Player) : Prop :=
  StronglySorted (fun a b => chips a >= chips b) ps.

(** Two players of a sequence have the same chip count. *)
Definition has_tie (ps : list Player) : Prop :=
  exists i j p q,
    i ≠ j /\ ps !! i = Some p /\ ps !! j = Some q /\ chips p = chips q.

(** The specification's remark on the ranking tree: some insertion
    sequence with a tie is printed out of order. *)
Definition some_tie_breaks_the_order : Prop :=
  exists ps, has_tie ps /\ ~ by_chips_desc (inOrder (addPlayers ps)).

(** The players of a list that hold exactly [c] chips, in list order. *)
Definition with_chips (c : Z) (ps : list Player) : list Player :=
  filter (fun p => chips p = c) ps.

(** [out] is [seg] sorted by chips in non-increasing order, ties kept in
    their order in [seg]. *)
Definition stable_sort_of (seg out : list Player) : Prop :=
  out ≡ₚ seg /\ by_chips_desc out /\
  forall c, with_chips c out = with_chips c seg.

(** ** Round State and Turn Queue *)

(** The Round State [b] continues [a]: the history of [a] is the beginning
    of the history of [b], the bet is not lower, and neither is the pot
    when the bet was not negative. *)
Definition carries (a b : RoundState) : Prop :=
  actionHistory a `prefix_of` actionHistory b /\
  currentBet a <= currentBet b /\
  (0 <= currentBet a -> pot a <= pot b).

Definition fresh (rs : RoundState) : Prop :=
  pot rs = 0 /\ currentBet rs = 0 /\ actionHistory rs = [].

(** The specification's wording of the Turn Queue: a skipped player goes
    to the back of the queue, and a pass keeps the multiset of queued
    indices. *)
Definition skipped_player_requeued : Prop :=
  forall cc ci t idx q p,
    turnOrder t = idx :: q -> players t !! idx = Some p ->
    folded p = true \/ chips p = 0 ->
    betting_turn cc ci t =
      Ok (mkTable (players t) (round t) (q ++ [idx]) (env t)).

Definition pass_keeps_queue : Prop :=
  forall n cc ci t t',
    bettingRound n cc ci t = Ok t' -> turnOrder t' ≡ₚ turnOrder t.



(** ** Effects of a turn *)

(** What a turn may change of the player: the chips and the fold flag. *)
Definition same_but_chips_and_fold (p p' : Player) : Prop :=
  p' = mkPlayer (name p) (hand p) (chips p') (folded p')
                (gamesWon p) (handsPlayed p) (handsWon p).

(** What a turn logs: nothing, or one line that begins with the name of
    the player. *)
Definition logs_at_most_one_line (p : Player) (rs rs' : RoundState) : Prop :=
  actionHistory rs' = actionHistory rs \/
  exists tail, actionHistory rs' = actionHistory rs ++ [name p +:+ tail].

(** ** Chips on the table *)

(** The chips held by all the players of a roster. *)
Definition total_chips (ps : list Player) : Z := sum_Z (chips <$> ps).

(** ** Survivors of a hand *)

(** The players of a list who still hold chips, in list order, and the
    names of those who hold none. *)
Definition survivors (ps : list Player) : list Player :=
  filter (fun p => chips p ≠ 0) ps.

Definition broke_names (ps : list Player) : gset string :=
  list_to_set (name <$> filter (fun p => chips p = 0) ps).

(** ** Reading the interaction graph *)

(** The adjacency list of a player, the number of entries in all the
    lists, and how often the edge to [b] with weight [c] is listed under
    [a]. *)
Definition edges_of (g : InterGraph) (a : string) : list (string * Z) :=
  default [] (g !! a).

Definition edge_count (g : InterGraph) : nat :=
  map_fold (fun _ l n => (length l + n)%nat) 0%nat g.

Definition count_edge (g : InterGraph) (a b : string) (c : Z) : nat :=
  length (filter ((b, c) =.) (edges_of g a)).

(** Every edge is listed as often from one end as from the other. *)
Definition symmetric_graph (g : InterGraph) : Prop :=
  forall a b c, count_edge g a b c = count_edge g b a c.

(** The players in the hand among the first [n] of a roster. *)
Definition in_hand_count (ps : list Player) (n : nat) : nat :=
  length (filter (fun p => folded p = false) (take n ps)).

(** ** Chips, pot and bet over a turn *)

(** The specification's invariant on a turn, as worded: chips, pot and bet
    that are non-negative before a turn are non-negative after it,
    whichever [int] values they are. *)
Definition turn_keeps_nonnegative : Prop :=
  forall p rs cc n ev p' rs' ev',
    in_int (chips p) -> in_int (pot rs) -> in_int (currentBet rs) ->
    0 <= chips p -> 0 <= pot rs -> 0 <= currentBet rs ->
    takeAction_int p rs cc n ev = Ok (p', rs', ev') ->
    0 <= chips p' /\ 0 <= pot rs' /\ 0 <= currentBet rs'.

(** Conservation of chips over a turn, as worded: in every call the pot
    gains what the player's chips lose. *)
Definition turn_conserves_chips : Prop :=
  forall p rs cc n ev p' rs' ev',
    in_int (chips p) -> in_int (pot rs) -> in_int (currentBet rs) ->
    takeAction_int p rs cc n ev = Ok (p', rs', ev') ->
    pot rs' - pot rs = chips p - chips p' /\
    chips p' + pot rs' = chips p + pot rs.

(** The turn was a check or a fold, as the action history records it, or
    it logged nothing (a folded player's turn, a declined bluff, a human
    call without the chips). *)
Definition no_wager (p : Player) (rs rs' : RoundState) : Prop :=
  actionHistory rs' = actionHistory rs ++ [name p +:+ " checks."] \/
  actionHistory rs' = actionHistory rs ++ [name p +:+ " folds."] \/
  actionHistory rs' = actionHistory rs.

(** ** Turns in queue order *)

(** The players at the indices [q] take one turn each, in the order of
    [q], each on the roster, the Round State and the environment that the
    turn before left; an index with no player takes none. *)
Fixpoint turns_in_order (communityCards : list Card) (communityIndex : nat)
    (q : list nat) (ps : list Player) (rs : RoundState) (ev : Env)
    : result (list Player * RoundState * Env) :=
  match q with
  | [] => Ok (ps, rs, ev)
  | idx :: q' =>
      match ps !! idx with
      | Some p =>
          '(p', rs', ev') ← takeAction p rs communityCards communityIndex ev;
          turns_in_order communityCards communityIndex q' (<[idx := p']> ps) rs' ev'
      | None => turns_in_order communityCards communityIndex q' ps rs ev
      end
  end.

(** * Sample players, inputs and tables *)

(** An environment whose [rand()] always returns 0, with no console input,
    and one whose [rand()] always returns 1. *)
Definition quiet_env : Env := mkEnv (fun _ => 0%nat) 0 [] (fun _ _ => 0%nat) 0.
Definition env_rand_1 : Env := mkEnv (fun _ => 1%nat) 0 [] (fun _ _ => 0%nat) 0.

Definition bot_1 : Player := new_Player "Bot 1".
Definition bot_10 : Player := set_chips 10 (new_Player "Bot 2").

(** A human with 30 chips, who enters "Bet" and 80, or "Call". *)
Definition ann_30 : Player := set_chips 30 (new_Player "Ann").
Definition ann_bets_80 : Env :=
  mkEnv (fun _ => 0%nat) 0 [EWord "Bet"; ENum 80] (fun _ _ => 0%nat) 0.
Definition ann_calls : Env :=
  mkEnv (fun _ => 0%nat) 0 [EWord "Call"] (fun _ _ => 0%nat) 0.


(** "Bot 1" has folded, "Bot 2" has not; both are queued. *)
Definition folded_and_active : Table :=
  mkTable [set_folded true (new_Player "Bot 1"); new_Player "Bot 2"]
          (mkRound 0 0 []) [0%nat; 1%nat] quiet_env.

(** A new game of two automated players. *)
Definition two_bots : list Player := [new_Player "Bot 1"; new_Player "Bot 2"].
Definition two_bots_game : Game := gameLoop_start two_bots 2 new_Deck quiet_env.

(** "Bot 1" with 50 chips facing a pot of [INT_MAX], and with 100 chips
    facing a bet of [INT_MAX] when it draws the bluff. *)
Definition bot_50 : Player := set_chips 50 (new_Player "Bot 1").
Definition bot_100 : Player := set_chips 100 (new_Player "Bot 1").
Definition env_rand_3 : Env := mkEnv (fun _ => 3%nat) 0 [] (fun _ _ => 0%nat) 0.

(** * Properties *)

(** ** The result monad *)

Lemma bind_Ok_inv {A B} (r : result A) (k : A -> result B) (b : B) :
  r ≫= k = Ok b -> exists a, r = Ok a /\ k a = Ok b.
Proof. destruct r; simpl; intros H; try discriminate. eauto. Qed.

Ltac inv_bind H :=
  let a := fresh "a" in
  let Ha := fresh "Hrun" in
  apply bind_Ok_inv in H as (a & Ha & H).

(** ** The deck *)

Section deck.
Implicit Types d : Deck.

Lemma new_Deck_wf : deck_wf new_Deck.
Proof. split; [reflexivity | cbn; unfold MAX_CARDS; lia]. Qed.

Lemma reset_wf d : deck_wf d -> deck_wf (reset d).
Proof. intros [H _]. split; [exact H | cbn; unfold MAX_CARDS; lia]. Qed.

Lemma dealCard_wf d c d' : deck_wf d -> dealCard d = Ok (c, d') -> deck_wf d'.
Proof.
  intros [Hl Hc]. unfold dealCard. case_decide; [|discriminate].
  intros [= _ <-]. split; [exact Hl | cbn; lia].
Qed.

Lemma swap_cards_length cs i j : length (swap_cards cs i j) = length cs.
Proof.
  unfold swap_cards. destruct (cs !! i), (cs !! j); try done.
  by rewrite !length_insert.
Qed.

Lemma swaps_length (f : nat -> nat) idx : forall cs,
  length (foldl (fun cs i => swap_cards cs i (f i)) cs idx) = length cs.
Proof.
  induction idx as [|i idx IH]; intros cs; [done|].
  cbn. rewrite IH. apply swap_cards_length.
Qed.

Lemma shuffle_length draw d : length (cards (shuffle draw d)) = length (cards d).
Proof.
  unfold shuffle; cbn.
  apply (swaps_length (fun i => draw i mod (i + 1))%nat).
Qed.

Lemma swap_cards_perm cs i j : swap_cards cs i j ≡ₚ cs.
Proof.
  unfold swap_cards.
  destruct (cs !! i) as [x|] eqn:Hi; [|done].
  destruct (cs !! j) as [y|] eqn:Hj; [|done].
  pose proof (lookup_lt_Some _ _ _ Hi) as Hli.
  pose proof (lookup_lt_Some _ _ _ Hj) as Hlj.
  apply Permutation_inj. split; [by rewrite !length_insert|].
  exists (fun k => if decide (k = i) then j else if decide (k = j) then i else k).
  split.
  - intros a b. repeat case_decide; congruence.
  - intros k. rewrite list_lookup_insert. rewrite length_insert.
    destruct (decide (k = i)) as [->|Hki].
    + rewrite decide_True by (split; [done|lia]). by rewrite Hj.
    + rewrite decide_False by (intros [? _]; congruence).
      rewrite list_lookup_insert.
      destruct (decide (k = j)) as [->|Hkj].
      * rewrite decide_True by (split; [done|lia]). by rewrite Hi.
      * rewrite decide_False by (intros [? _]; congruence). done.
Qed.

Lemma swaps_perm (f : nat -> nat) idx : forall cs,
  foldl (fun cs i => swap_cards cs i (f i)) cs idx ≡ₚ cs.
Proof.
  induction idx as [|i idx IH]; intros cs; [done|].
  cbn. rewrite IH. apply swap_cards_perm.
Qed.

(** Whatever the draws, a shuffle rearranges the cards of the deck. *)
Lemma shuffle_perm draw d : cards (shuffle draw d) ≡ₚ cards d.
Proof.
  unfold shuffle; cbn.
  apply (swaps_perm (fun i => draw i mod (i + 1))%nat).
Qed.

Lemma shuffle_wf draw d : deck_wf d -> deck_wf (shuffle draw d).
Proof.
  intros [Hl Hc]. split; [|exact Hc]. by rewrite shuffle_length.
Qed.

Lemma dealCard_below d :
  topCardIndex d < MAX_CARDS ->
  dealCard d = Ok (cards d !!! Z.to_nat (topCardIndex d),
                   mkDeck (cards d) (topCardIndex d + 1)).
Proof. intros H. unfold dealCard. by rewrite decide_True. Qed.

Lemma dealCard_exhausted d :
  dealCard d = Throw ExhaustedDeck <-> MAX_CARDS <= topCardIndex d.
Proof.
  unfold dealCard. case_decide; split; intros; try done; lia.
Qed.

(** [n] deals succeed from a cursor that leaves room for them, and hand
    out the cards at the cursor and after it, in order. *)
Lemma deal_n_room n : forall d,
  0 <= topCardIndex d ->
  topCardIndex d + Z.of_nat n <= MAX_CARDS ->
  deal_n n d =
    Ok ((fun i => cards d !!! i) <$> seq (Z.to_nat (topCardIndex d)) n,
        mkDeck (cards d) (topCardIndex d + Z.of_nat n)).
Proof.
  induction n as [|n IH]; intros d H0 Hroom.
  - cbn. rewrite Z.add_0_r. by destruct d.
  - cbn [deal_n]. rewrite dealCard_below by lia. cbn.
    rewrite IH by (cbn; lia). cbn [cards topCardIndex mbind result_bind].
    replace (Z.to_nat (topCardIndex d + 1)) with (S (Z.to_nat (topCardIndex d))) by lia.
    replace (topCardIndex d + 1 + Z.of_nat n)
      with (topCardIndex d + Z.of_nat (S n)) by lia.
    reflexivity.
Qed.

Lemma deal_n_S n d :
  deal_n (S n) d =
    '(c, d1) ← dealCard d; '(cs, d2) ← deal_n n d1; Ok (c :: cs, d2).
Proof. reflexivity. Qed.

Lemma deal_n_snoc n : forall d,
  deal_n (S n) d =
    '(cs, d1) ← deal_n n d; '(c, d2) ← dealCard d1; Ok (cs ++ [c], d2).
Proof.
  induction n as [|n IH]; intros d.
  - cbn. by destruct (dealCard d) as [[c d1]| |].
  - rewrite deal_n_S, (deal_n_S n).
    destruct (dealCard d) as [[c d1]| |]; [|done..].
    cbn [mbind result_bind]. rewrite IH.
    destruct (deal_n n d1) as [[cs d2]| |]; [|done..].
    cbn [mbind result_bind].
    by destruct (dealCard d2) as [[c' d3]| |].
Qed.
End deck.

(** C6.  On every deck that satisfies the class invariant (52 cards, a
    cursor between 0 and 52): [dealCard] returns the card at the cursor and
    moves the cursor on by one when the cursor is below 52; it fails with
    the exhausted-deck error exactly when the cursor is 52; [reset] puts
    the cursor at 0 and keeps the order of the cards; and after a reset 52
    deals succeed, handing out the 52 cards in order, while dealing a 53rd
    card fails with the exhausted-deck error. *)
Theorem C6_dealCard_reset (d : Deck) :
  deck_wf d ->
  (topCardIndex d < 52 ->
     dealCard d = Ok (cards d !!! Z.to_nat (topCardIndex d),
                      mkDeck (cards d) (topCardIndex d + 1))) /\
  (dealCard d = Throw ExhaustedDeck <-> topCardIndex d = 52) /\
  ((exists c d', dealCard d = Ok (c, d')) \/ dealCard d = Throw ExhaustedDeck) /\
  (topCardIndex (reset d) = 0 /\ cards (reset d) = cards d) /\
  deal_n 52 (reset d) = Ok (cards d, mkDeck (cards d) 52) /\
  deal_n 53 (reset d) = Throw ExhaustedDeck.
Proof.
  intros [Hlen Hcur]. unfold MAX_CARDS in Hcur.
  assert (H52 : deal_n 52 (reset d) = Ok (cards d, mkDeck (cards d) 52)).
  { rewrite deal_n_room by (cbn; unfold MAX_CARDS; lia). cbn [reset topCardIndex cards].
    f_equal. f_equal.
    apply list_eq. intros i. rewrite list_lookup_fmap.
    destruct (decide (i < 52)%nat) as [Hi|Hi].
    - rewrite lookup_seq_lt by done. cbn.
      destruct (lookup_lt_is_Some_2 (cards d) i) as [c Hc]; [lia|].
      rewrite Hc. f_equal. by apply list_lookup_total_correct.
    - rewrite lookup_seq_ge by lia. cbn. symmetry. apply lookup_ge_None. lia. }
  split_and!.
  - apply dealCard_below.
  - rewrite dealCard_exhausted. unfold MAX_CARDS. lia.
  - unfold dealCard. case_decide; eauto.
  - done.
  - done.
  - exact H52.
  - rewrite deal_n_snoc, H52. cbn. reflexivity.
Qed.

(** The deck as constructed. *)
Lemma C6_dealCard_reset_witness :
  deck_wf new_Deck /\
  deal_n 53 (reset new_Deck) = Throw ExhaustedDeck.
Proof.
  split; [exact new_Deck_wf|].
  apply (C6_dealCard_reset new_Deck new_Deck_wf).
Defined.

(** ** Hand strength *)

Section hand_strength.
Implicit Types (rs : list string) (m : gmap string Z) (r : string).

Lemma sum_Z_perm (xs ys : list Z) : xs ≡ₚ ys -> sum_Z xs = sum_Z ys.
Proof. unfold sum_Z. induction 1; cbn; lia. Qed.

Lemma entry_score_points (n : nat) : entry_score (Z.of_nat n) = rank_points n.
Proof.
  unfold entry_score.
  destruct n as [|[|[|[|[|n]]]]]; cbn [rank_points];
    repeat case_decide; try lia; reflexivity.
Qed.

Lemma occurrences_cons r r' rs :
  occurrences r (r' :: rs) =
    if decide (r = r') then S (occurrences r rs) else occurrences r rs.
Proof.
  unfold occurrences. rewrite filter_cons. by repeat case_decide.
Qed.

Lemma occurrences_snoc r rs r' :
  occurrences r (rs ++ [r']) =
    if decide (r = r') then S (occurrences r rs) else occurrences r rs.
Proof.
  unfold occurrences. rewrite filter_app, length_app, filter_cons, filter_nil.
  case_decide; cbn; lia.
Qed.

Lemma occurrences_pos r rs : r ∈ rs <-> (0 < occurrences r rs)%nat.
Proof.
  induction rs as [|r' rs IH].
  - split; [by intros ?%elem_of_nil | cbn; lia].
  - rewrite occurrences_cons, elem_of_cons. case_decide as Heq.
    + split; [lia | by left].
    + rewrite <- IH. split; [by intros [?|?] | by right].
Qed.

Lemma occurrences_absent r rs : r ∉ rs -> occurrences r rs = 0%nat.
Proof. rewrite occurrences_pos. lia. Qed.

Lemma NoDup_occurrences r rs : NoDup rs -> (occurrences r rs <= 1)%nat.
Proof.
  induction 1 as [|x l Hx Hnd IH]; [cbn; lia|].
  rewrite occurrences_cons. case_decide as Heq; [subst x|exact IH].
  rewrite occurrences_absent; [lia | done].
Qed.

(** The tally after the counting loops: each rank met is mapped to the
    number of times it was met. *)
Lemma tally_lookup rs : forall r,
  foldl bump ∅ rs !! r =
    if decide (r ∈ rs) then Some (Z.of_nat (occurrences r rs)) else None.
Proof.
  induction rs as [|r' rs IH] using rev_ind; intros r.
  - by rewrite decide_False by apply not_elem_of_nil.
  - rewrite foldl_app. cbn [foldl]. unfold bump at 1.
    rewrite occurrences_snoc, lookup_insert.
    destruct (decide (r' = r)) as [->|Hne].
    + rewrite decide_True by (apply elem_of_app; right; by left).
      rewrite decide_True by done. rewrite IH.
      case_decide as Hin; cbn; f_equal; [lia|].
      rewrite occurrences_absent by done. lia.
    + rewrite (decide_False (P := r = r')) by done. rewrite IH.
      apply decide_ext. rewrite elem_of_app, list_elem_of_singleton.
      split; [by left | by intros [?|?]].
Qed.

Lemma score_of_tally rs :
  map_fold (fun _ count score => score + entry_score count) 0
           (foldl bump ∅ rs) = points_of_ranks rs.
Proof.
  rewrite map_fold_foldr. unfold points_of_ranks.
  transitivity (sum_Z ((fun kc => entry_score kc.2) <$> map_to_list (foldl bump ∅ rs))).
  { generalize (map_to_list (foldl bump ∅ rs)).
    intros l. induction l as [|[k c] l IH]; [done|]. cbn. rewrite IH.
    unfold sum_Z. lia. }
  assert (Hperm : map_to_list (foldl bump ∅ rs) ≡ₚ
            (fun r => (r, Z.of_nat (occurrences r rs))) <$> remove_dups rs).
  { apply NoDup_Permutation.
    - apply NoDup_map_to_list.
    - apply NoDup_fmap_2_strong; [|apply NoDup_remove_dups]. by intros ?? _ _ [=].
    - intros [k c]. rewrite elem_of_map_to_list, tally_lookup, list_elem_of_fmap.
      split.
      + case_decide as Hin; [|done]. intros [= <-].
        exists k. split; [done|]. by apply elem_of_remove_dups.
      + intros (r & Heq & Hin). rewrite elem_of_remove_dups in Hin.
        injection Heq as -> ->. by rewrite decide_True. }
  rewrite (sum_Z_perm _ _ (fmap_Permutation _ _ _ Hperm)).
  rewrite <- list_fmap_compose. f_equal. apply list_fmap_ext.
  intros _ r _. cbn. apply entry_score_points.
Qed.

(** [evaluateHandStrength] is the sum, over the distinct ranks among the
    visible cards, of the points of each rank. *)
Lemma handStrength_points h cc n :
  handStrength h cc n = points_of_ranks (tallied_ranks h cc n).
Proof.
  unfold handStrength, tallied_ranks.
  rewrite <- foldl_app. apply score_of_tally.
Qed.

(** Sums in which at most one, or at most two, terms are not zero. *)
Lemma sum_Z_cons (x : Z) (l : list Z) : sum_Z (x :: l) = x + sum_Z l.
Proof. reflexivity. Qed.

Lemma sum_Z_zero {A} (g : A -> Z) (l : list A) :
  (forall x, x ∈ l -> g x = 0) -> sum_Z (g <$> l) = 0.
Proof.
  induction l as [|x l IH]; intros H; [done|].
  rewrite fmap_cons, sum_Z_cons, H by left.
  rewrite IH; [done|]. intros y Hy. apply H. by right.
Qed.

Lemma sum_Z_one {A} (g : A -> Z) (l : list A) (a : A) :
  NoDup l -> a ∈ l -> (forall x, x ∈ l -> x ≠ a -> g x = 0) ->
  sum_Z (g <$> l) = g a.
Proof.
  induction 1 as [|x l Hx Hnd IH]; intros Ha Hz; [by apply elem_of_nil in Ha|].
  rewrite fmap_cons, sum_Z_cons. apply elem_of_cons in Ha as [->|Ha].
  - rewrite sum_Z_zero; [lia|]. intros y Hy. apply Hz; [by right|].
    intros ->. contradiction.
  - rewrite IH; [|done|intros y Hy; apply Hz; by right].
    rewrite Hz; [lia|by left|]. intros ->. contradiction.
Qed.

Lemma sum_Z_two {A} (g : A -> Z) (l : list A) (a b : A) :
  NoDup l -> a ∈ l -> b ∈ l -> a ≠ b ->
  (forall x, x ∈ l -> x ≠ a -> x ≠ b -> g x = 0) ->
  sum_Z (g <$> l) = g a + g b.
Proof.
  induction 1 as [|x l Hx Hnd IH]; intros Ha Hb Hab Hz;
    [by apply elem_of_nil in Ha|].
  rewrite fmap_cons, sum_Z_cons.
  apply elem_of_cons in Ha as [->|Ha]; apply elem_of_cons in Hb as [->|Hb].
  - done.
  - rewrite (sum_Z_one g l b); [lia|done..|].
    intros y Hy Hyb. apply Hz; [by right| |done]. intros ->. contradiction.
  - rewrite (sum_Z_one g l a); [lia|done..|].
    intros y Hy Hya. apply Hz; [by right|done|]. intros ->. contradiction.
  - rewrite IH; [|done..|intros y Hy; apply Hz; by right].
    rewrite Hz; [lia|by left|intros ->; contradiction..].
Qed.
End hand_strength.

(** C2.  For every pair of hole cards and every number of visible community
    cards, the hand score is the sum, over the distinct ranks among the
    hole cards and the visible community cards, of 2 for a rank that occurs
    exactly twice, 6 for exactly three times, 10 for exactly four times and
    0 otherwise.  In particular: no repeated rank scores 0; one rank
    occurring twice (thrice, four times) and no other rank repeated scores
    2 (6, 10); a rank occurring twice, another occurring three times and no
    other rank repeated scores 8. *)
Theorem C2_hand_score (h : Card * Card) (communityCards : list Card)
    (communitySize : nat) :
  let rs := tallied_ranks h communityCards communitySize in
  handStrength h communityCards communitySize = points_of_ranks rs /\
  (NoDup rs -> handStrength h communityCards communitySize = 0) /\
  (forall r n,
     occurrences r rs = n -> (2 <= n <= 4)%nat ->
     (forall r', r' ≠ r -> (occurrences r' rs <= 1)%nat) ->
     handStrength h communityCards communitySize = rank_points n) /\
  (forall r2 r3,
     occurrences r2 rs = 2%nat -> occurrences r3 rs = 3%nat ->
     (forall r', r' ≠ r2 -> r' ≠ r3 -> (occurrences r' rs <= 1)%nat) ->
     handStrength h communityCards communitySize = 8).
Proof.
  intros rs.
  assert (Hsmall : forall r', (occurrences r' rs <= 1)%nat ->
                     rank_points (occurrences r' rs) = 0).
  { intros r' Hr'. by destruct (occurrences r' rs) as [|[|?]]; [..|lia]. }
  rewrite handStrength_points. fold rs. unfold points_of_ranks.
  split_and!.
  - reflexivity.
  - intros Hnd. apply sum_Z_zero. intros r _.
    by apply Hsmall, NoDup_occurrences.
  - intros r n Hn Hrange Hothers.
    rewrite (sum_Z_one _ _ r); [by rewrite Hn|apply NoDup_remove_dups| |].
    + apply elem_of_remove_dups, occurrences_pos. lia.
    + intros r' _ Hne. by apply Hsmall, Hothers.
  - intros r2 r3 H2 H3 Hothers.
    rewrite (sum_Z_two _ _ r2 r3); [by rewrite H2, H3|apply NoDup_remove_dups|..].
    + apply elem_of_remove_dups, occurrences_pos. lia.
    + apply elem_of_remove_dups, occurrences_pos. lia.
    + intros ->. congruence.
    + intros r' _ Hne2 Hne3. by apply Hsmall, Hothers.
Qed.

(** A pair of kings in the hole, three sevens among four visible cards. *)
Lemma C2_hand_score_witness :
  handStrength (mkCard "King" "Hearts", mkCard "King" "Spades")
    [mkCard "7" "Clubs"; mkCard "7" "Hearts"; mkCard "Ace" "Clubs";
     mkCard "7" "Spades"; mkCard "2" "Clubs"] 4 = 8.
Proof.
  apply (C2_hand_score (mkCard "King" "Hearts", mkCard "King" "Spades")
           [mkCard "7" "Clubs"; mkCard "7" "Hearts"; mkCard "Ace" "Clubs";
            mkCard "7" "Spades"; mkCard "2" "Clubs"] 4%nat)
    with (r2 := "King") (r3 := "7").
  - reflexivity.
  - reflexivity.
  - intros r' H2 H3.
    change (tallied_ranks _ _ _) with ["7"; "7"; "Ace"; "7"; "King"; "King"].
    rewrite !occurrences_cons.
    repeat case_decide; try congruence; cbn; lia.
Defined.

(** ** One turn *)

Section takeAction.
Implicit Types (p : Player) (rs : RoundState) (ev : Env).
Implicit Types (it : entry) (input junk rest : list entry).

Lemma human_action_skip it input p rs :
  skipped_entry it ->
  human_action (it :: input) p rs = human_action input p rs.
Proof.
  unfold skipped_entry, menu_word. intros Hno. cbn [human_action].
  repeat (rewrite decide_False by tauto). reflexivity.
Qed.

Lemma human_action_skips junk input p rs :
  Forall skipped_entry junk ->
  human_action (junk ++ input) p rs = human_action input p rs.
Proof.
  induction 1 as [|it junk Hit _ IH]; [done|].
  cbn [app]. by rewrite human_action_skip.
Qed.

(** Every branch moves the same amount out of the player's chips and
    into the pot. *)
Lemma bot_action_conserves action p rs p' rs' :
  bot_action action p rs = (p', rs') ->
  chips p' + pot rs' = chips p + pot rs.
Proof.
  unfold bot_action, log.
  repeat case_decide; intros [= <- <-]; cbn; lia.
Qed.

Lemma human_action_conserves input : forall p rs p' rs' rest,
  human_action input p rs = Ok (p', rs', rest) ->
  chips p' + pot rs' = chips p + pot rs.
Proof.
  induction input as [|it input IH]; intros p rs p' rs' rest; [done|].
  cbn [human_action]. unfold log.
  repeat case_decide; try (intros [= <- <- <-]; cbn; lia); [|by apply IH].
  destruct (read_betAmount input) as [[entered rest']|]; [|done].
  intros [= <- <- <-]. cbn. lia.
Qed.

(** How [takeAction] splits into its branches. *)
Lemma takeAction_inv p rs cc n ev p' rs' ev' :
  takeAction p rs cc n ev = Ok (p', rs', ev') ->
  (folded p = true /\ p' = p /\ rs' = rs /\ ev' = ev) \/
  (folded p = false /\ is_bot p = true /\
     exists action,
       choose_action p cc n ev = (action, ev') /\
       bot_action action p rs = (p', rs')) \/
  (folded p = false /\ is_bot p = false /\
     exists rest,
       human_action (cin ev) p rs = Ok (p', rs', rest) /\
       ev' = set_cin rest ev).
Proof.
  unfold takeAction. intros H.
  destruct (folded p); [injection H as <- <- <-; by left|].
  right. destruct (is_bot p).
  - left. destruct (choose_action p cc n ev) as [action ev1].
    destruct (bot_action action p rs) as [p1 rs1] eqn:Hact.
    injection H as <- <- <-. eauto.
  - right. inv_bind H. destruct a as [[p1 rs1] rest].
    injection H as <- <- <-. eauto.
Qed.

Lemma takeAction_conserves p rs cc n ev p' rs' ev' :
  takeAction p rs cc n ev = Ok (p', rs', ev') ->
  chips p' + pot rs' = chips p + pot rs.
Proof.
  intros [(_ & -> & -> & _)|[(_ & _ & action & _ & Hact)|(_ & _ & rest & Hact & _)]]
    %takeAction_inv.
  - done.
  - by eapply bot_action_conserves.
  - by eapply human_action_conserves.
Qed.

(** A turn of an automated player always completes. *)
Lemma takeAction_bot_total p rs cc n ev :
  is_bot p = true ->
  exists p' rs' ev', takeAction p rs cc n ev = Ok (p', rs', ev').
Proof.
  intros Hbot. unfold takeAction. rewrite Hbot.
  destruct (folded p); [eauto|].
  destruct (choose_action p cc n ev) as [action ev1].
  destruct (bot_action action p rs) as [p1 rs1]. eauto.
Qed.

(** The amount prompt completes at the first positive number. *)
Lemma read_betAmount_total junk (n : Z) rest :
  in_int n -> 0 < n ->
  Forall (fun it => forall m, it = ENum m -> ~ (in_int m /\ 0 < m)) junk ->
  read_betAmount (junk ++ ENum n :: rest) = Some (n, rest).
Proof.
  intros Hn Hpos. induction 1 as [|it junk Hit _ IH].
  - cbn. by rewrite decide_True.
  - cbn. destruct it as [w|m]; [done|].
    rewrite decide_False; [done|]. by apply Hit.
Qed.

(** A turn of a human player completes once the script holds "Call",
    "Check" or "Fold", or "Bet" or "Raise" followed by a positive
    amount. *)
Lemma human_action_total junk it rest p rs :
  Forall skipped_entry junk ->
  entry_word it = "Call" \/ entry_word it = "Check" \/ entry_word it = "Fold" ->
  exists p' rs', human_action (junk ++ it :: rest) p rs = Ok (p', rs', rest).
Proof.
  intros Hjunk Hword. rewrite human_action_skips by done.
  cbn [human_action].
  destruct Hword as [ -> | [ -> | -> ] ];
    repeat case_decide; eauto; try congruence; exfalso; intuition discriminate.
Qed.

Lemma human_action_bet_total junk it junk' (n : Z) rest p rs :
  Forall skipped_entry junk ->
  entry_word it = "Bet" \/ entry_word it = "Raise" ->
  in_int n -> 0 < n ->
  Forall (fun it => forall m, it = ENum m -> ~ (in_int m /\ 0 < m)) junk' ->
  exists p' rs',
    human_action (junk ++ it :: junk' ++ ENum n :: rest) p rs = Ok (p', rs', rest).
Proof.
  intros Hjunk Hword Hn Hpos Hjunk'. rewrite human_action_skips by done.
  cbn [human_action]. rewrite decide_True by done.
  rewrite read_betAmount_total by done. eauto.
Qed.
(** A turn changes neither the name nor, hence, the kind of a player. *)
Lemma bot_action_name action p rs p' rs' :
  bot_action action p rs = (p', rs') -> name p' = name p.
Proof.
  unfold bot_action. repeat case_decide; by intros [= <- _].
Qed.

Lemma human_action_name input : forall p rs p' rs' rest,
  human_action input p rs = Ok (p', rs', rest) -> name p' = name p.
Proof.
  induction input as [|it input IH]; intros p rs p' rs' rest; [done|].
  cbn [human_action].
  repeat case_decide; try (by intros [= <- _ _]); [|by apply IH].
  destruct (read_betAmount input) as [[entered rest']|]; [|done].
  by intros [= <- _ _].
Qed.

Lemma takeAction_name p rs cc n ev p' rs' ev' :
  takeAction p rs cc n ev = Ok (p', rs', ev') -> name p' = name p.
Proof.
  intros [(_ & -> & _)|[(_ & _ & action & _ & Hact)|(_ & _ & rest & Hact & _)]]
    %takeAction_inv.
  - done.
  - by eapply bot_action_name.
  - by eapply human_action_name.
Qed.

End takeAction.

Section takeAction_bounds.
Implicit Types (p : Player) (rs : RoundState) (ev : Env).
Implicit Types (it : entry) (input junk rest : list entry).

Lemma read_betAmount_pos input : forall n rest,
  read_betAmount input = Some (n, rest) -> in_int n /\ 0 < n.
Proof.
  induction input as [|[w|m] input IH]; intros n rest; cbn; [done|apply IH|].
  case_decide; [by intros [= <- _]|apply IH].
Qed.

(** After a turn the chips and the pot are still non-negative, and the
    bet is between zero and the larger of the old bet and the player's
    old chips. *)
Lemma bot_action_bounds action p rs p' rs' :
  0 <= chips p -> 0 <= pot rs -> 0 <= currentBet rs ->
  bot_action action p rs = (p', rs') ->
  0 <= chips p' /\ 0 <= pot rs' /\
  currentBet rs <= currentBet rs' <= Z.max (currentBet rs) (chips p).
Proof.
  unfold bot_action, log. intros Hc Hp Hb.
  repeat case_decide; intros [= <- <-]; cbn; lia.
Qed.

Lemma human_action_bounds input : forall p rs p' rs' rest,
  0 <= chips p -> 0 <= pot rs -> 0 <= currentBet rs ->
  human_action input p rs = Ok (p', rs', rest) ->
  0 <= chips p' /\ 0 <= pot rs' /\
  currentBet rs <= currentBet rs' <= Z.max (currentBet rs) (chips p).
Proof.
  induction input as [|it input IH]; intros p rs p' rs' rest Hc Hp Hb; [done|].
  cbn [human_action]. unfold log.
  repeat case_decide; try (intros [= <- <- <-]; cbn; lia); [|by apply IH].
  destruct (read_betAmount input) as [[entered rest']|] eqn:Hread; [|done].
  apply read_betAmount_pos in Hread as [_ Hpos].
  intros [= <- <- <-]. cbn. repeat case_decide; lia.
Qed.

Lemma takeAction_bounds p rs cc n ev p' rs' ev' :
  0 <= chips p -> 0 <= pot rs -> 0 <= currentBet rs ->
  takeAction p rs cc n ev = Ok (p', rs', ev') ->
  0 <= chips p' /\ 0 <= pot rs' /\
  currentBet rs <= currentBet rs' <= Z.max (currentBet rs) (chips p).
Proof.
  intros Hc Hp Hb
    [(_ & -> & -> & _)|[(_ & _ & action & _ & Hact)|(_ & _ & rest & Hact & _)]]
    %takeAction_inv.
  - lia.
  - by eapply bot_action_bounds.
  - by eapply human_action_bounds.
Qed.

(** No [int] overflows in a turn when the player's chips and the pot
    together fit an [int] and the bet leaves room for a bluff: the values
    the turn computes are the new chips, the new pot, the new bet, and
    [currentBet + 20]. *)
Lemma takeAction_in_range p rs cc n ev p' rs' ev' :
  0 <= chips p -> 0 <= pot rs -> 0 <= currentBet rs ->
  chips p + pot rs <= INT_MAX -> currentBet rs + 20 <= INT_MAX ->
  takeAction p rs cc n ev = Ok (p', rs', ev') ->
  in_int (chips p') /\ in_int (pot rs') /\ in_int (currentBet rs') /\
  in_int (currentBet rs + 20).
Proof.
  intros Hc Hp Hb Hsum Hbet Hrun.
  pose proof (takeAction_conserves _ _ _ _ _ _ _ _ Hrun) as Hcons.
  pose proof (takeAction_bounds _ _ _ _ _ _ _ _ Hc Hp Hb Hrun) as (Hc' & Hp' & Hb').
  unfold in_int, INT_MIN, INT_MAX in *. lia.
Qed.
End takeAction_bounds.

(** *** Calling without the chips *)

(** C5, as stated, fails: a human with 30 chips who enters "Call" against a
    bet of 40 keeps chips, pot and bet, but nothing is appended to the
    action history. *)
Lemma C5_human_call_not_logged :
  takeAction ann_30 (mkRound 100 40 []) [] 0 ann_calls =
    Ok (ann_30, mkRound 100 40 [], set_cin [] ann_calls) /\
  ~ call_degrades_to_logged_check.
Proof.
  assert (Hrun : takeAction ann_30 (mkRound 100 40 []) [] 0 ann_calls =
            Ok (ann_30, mkRound 100 40 [], set_cin [] ann_calls))
    by (vm_compute; reflexivity).
  split; [exact Hrun|].
  intros Hclaim.
  destruct (Hclaim ann_30 (mkRound 100 40 []) [] 0%nat ann_calls)
    as (p' & rs' & ev' & Hrun' & _ & _ & _ & Hlog).
  - split; [reflexivity|]. cbn. exists [], (EWord "Call"), []. by split_and!.
  - cbn. lia.
  - rewrite Hrun in Hrun'. injection Hrun' as <- <- <-. discriminate Hlog.
Qed.

(** C5, amended.  A player who is not folded and chooses Call with fewer
    chips than the current bet completes the turn without an error and
    with the chips, the pot and the current bet unchanged; the turn of an
    automated player is logged as a check, the turn of a human player
    leaves the action history as it was. *)
Theorem C5_call_without_chips (p : Player) (rs : RoundState)
    (communityCards : list Card) (communitySize : nat) (ev : Env) :
  chooses_call p communityCards communitySize ev ->
  chips p < currentBet rs ->
  exists ev',
    takeAction p rs communityCards communitySize ev =
      Ok (p,
          mkRound (pot rs) (currentBet rs)
            (actionHistory rs ++
               if is_bot p then [name p +:+ " checks."] else []),
          ev').
Proof.
  intros [Hfold Hcall] Hshort. unfold takeAction. rewrite Hfold.
  destruct (is_bot p).
  - destruct (choose_action p communityCards communitySize ev) as [action ev1].
    cbn in Hcall. subst action. exists ev1.
    unfold bot_action. rewrite decide_False by lia. rewrite decide_True by done.
    by rewrite decide_False by lia.
  - destruct Hcall as (junk & it & rest & -> & Hjunk & Hword).
    exists (set_cin rest ev).
    rewrite human_action_skips by done. cbn [human_action]. rewrite Hword.
    rewrite decide_False by (intros [?|?]; discriminate).
    rewrite decide_True by done. rewrite decide_False by lia.
    cbn. rewrite app_nil_r. by destruct rs.
Qed.

(** "Bot 2" with 10 chips, drawing action 1 against a bet of 40. *)
Lemma C5_call_without_chips_witness :
  exists ev',
    takeAction bot_10 (mkRound 100 40 []) [] 0 env_rand_1 =
      Ok (bot_10, mkRound 100 40 ["Bot 2 checks."], ev').
Proof.
  apply (C5_call_without_chips bot_10 (mkRound 100 40 []) [] 0%nat env_rand_1).
  - split; reflexivity.
  - cbn. lia.
Defined.

(** ** Showdown *)

Section showdown.
Implicit Types (ps : list Player) (cc : list Card) (p q : Player).




(** There is at most one first holder of the highest score. *)
Lemma first_with_best_score_unique ps n cc cs w1 w2 :
  first_with_best_score ps n cc cs w1 ->
  first_with_best_score ps n cc cs w2 -> w1 = w2.
Proof.
  intros (Hw1 & (p1 & Hp1 & Hf1 & He1) & (p1' & Hp1' & Hl1))
         (Hw2 & (p2 & Hp2 & Hf2 & He2) & (p2' & Hp2' & Hl2)).
  assert (p1' = p1) as -> by congruence.
  assert (p2' = p2) as -> by congruence.
  destruct (Nat.lt_total w1 w2) as [Hlt|[->|Hlt]]; [|done|].
  - specialize (He2 w1 p1 Hlt Hp1 Hf1).
    specialize (Hl1 w2 p2 ltac:(lia) Hp2 Hf2). lia.
  - specialize (He1 w2 p2 Hlt Hp2 Hf2).
    specialize (Hl2 w1 p1 ltac:(lia) Hp1 Hf1). lia.
Qed.
End showdown.

Lemma alter_as_insert {A} (f : A -> A) (l : list A) (i : nat) (x : A) :
  l !! i = Some x -> alter f i l = <[i := f x]> l.
Proof.
  intros Hx. apply list_eq. intros j.
  rewrite list_lookup_alter, list_lookup_insert.
  pose proof (lookup_lt_Some _ _ _ Hx).
  destruct (decide (i = j)) as [->|Hne].
  - rewrite Hx. cbn. by rewrite decide_True.
  - rewrite decide_False; [done|]. intros [? _]. done.
Qed.




(** ** The ranking tree *)

Section ranking_tree.
Implicit Types (t l r : TreeNode) (p q x : Player).

Lemma insert_node l q r x :
  insert (Node l q r) x =
    if decide (chips x > chips q) then Node (insert l x) q r
    else Node l q (insert r x).
Proof. reflexivity. Qed.

Lemma inOrder_insert t x : inOrder (insert t x) ≡ₚ x :: inOrder t.
Proof.
  induction t as [|l IHl q r IHr]; [done|].
  rewrite insert_node. case_decide; cbn [inOrder].
  - by rewrite IHl.
  - rewrite IHr. by rewrite <- !Permutation_middle, Permutation_swap.
Qed.

Lemma elem_of_inOrder_insert t x y :
  y ∈ inOrder (insert t x) <-> y = x \/ y ∈ inOrder t.
Proof. by rewrite inOrder_insert, elem_of_cons. Qed.

Lemma insert_sorted t x :
  by_chips_desc (inOrder t) -> by_chips_desc (inOrder (insert t x)).
Proof.
  unfold by_chips_desc.
  induction t as [|l IHl q r IHr]; intros Hs.
  - cbn. repeat constructor.
  - rewrite insert_node. cbn [inOrder] in Hs.
    apply StronglySorted_app in Hs as (Hcross & Hl & Hqr).
    apply StronglySorted_cons in Hqr as (Hq & Hr).
    rewrite Forall_forall in Hq.
    case_decide as Hgt; cbn [inOrder]; apply StronglySorted_app; split_and!.
    + intros x1 x2 [->|Hx1]%elem_of_inOrder_insert Hx2; [|by apply Hcross].
      apply elem_of_cons in Hx2 as [->|Hx2]; [lia|].
      specialize (Hq _ Hx2). cbn in Hq. lia.
    + by apply IHl.
    + apply StronglySorted_cons. by rewrite Forall_forall.
    + intros x1 x2 Hx1 [->|Hx2]%elem_of_cons; [apply Hcross; [done|by left]|].
      apply elem_of_inOrder_insert in Hx2 as [->|Hx2].
      * specialize (Hcross x1 q Hx1 ltac:(by left)). cbn in Hcross. lia.
      * apply Hcross; [done|by right].
    + done.
    + apply StronglySorted_cons. split; [|by apply IHr].
      rewrite Forall_forall. intros y [->|Hy]%elem_of_inOrder_insert; [lia|].
      by apply Hq.
Qed.

Lemma addPlayers_snoc ps x : addPlayers (ps ++ [x]) = insert (addPlayers ps) x.
Proof. unfold addPlayers. by rewrite foldl_app. Qed.

Lemma addPlayers_sorted ps : by_chips_desc (inOrder (addPlayers ps)).
Proof.
  induction ps as [|x ps IH] using rev_ind; [constructor|].
  rewrite addPlayers_snoc. by apply insert_sorted.
Qed.

Lemma addPlayers_perm ps : inOrder (addPlayers ps) ≡ₚ ps.
Proof.
  induction ps as [|x ps IH] using rev_ind; [done|].
  rewrite addPlayers_snoc, inOrder_insert, IH.
  by rewrite <- Permutation_cons_append.
Qed.
End ranking_tree.

(** C9, as stated, fails in its second half: no insertion sequence, with
    or without ties, is printed out of non-increasing chip order. *)
Lemma C9_no_tie_breaks_the_order : ~ some_tie_breaks_the_order.
Proof. intros (ps & _ & Hbad). apply Hbad, addPlayers_sorted. Qed.

(** C9, amended.  Insertion at a node recurses left exactly when the new
    player's chips strictly exceed the node's, and right otherwise; for
    every insertion sequence, ties included, the in-order traversal of the
    resulting tree holds exactly the inserted players and is sorted in
    non-increasing chip order. *)
Theorem C9_insert_inOrder :
  (forall l q r x,
     (chips x > chips q -> insert (Node l q r) x = Node (insert l x) q r) /\
     (~ chips x > chips q -> insert (Node l q r) x = Node l q (insert r x))) /\
  (forall ps,
     inOrder (addPlayers ps) ≡ₚ ps /\ by_chips_desc (inOrder (addPlayers ps))).
Proof.
  split.
  - intros l q r x. rewrite insert_node.
    split; intros H; [by rewrite decide_True|by rewrite decide_False].
  - intros ps. split; [apply addPlayers_perm|apply addPlayers_sorted].
Qed.

(** Three players, the first and the last tied at 500 chips. *)
Lemma C9_insert_inOrder_witness :
  insert (Node Null (set_chips 500 (new_Player "Ann")) Null)
         (set_chips 800 (new_Player "Bob")) =
    Node (insert Null (set_chips 800 (new_Player "Bob")))
         (set_chips 500 (new_Player "Ann")) Null /\
  by_chips_desc
    (inOrder (addPlayers [set_chips 500 (new_Player "Ann");
                          set_chips 800 (new_Player "Bob");
                          set_chips 500 (new_Player "Cy")])).
Proof.
  split.
  - apply (proj1 C9_insert_inOrder). cbn. lia.
  - apply (proj2 C9_insert_inOrder).
Defined.

(** ** Re-ranking *)

Section merge_sort.
Implicit Types (arr pre seg post L R xs : list Player) (p x y : Player).

Lemma mergeSort_eqn arr lo hi :
  mergeSort arr lo hi =
    if decide (lo < hi) then
      merge
        (mergeSort (mergeSort arr lo (lo + (hi - lo) `quot` 2))
                   (lo + (hi - lo) `quot` 2 + 1) hi)
        lo (lo + (hi - lo) `quot` 2) hi
    else arr.
Proof.
  simp mergeSort. destruct (decide (lo < hi)); simp mergeSort; reflexivity.
Qed.

(** *** The merging loops *)

Lemma merge_loop_nil_r L : merge_loop L [] = L.
Proof. by destruct L. Qed.

Lemma merge_loop_cons x L y R :
  merge_loop (x :: L) (y :: R) =
    if decide (chips x >= chips y) then x :: merge_loop L (y :: R)
    else y :: merge_loop (x :: L) R.
Proof. reflexivity. Qed.

Lemma merge_loop_perm L : forall R, merge_loop L R ≡ₚ L ++ R.
Proof.
  induction L as [|x L IHL]; intros R; [by destruct R|].
  induction R as [|y R IHR]; [by rewrite merge_loop_nil_r, app_nil_r|].
  rewrite merge_loop_cons. case_decide.
  - cbn. by rewrite IHL.
  - rewrite IHR. by rewrite <- Permutation_middle.
Qed.

Lemma merge_loop_sorted L : forall R,
  by_chips_desc L -> by_chips_desc R -> by_chips_desc (merge_loop L R).
Proof.
  unfold by_chips_desc.
  induction L as [|x L IHL]; intros R HL HR; [by destruct R|].
  induction R as [|y R IHR]; [by rewrite merge_loop_nil_r|].
  rewrite merge_loop_cons.
  apply StronglySorted_cons in HL as HL'. destruct HL' as [HxL HL'].
  apply StronglySorted_cons in HR as HR'. destruct HR' as [HyR HR'].
  rewrite Forall_forall in HxL, HyR.
  case_decide as Hge; apply StronglySorted_cons; (split; [|by auto]);
    rewrite Forall_forall; intros z Hz;
    rewrite merge_loop_perm in Hz; apply elem_of_app in Hz as [Hz|Hz].
  - by apply HxL.
  - apply elem_of_cons in Hz as [->|Hz]; [done|].
    specialize (HyR _ Hz). cbn in HyR. lia.
  - apply elem_of_cons in Hz as [->|Hz]; [lia|].
    specialize (HxL _ Hz). cbn in HxL. lia.
  - by apply HyR.
Qed.

Lemma with_chips_none c xs :
  Forall (fun p => chips p ≠ c) xs -> with_chips c xs = [].
Proof.
  unfold with_chips. induction 1 as [|x xs Hx _ IH]; [done|].
  rewrite filter_cons. by rewrite decide_False.
Qed.

(** An element of [R] is written before the remaining elements of [L]
    only when it has strictly more chips than all of them, so ties keep
    the order "left half first". *)
Lemma merge_loop_stable c L : forall R,
  by_chips_desc L ->
  with_chips c (merge_loop L R) = with_chips c L ++ with_chips c R.
Proof.
  unfold by_chips_desc, with_chips.
  induction L as [|x L IHL]; intros R HL; [by destruct R|].
  induction R as [|y R IHR]; [by rewrite merge_loop_nil_r, app_nil_r|].
  rewrite merge_loop_cons.
  apply StronglySorted_cons in HL as HL'. destruct HL' as [HxL HL'].
  case_decide as Hge.
  - rewrite !(filter_cons _ x), IHL by done. by case_decide.
  - rewrite (filter_cons _ y), IHR. rewrite (filter_cons _ y R).
    case_decide as Hc; [|done].
    assert (Hnone : filter (fun p => chips p = c) (x :: L) = []).
    { apply (with_chips_none c (x :: L)). rewrite Forall_forall in HxL.
      apply Forall_forall. intros z [->|Hz]%elem_of_cons; [lia|].
      specialize (HxL _ Hz). cbn in HxL. lia. }
    by rewrite Hnone.
Qed.

Lemma merge_loop_stable_sort seg1 seg2 L R :
  stable_sort_of seg1 L -> stable_sort_of seg2 R ->
  stable_sort_of (seg1 ++ seg2) (merge_loop L R).
Proof.
  intros (HpL & HsL & HfL) (HpR & HsR & HfR). split_and!.
  - by rewrite merge_loop_perm, HpL, HpR.
  - by apply merge_loop_sorted.
  - intros c. rewrite merge_loop_stable by done.
    unfold with_chips in *. by rewrite filter_app, HfL, HfR.
Qed.
(** *** The array operations *)

Lemma copy_range_middle pre seg post :
  copy_range (pre ++ seg ++ post) (Z.of_nat (length pre))
             (Z.of_nat (length seg)) = seg.
Proof.
  unfold copy_range. rewrite !Nat2Z.id.
  rewrite drop_app_length. by rewrite take_app_length.
Qed.

Lemma store_from_middle xs : forall pre seg post,
  length xs = length seg ->
  store_from (length pre) xs (pre ++ seg ++ post) = pre ++ xs ++ post.
Proof.
  induction xs as [|x xs IH]; intros pre seg post Hlen.
  - by destruct seg.
  - destruct seg as [|y seg]; [done|]. cbn [store_from].
    rewrite insert_app_r_alt by lia. rewrite Nat.sub_diag. cbn [app].
    change (<[0%nat := x]> (y :: seg ++ post)) with (x :: seg ++ post).
    replace (S (length pre)) with (length (pre ++ [x]))
      by (rewrite length_app; cbn; lia).
    replace (pre ++ x :: seg ++ post) with ((pre ++ [x]) ++ seg ++ post)
      by (by rewrite <- app_assoc).
    rewrite IH by (cbn in Hlen; lia). by rewrite <- app_assoc.
Qed.

(** [merge] on an array whose two halves are [L] and [R]. *)
Lemma merge_middle pre L R post lo mid hi :
  lo = Z.of_nat (length pre) ->
  mid = lo + Z.of_nat (length L) - 1 ->
  hi = mid + Z.of_nat (length R) ->
  merge (pre ++ L ++ R ++ post) lo mid hi = pre ++ merge_loop L R ++ post.
Proof.
  intros -> -> ->. unfold merge.
  replace (Z.of_nat (length pre) + Z.of_nat (length L) - 1
             - Z.of_nat (length pre) + 1) with (Z.of_nat (length L)) by lia.
  replace (Z.of_nat (length pre) + Z.of_nat (length L) - 1 + Z.of_nat (length R)
             - (Z.of_nat (length pre) + Z.of_nat (length L) - 1))
    with (Z.of_nat (length R)) by lia.
  replace (Z.of_nat (length pre) + Z.of_nat (length L) - 1 + 1)
    with (Z.of_nat (length (pre ++ L))) by (rewrite length_app; lia).
  rewrite (copy_range_middle pre L (R ++ post)).
  replace (pre ++ L ++ R ++ post) with ((pre ++ L) ++ R ++ post) at 1
    by (by rewrite <- app_assoc).
  rewrite (copy_range_middle (pre ++ L) R post).
  rewrite Nat2Z.id.
  replace (pre ++ L ++ R ++ post) with (pre ++ (L ++ R) ++ post)
    by (by rewrite <- app_assoc).
  apply store_from_middle.
  pose proof (Permutation_length (merge_loop_perm L R)) as Hlen. done.
Qed.

Lemma stable_sort_of_short seg : (length seg <= 1)%nat -> stable_sort_of seg seg.
Proof.
  intros Hlen. split_and!; [done| |done].
  destruct seg as [|x [|y seg]]; [repeat constructor..|cbn in Hlen; lia].
Qed.

(** [mergeSort] on the bounds of a segment of the array sorts that
    segment, stably, and leaves the rest of the array alone. *)
Lemma mergeSort_segment n : forall pre seg post lo hi,
  length seg = n ->
  lo = Z.of_nat (length pre) ->
  hi = lo + Z.of_nat (length seg) - 1 ->
  exists out,
    mergeSort (pre ++ seg ++ post) lo hi = pre ++ out ++ post /\
    stable_sort_of seg out.
Proof.
  induction n as [n IH] using lt_wf_ind.
  intros pre seg post lo hi Hn Hlo Hhi.
  rewrite mergeSort_eqn. case_decide as Hlt.
  - (* at least two elements: both halves are shorter *)
    set (mid := lo + (hi - lo) `quot` 2).
    assert (Hmid : lo <= mid < hi).
    { unfold mid. pose proof (Z.quot_pos (hi - lo) 2).
      pose proof (Z.quot_lt (hi - lo) 2). lia. }
    set (n1 := Z.to_nat (mid - lo + 1)).
    assert (Hsplit : seg = take n1 seg ++ drop n1 seg) by (by rewrite take_drop).
    assert (Hn1 : length (take n1 seg) = n1) by (rewrite length_take; lia).
    assert (Hn2 : length (drop n1 seg) = (n - n1)%nat) by (rewrite length_drop; lia).
    destruct (IH n1 ltac:(lia) pre (take n1 seg) (drop n1 seg ++ post) lo mid)
      as (out1 & Hrun1 & Hout1); [done|done|lia|].
    assert (Hlen1 : length out1 = n1).
    { destruct Hout1 as (Hp & _). by rewrite Hp. }
    destruct (IH (n - n1)%nat ltac:(lia) (pre ++ out1) (drop n1 seg) post
                 (mid + 1) hi)
      as (out2 & Hrun2 & Hout2); [done|rewrite length_app; lia|lia|].
    assert (Hlen2 : length out2 = (n - n1)%nat).
    { destruct Hout2 as (Hp & _). by rewrite Hp. }
    exists (merge_loop out1 out2). split.
    + rewrite Hsplit at 1. rewrite <- (app_assoc (take n1 seg)).
      rewrite Hrun1.
      replace (pre ++ out1 ++ drop n1 seg ++ post)
        with ((pre ++ out1) ++ drop n1 seg ++ post) by (by rewrite <- app_assoc).
      rewrite Hrun2. rewrite <- (app_assoc pre).
      apply merge_middle; lia.
    + rewrite Hsplit at 1. by apply merge_loop_stable_sort.
  - (* at most one element: nothing to do *)
    exists seg. split; [done|]. apply stable_sort_of_short. lia.
Qed.

(** Re-ranking in the game loop: [mergeSort(players, 0, numPlayers - 1)]
    sorts the first [numPlayers] slots, stably, and leaves the slots after
    them alone. *)
Lemma mergeSort_roster arr (numPlayers : nat) :
  (numPlayers <= length arr)%nat ->
  exists out,
    mergeSort arr 0 (Z.of_nat numPlayers - 1) = out ++ drop numPlayers arr /\
    stable_sort_of (take numPlayers arr) out.
Proof.
  intros Hn.
  destruct (mergeSort_segment numPlayers [] (take numPlayers arr)
              (drop numPlayers arr) 0 (Z.of_nat numPlayers - 1))
    as (out & Hrun & Hout); [rewrite length_take; lia|done|rewrite length_take; lia|].
  cbn [app] in Hrun. rewrite take_drop in Hrun. eauto.
Qed.
End merge_sort.

(** C8.  For every array of players, [mergeSort] over the whole array
    returns a permutation of it that is sorted by chip count in
    non-increasing order, and the sort is stable: for every chip count,
    the players holding it come out in the order they went in. *)
Theorem C8_mergeSort_stable (arr : list Player) :
  let out := mergeSort arr 0 (Z.of_nat (length arr) - 1) in
  out ≡ₚ arr /\ by_chips_desc out /\
  forall c, with_chips c out = with_chips c arr.
Proof.
  destruct (mergeSort_segment (length arr) [] arr [] 0 (Z.of_nat (length arr) - 1))
    as (out & Hrun & Hout); [done|done|lia|].
  cbn [app length] in Hrun. rewrite !app_nil_r in Hrun.
  cbv zeta. rewrite Hrun. exact Hout.
Qed.


(** ** Betting rounds *)

Section betting_round.
Implicit Types (p : Player) (rs : RoundState) (ev : Env) (t : Table).
Implicit Types (cc : list Card) (ci n : nat).

#[global] Instance carries_refl : Reflexive carries.
Proof. intros a. unfold carries. split_and!; [done|lia|lia]. Qed.

#[global] Instance carries_trans : Transitive carries.
Proof.
  intros a b c (Hab & ? & ?) (Hbc & ? & ?). unfold carries.
  split_and!; [by etrans|lia|lia].
Qed.

Lemma bot_action_carries action p rs p' rs' :
  0 <= chips p ->
  bot_action action p rs = (p', rs') -> carries rs rs'.
Proof.
  unfold bot_action, log, carries. intros Hc.
  repeat case_decide; intros [= <- <-]; cbn;
    (split_and!; [try done; by apply prefix_app_r|lia|lia]).
Qed.

Lemma human_action_carries input : forall p rs p' rs' rest,
  0 <= chips p ->
  human_action input p rs = Ok (p', rs', rest) -> carries rs rs'.
Proof.
  induction input as [|it input IH]; intros p rs p' rs' rest Hc; [done|].
  cbn [human_action]. unfold log, carries.
  repeat case_decide;
    try (intros [= <- <- <-]; cbn;
         split_and!; [try done; by apply prefix_app_r|lia|lia]);
    [|by apply IH].
  destruct (read_betAmount input) as [[entered rest']|] eqn:Hread; [|done].
  apply read_betAmount_pos in Hread as [_ Hpos].
  intros [= <- <- <-]. cbn.
  split_and!; [by apply prefix_app_r|..]; repeat case_decide; lia.
Qed.

Lemma takeAction_carries p rs cc n ev p' rs' ev' :
  0 <= chips p ->
  takeAction p rs cc n ev = Ok (p', rs', ev') -> carries rs rs'.
Proof.
  intros Hc
    [(_ & -> & -> & _)|[(_ & _ & action & _ & Hact)|(_ & _ & rest & Hact & _)]]
    %takeAction_inv.
  - reflexivity.
  - by eapply bot_action_carries.
  - by eapply human_action_carries.
Qed.

(** *** One turn of the queue *)

Lemma betting_turn_empty cc ci t :
  turnOrder t = [] -> betting_turn cc ci t = Ok t.
Proof. unfold betting_turn. by intros ->. Qed.

(** A dequeued player who is folded or out of chips takes no action and
    is not put back. *)
Lemma betting_turn_skip cc ci t idx q p :
  turnOrder t = idx :: q -> players t !! idx = Some p ->
  folded p = true \/ chips p <= 0 ->
  betting_turn cc ci t = Ok (mkTable (players t) (round t) q (env t)).
Proof.
  unfold betting_turn. intros -> -> Hskip.
  destruct Hskip as [->|Hc]; [done|].
  rewrite bool_decide_eq_false_2 by lia. by rewrite andb_false_r.
Qed.

(** A dequeued player who is in the hand with chips acts and goes to the
    back of the queue. *)
Lemma betting_turn_act cc ci t idx q p :
  turnOrder t = idx :: q -> players t !! idx = Some p ->
  folded p = false -> chips p > 0 ->
  betting_turn cc ci t =
    '(p', rs', ev') ← takeAction p (round t) cc ci (env t);
    Ok (mkTable (<[idx := p']> (players t)) rs' (q ++ [idx]) ev').
Proof.
  unfold betting_turn. intros -> -> -> Hc.
  by rewrite bool_decide_eq_true_2 by lia.
Qed.

Lemma betting_turn_inv cc ci t t' :
  betting_turn cc ci t = Ok t' ->
  (turnOrder t' = turnOrder t \/
   (exists idx q, turnOrder t = idx :: q /\
      (turnOrder t' = q \/ turnOrder t' = q ++ [idx]))) /\
  carries (round t) (round t').
Proof.
  unfold betting_turn. destruct (turnOrder t) as [|idx q] eqn:Hq.
  { intros [= <-]. split; [by left|reflexivity]. }
  destruct (players t !! idx) as [p|] eqn:Hp.
  - destruct (negb (folded p) && bool_decide (chips p > 0)) eqn:Hact.
    + intros H. inv_bind H. destruct a as [[p' rs'] ev'].
      injection H as <-. cbn. split; [right; eauto|].
      apply andb_true_iff in Hact as [_ Hc%bool_decide_eq_true].
      eapply takeAction_carries; [|done]. lia.
    + intros [= <-]. cbn. split; [right; eauto|reflexivity].
  - intros [= <-]. cbn. split; [right; eauto|reflexivity].
Qed.

(** *** A whole pass *)

Lemma bettingRound_S n cc ci t :
  bettingRound (S n) cc ci t =
    t' ← betting_turn cc ci t; bettingRound n cc ci t'.
Proof. reflexivity. Qed.

Lemma bettingRound_inv n cc ci : forall t t',
  bettingRound n cc ci t = Ok t' ->
  turnOrder t' ⊆+ turnOrder t /\ carries (round t) (round t').
Proof.
  induction n as [|n IH]; intros t t'.
  - intros [= <-]. split; reflexivity.
  - rewrite bettingRound_S. intros H. inv_bind H. rename a into t1.
    apply betting_turn_inv in Hrun as [Hq Hc].
    apply IH in H as [Hq' Hc']. split; [|by etrans].
    etrans; [exact Hq'|].
    destruct Hq as [->|(idx & q & -> & [->| ->])].
    + reflexivity.
    + by apply submseteq_cons.
    + by rewrite <- Permutation_cons_append.
Qed.

(** A turn keeps the size of the roster, and a queue of valid indices
    stays one: the lookup of a queued index does not fail. *)
Lemma betting_turn_roster cc ci t t' :
  betting_turn cc ci t = Ok t' -> length (players t') = length (players t).
Proof.
  unfold betting_turn. destruct (turnOrder t) as [|idx q]; [by intros [= <-]|].
  destruct (players t !! idx) as [p|]; [|by intros [= <-]].
  destruct (negb (folded p) && bool_decide (chips p > 0)); [|by intros [= <-]].
  intros H. inv_bind H. destruct a as [[p' rs'] ev'].
  injection H as <-. cbn. apply length_insert.
Qed.

Lemma bettingRound_roster n cc ci : forall t t',
  bettingRound n cc ci t = Ok t' ->
  length (players t') = length (players t) /\
  (Forall (fun i => (i < length (players t))%nat) (turnOrder t) ->
   Forall (fun i => (i < length (players t'))%nat) (turnOrder t')).
Proof.
  intros t t' H. assert (Hlen : length (players t') = length (players t)).
  { revert t t' H. induction n as [|n IH]; intros t t'; [by intros [= <-]|].
    rewrite bettingRound_S. intros H. inv_bind H.
    apply betting_turn_roster in Hrun. apply IH in H. congruence. }
  split; [done|]. rewrite Hlen.
  apply bettingRound_inv in H as [Hsub _].
  rewrite !Forall_forall. intros Hq i Hi. apply Hq.
  by eapply elem_of_submseteq.
Qed.

(** A betting round among automated players always completes. *)
Lemma betting_turn_bots cc ci t :
  Forall (fun p => is_bot p = true) (players t) ->
  exists t', betting_turn cc ci t = Ok t' /\
             Forall (fun p => is_bot p = true) (players t').
Proof.
  intros Hbots. unfold betting_turn.
  destruct (turnOrder t) as [|idx q]; [eauto|].
  destruct (players t !! idx) as [p|] eqn:Hp; [|eauto].
  destruct (negb (folded p) && bool_decide (chips p > 0)); [|eauto].
  assert (Hbot : is_bot p = true).
  { rewrite Forall_forall in Hbots. apply Hbots. by eapply list_elem_of_lookup_2. }
  destruct (takeAction_bot_total p (round t) cc ci (env t) Hbot)
    as (p' & rs' & ev' & Hrun).
  rewrite Hrun. cbn. eexists. split; [reflexivity|]. cbn.
  apply Forall_insert; [done|].
  unfold is_bot in *. by rewrite (takeAction_name _ _ _ _ _ _ _ _ Hrun).
Qed.

Lemma bettingRound_bots n cc ci : forall t,
  Forall (fun p => is_bot p = true) (players t) ->
  exists t', bettingRound n cc ci t = Ok t' /\
             Forall (fun p => is_bot p = true) (players t').
Proof.
  induction n as [|n IH]; intros t Hbots; [by exists t|].
  rewrite bettingRound_S.
  destruct (betting_turn_bots cc ci t Hbots) as (t1 & -> & Hbots1).
  cbn. by apply IH.
Qed.
End betting_round.

(** C3, as stated, fails: the folded "Bot 1" at the front of the queue of
    [folded_and_active] is dequeued and not re-enqueued, so a pass of two
    turns turns the queue [0; 1] into [1]. *)
Lemma C3_skipped_player_leaves_queue :
  betting_turn [] 0 folded_and_active =
    Ok (mkTable (players folded_and_active) (round folded_and_active)
                [1%nat] quiet_env) /\
  (exists t', bettingRound 2 [] 0 folded_and_active = Ok t' /\
              turnOrder t' = [1%nat]) /\
  ~ skipped_player_requeued /\
  ~ pass_keeps_queue.
Proof.
  split_and!.
  - reflexivity.
  - eexists. split; [vm_compute; reflexivity|reflexivity].
  - intros Hclaim.
    specialize (Hclaim [] 0%nat folded_and_active 0%nat [1%nat]
                  (set_folded true (new_Player "Bot 1"))
                  eq_refl eq_refl (or_introl eq_refl)).
    discriminate Hclaim.
  - intros Hclaim.
    specialize (Hclaim 2%nat [] 0%nat folded_and_active _ eq_refl).
    apply Permutation_length in Hclaim. vm_compute in Hclaim. discriminate.
Qed.

(** C3, amended.  In a betting-round pass, a dequeued index whose player is
    folded or has no chips takes no action and is dropped from the Turn
    Queue; a dequeued index whose player is in the hand with chips is
    re-enqueued at the back once the player has acted; so a pass never
    adds an index: the multiset of queued indices after a pass is included
    in the one before it. *)
Theorem C3_turn_queue :
  (forall cc ci t idx q p,
     turnOrder t = idx :: q -> players t !! idx = Some p ->
     folded p = true \/ chips p <= 0 ->
     betting_turn cc ci t = Ok (mkTable (players t) (round t) q (env t))) /\
  (forall cc ci t idx q p t',
     turnOrder t = idx :: q -> players t !! idx = Some p ->
     folded p = false -> chips p > 0 ->
     betting_turn cc ci t = Ok t' ->
     turnOrder t' = q ++ [idx]) /\
  (forall n cc ci t t',
     bettingRound n cc ci t = Ok t' -> turnOrder t' ⊆+ turnOrder t).
Proof.
  split_and!.
  - apply betting_turn_skip.
  - intros cc ci t idx q p t' Hq Hp Hf Hc.
    rewrite (betting_turn_act _ _ _ _ _ _ Hq Hp Hf Hc).
    intros H. inv_bind H. destruct a as [[p' rs'] ev']. by injection H as <-.
  - intros n cc ci t t' H. by apply bettingRound_inv in H as [? _].
Qed.

(** The folded "Bot 1" at the front of the queue is dropped. *)
Lemma C3_turn_queue_witness :
  betting_turn [] 0 folded_and_active =
    Ok (mkTable (players folded_and_active) (round folded_and_active)
                [1%nat] (env folded_and_active)).
Proof.
  apply (proj1 C3_turn_queue [] 0%nat folded_and_active 0%nat [1%nat]
           (set_folded true (new_Player "Bot 1")));
    [reflexivity|reflexivity|by left].
Defined.

(** ** A hand *)

Section hand.
Implicit Types (g : Game) (t : Table) (d : Deck).

Lemma deal_hand_round g t0 d0 :
  deal_hand g = Ok (t0, d0) ->
  round t0 = round (table g) /\ turnOrder t0 = turnOrder (table g).
Proof.
  unfold deal_hand. destruct (next_shuffle (env (table g))) as [draw ev].
  intros H. inv_bind H. destruct a as [ps d]. by injection H as <- <-.
Qed.


End hand.




(** ** [takeAction] on machine integers *)

Section machine_integers.
Implicit Types (p : Player) (rs : RoundState) (z : Z).

Lemma wrap_in_int z : in_int z -> wrap z = z.
Proof.
  unfold in_int, wrap, INT_MIN, INT_MAX. intros H.
  rewrite Z.mod_small by lia. lia.
Qed.

Lemma wrap_range z : in_int (wrap z).
Proof.
  unfold in_int, wrap, INT_MIN, INT_MAX.
  pose proof (Z.mod_pos_bound (z - -2147483648) (2 ^ 32) ltac:(lia)). lia.
Qed.

Lemma int_add_exact x y : in_int (x + y) -> int_add x y = x + y.
Proof. apply wrap_in_int. Qed.

Lemma int_sub_exact x y : in_int (x - y) -> int_sub x y = x - y.
Proof. apply wrap_in_int. Qed.

(** While the chips and the pot together fit an [int] and the bet leaves
    room for a bluff, no operation of a turn leaves the range, and the turn
    on machine integers is the turn computed exactly. *)
Lemma bot_action_int_exact action p rs :
  0 <= chips p -> 0 <= pot rs -> 0 <= currentBet rs ->
  chips p + pot rs <= INT_MAX -> currentBet rs + 20 <= INT_MAX ->
  bot_action_int action p rs = bot_action action p rs.
Proof.
  intros Hc Hp Hb Hsum Hbet. unfold bot_action_int, bot_action.
  rewrite (int_add_exact (currentBet rs) 20)
    by (unfold in_int, INT_MIN, INT_MAX in *; lia).
  repeat case_decide; try reflexivity;
    rewrite int_sub_exact, int_add_exact
      by (unfold in_int, INT_MIN, INT_MAX in *; lia);
    reflexivity.
Qed.

Lemma human_action_int_exact input : forall p rs,
  0 <= chips p -> 0 <= pot rs -> 0 <= currentBet rs ->
  chips p + pot rs <= INT_MAX ->
  human_action_int input p rs = human_action input p rs.
Proof.
  induction input as [|it input IH]; intros p rs Hc Hp Hb Hsum; [done|].
  cbn [human_action_int human_action].
  repeat case_decide; try reflexivity; [| |by apply IH].
  - destruct (read_betAmount input) as [[entered rest']|] eqn:Hread; [|done].
    apply read_betAmount_pos in Hread.
    case_decide;
      rewrite int_sub_exact, int_add_exact
        by (unfold in_int, INT_MIN, INT_MAX in *; lia);
      reflexivity.
  - rewrite int_sub_exact, int_add_exact
      by (unfold in_int, INT_MIN, INT_MAX in *; lia).
    reflexivity.
Qed.

Lemma takeAction_int_exact p rs cc n ev :
  0 <= chips p -> 0 <= pot rs -> 0 <= currentBet rs ->
  chips p + pot rs <= INT_MAX -> currentBet rs + 20 <= INT_MAX ->
  takeAction_int p rs cc n ev = takeAction p rs cc n ev.
Proof.
  intros Hc Hp Hb Hsum Hbet. unfold takeAction_int, takeAction.
  destruct (folded p); [done|]. destruct (is_bot p).
  - destruct (choose_action p cc n ev) as [action ev1].
    by rewrite bot_action_int_exact.
  - by rewrite human_action_int_exact.
Qed.
End machine_integers.

Section turn_on_ints.
Implicit Types (p : Player) (rs : RoundState).

(** Two log lines of one player differ when they differ after the name,
    and a history with a line appended is not the history. *)
Lemma log_line_inv (hist : list string) (nm a b : string) :
  hist ++ [nm +:+ a] = hist ++ [nm +:+ b] -> a = b.
Proof.
  intros H%app_inv_head. injection H as H. by apply (inj (String.append nm)) in H.
Qed.

Lemma log_grows (hist : list string) (line : string) : hist ++ [line] <> hist.
Proof.
  intros H%(f_equal length). rewrite length_app in H. cbn in H. lia.
Qed.

Lemma bot_action_int_no_wager action p rs p' rs' :
  bot_action_int action p rs = (p', rs') -> no_wager p rs rs' ->
  chips p' = chips p /\ pot rs' = pot rs.
Proof.
  unfold bot_action_int, log, no_wager.
  destruct p as [nm h c f gw hp hw], rs as [pt cb hist]. cbn.
  repeat case_decide; intros [= <- <-]; cbn; try done;
    intros [Hlog|[Hlog|Hlog]];
    first [ by apply log_grows in Hlog
          | apply log_line_inv in Hlog; discriminate Hlog ].
Qed.

Lemma human_action_int_no_wager input : forall p rs p' rs' rest,
  human_action_int input p rs = Ok (p', rs', rest) -> no_wager p rs rs' ->
  chips p' = chips p /\ pot rs' = pot rs.
Proof.
  induction input as [|it input IH]; intros p rs p' rs' rest; [done|].
  cbn [human_action_int]. unfold log, no_wager.
  destruct p as [nm h c f gw hp hw], rs as [pt cb hist].
  cbn [name hand chips folded gamesWon handsPlayed handsWon pot currentBet
       actionHistory set_chips set_folded].
  repeat case_decide; try (intros [= <- <- <-]; cbn; try done;
    intros [Hlog|[Hlog|Hlog]];
    first [ by apply log_grows in Hlog
          | apply log_line_inv in Hlog; discriminate Hlog ]); [|apply IH].
  destruct (read_betAmount input) as [[entered rest']|]; [|done].
  intros [= <- <- <-]. cbn.
  intros [Hlog|[Hlog|Hlog]];
    first [ by apply log_grows in Hlog
          | apply log_line_inv in Hlog; discriminate Hlog ].
Qed.

Lemma takeAction_int_no_wager p rs cc n ev p' rs' ev' :
  takeAction_int p rs cc n ev = Ok (p', rs', ev') -> no_wager p rs rs' ->
  chips p' = chips p /\ pot rs' = pot rs.
Proof.
  unfold takeAction_int. destruct (folded p); [by intros [= <- <- <-]|].
  destruct (is_bot p).
  - destruct (choose_action p cc n ev) as [action ev1].
    destruct (bot_action_int action p rs) as [p1 rs1] eqn:Hact.
    intros [= <- <- <-]. by apply (bot_action_int_no_wager action).
  - intros H. inv_bind H. destruct a as [[p1 rs1] rest].
    injection H as <- <- <-. by apply (human_action_int_no_wager (cin ev) _ _ _ _ rest).
Qed.

(** In range, a turn on machine integers moves chips as the exact turn
    does: out of the player's chips into the pot, never back. *)
Lemma takeAction_int_moves p rs cc n ev p' rs' ev' :
  0 <= chips p -> 0 <= pot rs -> 0 <= currentBet rs ->
  chips p + pot rs <= INT_MAX -> currentBet rs + 20 <= INT_MAX ->
  takeAction_int p rs cc n ev = Ok (p', rs', ev') ->
  chips p' + pot rs' = chips p + pot rs /\
  0 <= chips p' /\ pot rs <= pot rs' /\ 0 <= currentBet rs'.
Proof.
  intros Hc Hp Hb Hsum Hbet Hrun.
  rewrite takeAction_int_exact in Hrun by done.
  pose proof (takeAction_conserves _ _ _ _ _ _ _ _ Hrun) as Hcons.
  pose proof (takeAction_bounds _ _ _ _ _ _ _ _ Hc Hp Hb Hrun) as Hbounds.
  destruct (takeAction_carries _ _ _ _ _ _ _ _ Hc Hrun) as (_ & _ & Hpot).
  specialize (Hpot Hb). lia.
Qed.
End turn_on_ints.

(** *** Conservation of chips *)

(** C10, as stated, fails on machine integers: "Bot 1", with 50 chips and a
    pot of [INT_MAX], raises to 50; the player's chips fall by 50 to zero
    and the pot overflows to [INT_MIN + 49], so the pot has not gained what
    the chips lost and their sum is not what it was. *)
Lemma C10_overflow_breaks_conservation :
  takeAction_int bot_50 (mkRound INT_MAX 0 []) [] 0 quiet_env =
    Ok (set_chips 0 bot_50,
        mkRound (INT_MIN + 49) 50 ["Bot 1 raises to 50 chips."],
        snd (rand quiet_env)) /\
  ~ turn_conserves_chips.
Proof.
  assert (Hrun : takeAction_int bot_50 (mkRound INT_MAX 0 []) [] 0 quiet_env =
    Ok (set_chips 0 bot_50,
        mkRound (INT_MIN + 49) 50 ["Bot 1 raises to 50 chips."],
        snd (rand quiet_env))) by (vm_compute; reflexivity).
  split; [exact Hrun|].
  intros Hclaim.
  destruct (Hclaim bot_50 (mkRound INT_MAX 0 []) [] 0%nat quiet_env
              (set_chips 0 bot_50)
              (mkRound (INT_MIN + 49) 50 ["Bot 1 raises to 50 chips."])
              (snd (rand quiet_env))) as [_ Hsum];
    [by vm_compute..|exact Hrun|].
  vm_compute in Hsum. discriminate Hsum.
Qed.

(** C10, amended.  A call of [takeAction] that ends as a check or a fold,
    or that logs nothing, leaves the acting player's chips and the pot as
    they were.  And when chips, pot and bet are non-negative, the chips and
    the pot together fit an [int] and the bet leaves room for a bluff, any
    call that completes moves chips from the player to the pot only: the
    pot grows by exactly what the player's chips shrink by, which is not
    negative, so that their sum is unchanged. *)
Theorem C10_chips_conserved (p : Player) (rs : RoundState)
    (communityCards : list Card) (communitySize : nat) (ev : Env)
    (p' : Player) (rs' : RoundState) (ev' : Env) :
  takeAction_int p rs communityCards communitySize ev = Ok (p', rs', ev') ->
  (no_wager p rs rs' -> chips p' = chips p /\ pot rs' = pot rs) /\
  (0 <= chips p -> 0 <= pot rs -> 0 <= currentBet rs ->
   chips p + pot rs <= INT_MAX -> currentBet rs + 20 <= INT_MAX ->
   pot rs' - pot rs = chips p - chips p' /\
   0 <= pot rs' - pot rs /\
   chips p' + pot rs' = chips p + pot rs).
Proof.
  intros Hrun. split.
  - by apply (takeAction_int_no_wager p rs communityCards communitySize ev p' rs' ev').
  - intros Hc Hp Hb Hsum Hbet.
    destruct (takeAction_int_moves _ _ _ _ _ _ _ _ Hc Hp Hb Hsum Hbet Hrun)
      as (Hcons & _ & Hup & _).
    lia.
Qed.

(** "Bot 1" with 1000 chips opens with a raise to 50. *)
Lemma C10_chips_conserved_witness :
  takeAction_int bot_1 (mkRound 0 0 []) [] 0 quiet_env =
    Ok (set_chips 950 bot_1, mkRound 50 50 ["Bot 1 raises to 50 chips."],
        snd (rand quiet_env)) /\
  50 - 0 = chips bot_1 - chips (set_chips 950 bot_1) /\
  chips (set_chips 950 bot_1) + 50 = chips bot_1 + 0.
Proof.
  assert (H : takeAction_int bot_1 (mkRound 0 0 []) [] 0 quiet_env =
    Ok (set_chips 950 bot_1, mkRound 50 50 ["Bot 1 raises to 50 chips."],
        snd (rand quiet_env))) by (vm_compute; reflexivity).
  split; [exact H|].
  destruct (proj2 (C10_chips_conserved bot_1 (mkRound 0 0 []) [] 0%nat quiet_env
                     (set_chips 950 bot_1)
                     (mkRound 50 50 ["Bot 1 raises to 50 chips."])
                     (snd (rand quiet_env)) H))
    as (Hmove & _ & Hsum); [cbn; lia..| | |].
  - vm_compute. discriminate.
  - vm_compute. discriminate.
  - split; [exact Hmove|exact Hsum].
Defined.

(** *** Non-negative chips, pot and bet *)

(** C7, as stated, fails on machine integers, in two ways.  "Bot 1", with 50
    chips and a pot of [INT_MAX], raises to 50 and the pot overflows to a
    negative value.  And "Bot 1", with 100 chips against a bet of
    [INT_MAX], draws the bluff: [currentBet + 20] overflows, the test
    [chips >= currentBet + 20] passes, and the bet becomes negative. *)
Lemma C7_overflow_goes_negative :
  (exists p' rs' ev',
     takeAction_int bot_50 (mkRound INT_MAX 0 []) [] 0 quiet_env =
       Ok (p', rs', ev') /\ pot rs' < 0) /\
  (exists p' rs' ev',
     takeAction_int bot_100 (mkRound 0 INT_MAX []) [] 0 env_rand_3 =
       Ok (p', rs', ev') /\ currentBet rs' < 0) /\
  ~ turn_keeps_nonnegative.
Proof.
  assert (Hrun : takeAction_int bot_50 (mkRound INT_MAX 0 []) [] 0 quiet_env =
    Ok (set_chips 0 bot_50,
        mkRound (INT_MIN + 49) 50 ["Bot 1 raises to 50 chips."],
        snd (rand quiet_env))) by (vm_compute; reflexivity).
  assert (Hbluff : takeAction_int bot_100 (mkRound 0 INT_MAX []) [] 0 env_rand_3 =
    Ok (set_chips 80 bot_100,
        mkRound 20 (INT_MIN + 19) ["Bot 1 bluffs with 20 chips."],
        snd (rand env_rand_3))) by (vm_compute; reflexivity).
  split_and!.
  - do 3 eexists. split; [exact Hrun|]. by vm_compute.
  - do 3 eexists. split; [exact Hbluff|]. by vm_compute.
  - intros Hclaim.
    destruct (Hclaim bot_50 (mkRound INT_MAX 0 []) [] 0%nat quiet_env
                (set_chips 0 bot_50)
                (mkRound (INT_MIN + 49) 50 ["Bot 1 raises to 50 chips."])
                (snd (rand quiet_env))) as (_ & Hpot & _);
      [by vm_compute..|exact Hrun|].
    vm_compute in Hpot. by apply Hpot.
Qed.

(** C7, amended.  When the acting player's chips, the pot and the current
    bet are non-negative before a call of [takeAction], the chips and the
    pot together fit an [int], and the bet leaves room for a bluff, then
    after the call, whichever action is taken (bet or raise, call, check,
    fold, bluff, or none for a folded player), the chips, the pot and the
    current bet are non-negative [int] values again; the chips and the pot
    still fit an [int] together. *)
Theorem C7_nonnegative_preserved (p : Player) (rs : RoundState)
    (communityCards : list Card) (communitySize : nat) (ev : Env)
    (p' : Player) (rs' : RoundState) (ev' : Env) :
  0 <= chips p -> 0 <= pot rs -> 0 <= currentBet rs ->
  chips p + pot rs <= INT_MAX -> currentBet rs + 20 <= INT_MAX ->
  takeAction_int p rs communityCards communitySize ev = Ok (p', rs', ev') ->
  0 <= chips p' <= INT_MAX /\ 0 <= pot rs' <= INT_MAX /\
  0 <= currentBet rs' <= INT_MAX /\
  chips p' + pot rs' <= INT_MAX.
Proof.
  intros Hc Hp Hb Hsum Hbet Hrun.
  destruct (takeAction_int_moves _ _ _ _ _ _ _ _ Hc Hp Hb Hsum Hbet Hrun)
    as (Hcons & Hc' & Hup & Hb').
  rewrite takeAction_int_exact in Hrun by done.
  pose proof (takeAction_bounds _ _ _ _ _ _ _ _ Hc Hp Hb Hrun) as (_ & _ & Hbet').
  lia.
Qed.

(** Ann, with 30 chips, enters a bet of 80 against a bet of 40 and goes all
    in. *)
Lemma C7_nonnegative_preserved_witness :
  takeAction_int ann_30 (mkRound 100 40 []) [] 0 ann_bets_80 =
    Ok (set_chips 0 ann_30, mkRound 130 40 ["Ann bets 30 chips."],
        set_cin [] ann_bets_80) /\
  0 <= chips (set_chips 0 ann_30) /\ 0 <= 130 /\ 0 <= 40.
Proof.
  assert (H : takeAction_int ann_30 (mkRound 100 40 []) [] 0 ann_bets_80 =
    Ok (set_chips 0 ann_30, mkRound 130 40 ["Ann bets 30 chips."],
        set_cin [] ann_bets_80)) by (vm_compute; reflexivity).
  split; [exact H|].
  destruct (C7_nonnegative_preserved ann_30 (mkRound 100 40 []) [] 0%nat
              ann_bets_80 (set_chips 0 ann_30)
              (mkRound 130 40 ["Ann bets 30 chips."]) (set_cin [] ann_bets_80))
    as ([Hc _] & [Hp _] & [Hb _] & _);
    [cbn; lia..| | |exact H|].
  - vm_compute. discriminate.
  - vm_compute. discriminate.
  - cbn in Hp, Hb. split_and!; [exact Hc|exact Hp|exact Hb].
Defined.

(** * Further properties of the code *)

(** ** Dealing through the deck *)

Section dealing.
Implicit Types d : Deck.

Lemma new_Deck_NoDup : NoDup (cards new_Deck).
Proof. apply (bool_decide_unpack (NoDup (cards new_Deck))). vm_compute. exact I. Qed.

(** From a cursor in range, [n] deals hand out the [n] deck positions from
    the cursor on. *)
Lemma deal_n_take n d :
  deck_wf d -> topCardIndex d + Z.of_nat n <= MAX_CARDS ->
  deal_n n d =
    Ok (take n (drop (Z.to_nat (topCardIndex d)) (cards d)),
        mkDeck (cards d) (topCardIndex d + Z.of_nat n)).
Proof.
  intros [Hlen Hcur] Hroom. unfold MAX_CARDS in *.
  rewrite deal_n_room by (unfold MAX_CARDS; lia). do 2 f_equal.
  apply list_eq. intros i. rewrite list_lookup_fmap.
  destruct (decide (i < n)%nat) as [Hi|Hi].
  - rewrite lookup_seq_lt by done. cbn.
    rewrite lookup_take_lt by done. rewrite lookup_drop.
    destruct (lookup_lt_is_Some_2 (cards d) (Z.to_nat (topCardIndex d) + i))
      as [c Hc]; [lia|].
    rewrite Hc. f_equal. by apply list_lookup_total_correct.
  - rewrite lookup_seq_ge by lia. cbn. symmetry.
    apply lookup_ge_None. rewrite length_take. lia.
Qed.

Lemma deal_n_inv n : forall d cs d',
  deal_n n d = Ok (cs, d') ->
  topCardIndex d + Z.of_nat n <= Z.max (topCardIndex d) MAX_CARDS.
Proof.
  induction n as [|n IH]; intros d cs d' H; [lia|].
  rewrite deal_n_S in H. inv_bind H. destruct a as [c d1].
  inv_bind H. destruct a as [cs1 d2].
  unfold dealCard in Hrun. case_decide; [|discriminate].
  injection Hrun as _ <-. apply IH in Hrun0. cbn in Hrun0. lia.
Qed.
Lemma deal_n_all d :
  deck_wf d -> topCardIndex d = 0 ->
  deal_n 52 d = Ok (cards d, mkDeck (cards d) 52).
Proof.
  intros Hwf H0. rewrite (deal_n_take 52 d Hwf) by (rewrite H0; unfold MAX_CARDS; lia).
  rewrite H0. change (Z.to_nat 0) with 0%nat. rewrite drop_0.
  destruct Hwf as [Hlen _]. rewrite take_ge; [done|]. rewrite Hlen. lia.
Qed.
End dealing.

(** X1.  Whatever the shuffle draws, the 52 deals that follow a shuffle of
    the deck as constructed all succeed and hand out 52 distinct cards,
    which are exactly the 52 pairs of a rank and a suit. *)
Theorem X1_shuffled_deck_deals_every_card (draw : nat -> nat) :
  exists cs d',
    deal_n 52 (shuffle draw new_Deck) = Ok (cs, d') /\
    NoDup cs /\
    cs ≡ₚ (s ← suits; r ← ranks; [mkCard r s]).
Proof.
  pose proof (shuffle_wf draw new_Deck new_Deck_wf) as Hwf.
  pose proof (shuffle_perm draw new_Deck) as Hperm.
  exists (cards (shuffle draw new_Deck)), (mkDeck (cards (shuffle draw new_Deck)) 52).
  split_and!.
  - by apply deal_n_all.
  - rewrite Hperm. apply new_Deck_NoDup.
  - exact Hperm.
Qed.

(** X2.  A shuffle does not rewind the cursor: on a deck that satisfies
    the class invariant, after any shuffle exactly as many deals succeed
    as cards were left before it, and the next deal fails with the
    exhausted-deck error. *)
Theorem X2_shuffle_keeps_cursor (d : Deck) (draw : nat -> nat) :
  deck_wf d ->
  topCardIndex (shuffle draw d) = topCardIndex d /\
  cards (shuffle draw d) ≡ₚ cards d /\
  (exists cs,
     deal_n (Z.to_nat (52 - topCardIndex d)) (shuffle draw d) =
       Ok (cs, mkDeck (cards (shuffle draw d)) 52)) /\
  deal_n (S (Z.to_nat (52 - topCardIndex d))) (shuffle draw d) =
    Throw ExhaustedDeck.
Proof.
  intros Hwf. pose proof (shuffle_wf draw d Hwf) as Hwf'.
  destruct Hwf as [_ Hcur]. unfold MAX_CARDS in Hcur.
  assert (Hall : deal_n (Z.to_nat (52 - topCardIndex d)) (shuffle draw d) =
            Ok (take (Z.to_nat (52 - topCardIndex d))
                     (drop (Z.to_nat (topCardIndex d)) (cards (shuffle draw d))),
                mkDeck (cards (shuffle draw d)) 52)).
  { rewrite (deal_n_take _ _ Hwf') by (cbn; unfold MAX_CARDS; lia).
    cbn [topCardIndex shuffle]. do 3 f_equal. lia. }
  split_and!; [done|apply shuffle_perm|eauto|].
  rewrite deal_n_snoc, Hall. reflexivity.
Qed.

(** The deck as constructed, after three deals. *)
Lemma X2_shuffle_keeps_cursor_witness :
  deal_n 50 (shuffle (fun _ => 0%nat) (mkDeck (cards new_Deck) 3)) =
    Throw ExhaustedDeck.
Proof.
  apply (X2_shuffle_keeps_cursor (mkDeck (cards new_Deck) 3) (fun _ => 0%nat)).
  split; [reflexivity|cbn; unfold MAX_CARDS; lia].
Defined.

(** X3.  On a deck of distinct cards that satisfies the class invariant,
    any run of successful deals hands out the consecutive deck positions
    from the cursor on, so no card twice, and leaves the cursor advanced by
    the number of deals and the card order untouched. *)
Theorem X3_deals_are_distinct (d : Deck) (n : nat) (cs : list Card) (d' : Deck) :
  deck_wf d -> NoDup (cards d) ->
  deal_n n d = Ok (cs, d') ->
  cs = take n (drop (Z.to_nat (topCardIndex d)) (cards d)) /\
  length cs = n /\ NoDup cs /\
  d' = mkDeck (cards d) (topCardIndex d + Z.of_nat n).
Proof.
  intros Hwf Hnd Hrun.
  pose proof (deal_n_inv _ _ _ _ Hrun) as Hroom.
  destruct Hwf as [Hlen Hcur]. unfold MAX_CARDS in *.
  rewrite deal_n_take in Hrun by (try split; unfold MAX_CARDS; lia).
  injection Hrun as <- <-. split_and!.
  - reflexivity.
  - rewrite length_take, length_drop. lia.
  - eapply sublist_NoDup; [exact Hnd|].
    etrans; [apply sublist_take|apply sublist_drop].
  - reflexivity.
Qed.

Lemma X3_deals_are_distinct_witness :
  exists cs d', deal_n 17 new_Deck = Ok (cs, d') /\ NoDup cs.
Proof.
  destruct (deal_n 17 new_Deck) as [[cs d']| |] eqn:H;
    [|vm_compute in H; discriminate H..].
  exists cs, d'. split; [reflexivity|].
  apply (X3_deals_are_distinct new_Deck 17 cs d' new_Deck_wf new_Deck_NoDup H).
Defined.

(** ** More on the hand score *)

Section score_facts.
Implicit Types (rs : list string) (r : string).

Lemma occurrences_perm r rs1 rs2 :
  rs1 ≡ₚ rs2 -> occurrences r rs1 = occurrences r rs2.
Proof. unfold occurrences. by intros ->. Qed.

Lemma points_of_ranks_perm rs1 rs2 :
  rs1 ≡ₚ rs2 -> points_of_ranks rs1 = points_of_ranks rs2.
Proof.
  intros Hperm. unfold points_of_ranks.
  transitivity
    (sum_Z ((fun r => rank_points (occurrences r rs1)) <$> remove_dups rs2)).
  - apply sum_Z_perm, fmap_Permutation, NoDup_Permutation;
      [apply NoDup_remove_dups..|].
    intros r. by rewrite !elem_of_remove_dups, Hperm.
  - f_equal. apply list_fmap_ext. intros _ r _.
    by rewrite (occurrences_perm r _ _ Hperm).
Qed.
Lemma rank_points_small (n : nat) : (n <= 1)%nat -> rank_points n = 0.
Proof. intros Hn. by destruct n as [|[|?]]; [..|lia]. Qed.

Lemma points_no_repeat rs : NoDup rs -> points_of_ranks rs = 0.
Proof.
  intros Hnd. apply sum_Z_zero. intros r _.
  by apply rank_points_small, NoDup_occurrences.
Qed.

Lemma points_one_repeat rs r :
  (2 <= occurrences r rs)%nat ->
  (forall r', r' ≠ r -> (occurrences r' rs <= 1)%nat) ->
  points_of_ranks rs = rank_points (occurrences r rs).
Proof.
  intros Hr Hothers. unfold points_of_ranks.
  apply (sum_Z_one (fun r => rank_points (occurrences r rs))).
  - apply NoDup_remove_dups.
  - apply elem_of_remove_dups, occurrences_pos. lia.
  - intros r' _ Hne. by apply rank_points_small, Hothers.
Qed.
End score_facts.

(** X4.  The hand score does not depend on the order of the cards nor on
    their suits: two hands whose hole cards and visible community cards
    carry the same ranks, in any order, score the same; in particular the
    visible community cards may be permuted and the hole cards swapped. *)
Theorem X4_score_ignores_order (h1 h2 : Card * Card) (cc1 cc2 : list Card)
    (n1 n2 : nat) :
  (tallied_ranks h1 cc1 n1 ≡ₚ tallied_ranks h2 cc2 n2 ->
   handStrength h1 cc1 n1 = handStrength h2 cc2 n2) /\
  (take n1 cc1 ≡ₚ take n2 cc2 ->
   handStrength h1 cc1 n1 = handStrength (snd h1, fst h1) cc2 n2).
Proof.
  assert (Hgen : tallied_ranks h1 cc1 n1 ≡ₚ tallied_ranks h2 cc2 n2 ->
                 handStrength h1 cc1 n1 = handStrength h2 cc2 n2).
  { intros Hperm. rewrite !handStrength_points. by apply points_of_ranks_perm. }
  split; [exact Hgen|].
  intros Hperm. rewrite !handStrength_points. apply points_of_ranks_perm.
  unfold tallied_ranks. cbn [fst snd]. rewrite Hperm.
  apply Permutation_app_head, Permutation_swap.
Qed.

(** A pair of kings with three sevens on the board, dealt in two orders. *)
Lemma X4_score_ignores_order_witness :
  handStrength (mkCard "King" "Hearts", mkCard "7" "Spades")
    [mkCard "7" "Clubs"; mkCard "King" "Clubs"; mkCard "7" "Hearts"] 3 =
  handStrength (mkCard "7" "Spades", mkCard "King" "Hearts")
    [mkCard "King" "Clubs"; mkCard "7" "Hearts"; mkCard "7" "Clubs"] 3.
Proof.
  apply (proj2 (X4_score_ignores_order
                  (mkCard "King" "Hearts", mkCard "7" "Spades")
                  (mkCard "7" "Spades", mkCard "King" "Hearts")
                  [mkCard "7" "Clubs"; mkCard "King" "Clubs"; mkCard "7" "Hearts"]
                  [mkCard "King" "Clubs"; mkCard "7" "Hearts"; mkCard "7" "Clubs"]
                  3 3)).
  exact (Permutation_cons_append
           [mkCard "King" "Clubs"; mkCard "7" "Hearts"] (mkCard "7" "Clubs")).
Defined.

(** X5.  With no community card visible the score is 2 for two hole cards
    of one rank and 0 otherwise; so before the flop an automated player
    that is not folded never takes the strong-hand branch: its action is
    the next [rand()] value modulo 4, and one random number is used. *)
Theorem X5_preflop_score (p : Player) (communityCards : list Card) (ev : Env) :
  evaluateHandStrength p communityCards 0 =
    (if decide (rank (fst (hand p)) = rank (snd (hand p))) then 2 else 0) /\
  choose_action p communityCards 0 ev =
    (Z.rem (Z.of_nat (rng ev (rng_calls ev))) 4,
     mkEnv (rng ev) (S (rng_calls ev)) (cin ev) (entropy ev) (shuffles ev)).
Proof.
  assert (Hscore : evaluateHandStrength p communityCards 0 =
    (if decide (rank (fst (hand p)) = rank (snd (hand p))) then 2 else 0)).
  { unfold evaluateHandStrength. rewrite handStrength_points.
    unfold tallied_ranks. rewrite take_0. cbn [fmap list_fmap app].
    set (a := rank (hand p).1). set (b := rank (hand p).2).
    destruct (decide (a = b)) as [Hab|Hab].
    - rewrite Hab. rewrite (points_one_repeat _ b).
      + rewrite !occurrences_cons, !decide_True by done. reflexivity.
      + rewrite !occurrences_cons, !decide_True by done. cbn. lia.
      + intros r' Hne. rewrite !occurrences_cons, !decide_False by done.
        cbn. lia.
    - apply points_no_repeat. apply NoDup_cons. split.
      + by rewrite list_elem_of_singleton.
      + apply NoDup_singleton. }
  split; [exact Hscore|].
  unfold choose_action. rewrite Hscore.
  rewrite decide_False by (case_decide; lia). reflexivity.
Qed.

(** ** More on a turn *)

Section turn_facts.
Implicit Types (p : Player) (rs : RoundState) (ev : Env).
Implicit Types (it : entry) (input junk rest : list entry).

Lemma read_betAmount_suffix input : forall n rest,
  read_betAmount input = Some (n, rest) -> rest `suffix_of` input.
Proof.
  induction input as [|[w|m] input IH]; intros n rest; cbn; [done| |].
  - intros Hr. by apply suffix_cons_r, (IH n).
  - case_decide.
    + intros [= _ <-]. by apply suffix_cons_r.
    + intros Hr. by apply suffix_cons_r, (IH n).
Qed.

Lemma human_action_suffix input : forall p rs p' rs' rest,
  human_action input p rs = Ok (p', rs', rest) -> rest `suffix_of` input.
Proof.
  induction input as [|it input IH]; intros p rs p' rs' rest; [done|].
  cbn [human_action].
  repeat case_decide;
    try (intros [= _ _ <-]; by apply suffix_cons_r);
    [|intros Hr; by apply suffix_cons_r, (IH p rs p' rs')].
  destruct (read_betAmount input) as [[entered rest']|] eqn:Hread; [|done].
  intros [= _ _ <-]. by apply suffix_cons_r, (read_betAmount_suffix _ entered).
Qed.

Lemma bot_action_effect action p rs p' rs' :
  bot_action action p rs = (p', rs') ->
  same_but_chips_and_fold p p' /\ logs_at_most_one_line p rs rs' /\
  (actionHistory rs' = actionHistory rs -> p' = p /\ rs' = rs).
Proof.
  unfold bot_action, log, same_but_chips_and_fold, logs_at_most_one_line.
  destruct p as [nm h c f gw hp hw], rs as [pt cb hist]. cbn.
  repeat case_decide; intros [= <- <-]; cbn;
    (split_and!;
     [reflexivity
     |first [by left | right; eexists; reflexivity]
     |intros Heq; first [done | apply (f_equal length) in Heq;
                                rewrite length_app in Heq; cbn in Heq; lia]]).
Qed.

Lemma human_action_effect input : forall p rs p' rs' rest,
  human_action input p rs = Ok (p', rs', rest) ->
  same_but_chips_and_fold p p' /\ logs_at_most_one_line p rs rs' /\
  (actionHistory rs' = actionHistory rs -> p' = p /\ rs' = rs).
Proof.
  induction input as [|it input IH]; intros p rs p' rs' rest; [done|].
  cbn [human_action].
  unfold log, same_but_chips_and_fold, logs_at_most_one_line.
  destruct p as [nm h c f gw hp hw], rs as [pt cb hist]. cbn [name hand chips
    folded gamesWon handsPlayed handsWon pot currentBet actionHistory set_chips
    set_folded].
  repeat case_decide;
    try (intros [= <- <- <-]; cbn;
         (split_and!;
          [reflexivity
          |first [by left | right; eexists; reflexivity]
          |intros Heq; first [done | apply (f_equal length) in Heq;
                                     rewrite length_app in Heq; cbn in Heq; lia]]));
    [|apply IH].
  destruct (read_betAmount input) as [[entered rest']|]; [|done].
  intros [= <- <- <-]. cbn.
  split_and!; [reflexivity|right; eexists; reflexivity|].
  intros Heq. apply (f_equal length) in Heq.
  rewrite length_app in Heq. cbn in Heq. lia.
Qed.
End turn_facts.



(** X7.  A turn of an automated player never reads the console input, a
    turn of a human player never calls [rand()], and a folded player's turn
    does neither.  In every case at most one random number is used, the
    console input left is an end piece of the input before, and the
    shuffling state is untouched. *)
Theorem X7_turn_inputs (p : Player) (rs : RoundState)
    (communityCards : list Card) (communitySize : nat) (ev : Env)
    (p' : Player) (rs' : RoundState) (ev' : Env) :
  takeAction p rs communityCards communitySize ev = Ok (p', rs', ev') ->
  (is_bot p = true -> cin ev' = cin ev) /\
  (is_bot p = false -> rng_calls ev' = rng_calls ev) /\
  (folded p = true -> ev' = ev) /\
  (rng_calls ev <= rng_calls ev' <= S (rng_calls ev))%nat /\
  cin ev' `suffix_of` cin ev /\
  rng ev' = rng ev /\ entropy ev' = entropy ev /\ shuffles ev' = shuffles ev.
Proof.
  intros [(Hf & _ & _ & ->)|[(Hf & Hbot & action & Hch & _)|(Hf & Hbot & rest & Hact & ->)]]
    %takeAction_inv.
  - split_and!; try done. lia.
  - unfold choose_action, rand in Hch.
    case_decide; injection Hch as _ <-; cbn;
      (split_and!; try done; try congruence; lia).
  - apply human_action_suffix in Hact. cbn.
    split_and!; try done; try congruence. lia.
Qed.

Lemma X7_turn_inputs_witness :
  rng_calls (snd (rand quiet_env)) = S (rng_calls quiet_env) /\
  cin (snd (rand quiet_env)) = cin quiet_env.
Proof.
  assert (H : takeAction bot_1 (mkRound 0 0 []) [] 0 quiet_env =
    Ok (set_chips 950 bot_1, mkRound 50 50 ["Bot 1 raises to 50 chips."],
        snd (rand quiet_env))) by (vm_compute; reflexivity).
  split; [reflexivity|].
  exact (proj1 (X7_turn_inputs _ _ _ _ _ _ _ _ H) eq_refl).
Defined.

(** X8.  A turn changes nothing of the acting player but the chips and the
    fold flag: name, hole cards and the three counters stay; it never
    brings a folded player back into the hand, and for a folded player it
    changes nothing at all. *)
Theorem X8_turn_touches_chips_and_fold (p : Player) (rs : RoundState)
    (communityCards : list Card) (communitySize : nat) (ev : Env)
    (p' : Player) (rs' : RoundState) (ev' : Env) :
  takeAction p rs communityCards communitySize ev = Ok (p', rs', ev') ->
  same_but_chips_and_fold p p' /\
  (folded p = true -> p' = p /\ rs' = rs /\ ev' = ev) /\
  (folded p' = false -> folded p = false).
Proof.
  intros [(Hf & -> & -> & ->)|[(Hf & Hbot & action & Hch & Hact)|(Hf & Hbot & rest & Hact & ->)]]
    %takeAction_inv.
  - split_and!; [by destruct p|done|done].
  - apply bot_action_effect in Hact as (? & _).
    split_and!; [done|congruence|done].
  - apply human_action_effect in Hact as (? & _).
    split_and!; [done|congruence|done].
Qed.

Lemma X8_turn_touches_chips_and_fold_witness :
  same_but_chips_and_fold bot_1 (set_chips 950 bot_1).
Proof.
  assert (H : takeAction bot_1 (mkRound 0 0 []) [] 0 quiet_env =
    Ok (set_chips 950 bot_1, mkRound 50 50 ["Bot 1 raises to 50 chips."],
        snd (rand quiet_env))) by (vm_compute; reflexivity).
  exact (proj1 (X8_turn_touches_chips_and_fold _ _ _ _ _ _ _ _ H)).
Defined.

(** X9.  A turn appends at most one line to the action history, never
    alters the lines already there, and a line it appends begins with the
    name of the acting player; a turn that logs nothing has changed
    neither the player nor the pot nor the current bet. *)
Theorem X9_turn_is_logged (p : Player) (rs : RoundState)
    (communityCards : list Card) (communitySize : nat) (ev : Env)
    (p' : Player) (rs' : RoundState) (ev' : Env) :
  takeAction p rs communityCards communitySize ev = Ok (p', rs', ev') ->
  logs_at_most_one_line p rs rs' /\
  (actionHistory rs' = actionHistory rs -> p' = p /\ rs' = rs).
Proof.
  intros [(Hf & -> & -> & ->)|[(Hf & Hbot & action & Hch & Hact)|(Hf & Hbot & rest & Hact & ->)]]
    %takeAction_inv.
  - split; [by left|done].
  - by apply bot_action_effect in Hact as (_ & ? & ?).
  - by apply human_action_effect in Hact as (_ & ? & ?).
Qed.

(** Ann's call without the chips logs nothing and changes nothing. *)
Lemma X9_turn_is_logged_witness :
  logs_at_most_one_line ann_30 (mkRound 100 40 []) (mkRound 100 40 []) /\
  (actionHistory (mkRound 100 40 []) = actionHistory (mkRound 100 40 []) ->
   ann_30 = ann_30 /\ mkRound 100 40 [] = mkRound 100 40 []).
Proof.
  assert (H : takeAction ann_30 (mkRound 100 40 []) [] 0 ann_calls =
            Ok (ann_30, mkRound 100 40 [], set_cin [] ann_calls))
    by (vm_compute; reflexivity).
  exact (X9_turn_is_logged _ _ _ _ _ _ _ _ H).
Defined.

(** ** Chips and turns through a betting round *)

Section round_facts.
Implicit Types (p : Player) (ps : list Player) (rs : RoundState) (t : Table).
Implicit Types (cc : list Card) (ci n : nat).

Lemma total_chips_app ps1 ps2 :
  total_chips (ps1 ++ ps2) = total_chips ps1 + total_chips ps2.
Proof.
  unfold total_chips. induction ps1 as [|p ps1 IH]; [done|].
  cbn [app fmap list_fmap]. rewrite !sum_Z_cons, IH. lia.
Qed.

Lemma total_chips_cons p ps : total_chips (p :: ps) = chips p + total_chips ps.
Proof. reflexivity. Qed.

Lemma total_chips_insert ps : forall i p p',
  ps !! i = Some p ->
  total_chips (<[i := p']> ps) = total_chips ps - chips p + chips p'.
Proof.
  induction ps as [|q ps IH]; intros [|i] p p' Hp; try done.
  - injection Hp as ->. change (<[0%nat := p']> (p :: ps)) with (p' :: ps).
    rewrite !total_chips_cons. lia.
  - cbn in Hp. change (<[S i := p']> (q :: ps)) with (q :: <[i := p']> ps).
    rewrite !total_chips_cons, (IH i p p' Hp). lia.
Qed.

Lemma total_chips_alter (f : Player -> Player) ps i :
  (forall p, chips (f p) = chips p) ->
  total_chips (alter f i ps) = total_chips ps.
Proof.
  intros Hf. destruct (ps !! i) as [p|] eqn:Hp.
  - rewrite (alter_as_insert _ _ _ p Hp), (total_chips_insert _ _ p) by done.
    rewrite Hf. lia.
  - f_equal. apply list_eq. intros j. rewrite list_lookup_alter.
    case_decide; [subst; by rewrite Hp|done].
Qed.

Lemma total_chips_perm ps1 ps2 : ps1 ≡ₚ ps2 -> total_chips ps1 = total_chips ps2.
Proof. intros H. unfold total_chips. apply sum_Z_perm. by rewrite H. Qed.

Lemma betting_turn_total cc ci t t' :
  betting_turn cc ci t = Ok t' ->
  total_chips (players t') + pot (round t') =
    total_chips (players t) + pot (round t).
Proof.
  unfold betting_turn. destruct (turnOrder t) as [|idx q]; [by intros [= <-]|].
  destruct (players t !! idx) as [p|] eqn:Hp; [|by intros [= <-]].
  destruct (negb (folded p) && bool_decide (chips p > 0)); [|by intros [= <-]].
  intros H. inv_bind H. destruct a as [[p' rs'] ev'].
  injection H as <-. cbn [players round].
  apply takeAction_conserves in Hrun.
  rewrite (total_chips_insert _ _ p) by done. lia.
Qed.

Lemma bettingRound_total n cc ci : forall t t',
  bettingRound n cc ci t = Ok t' ->
  total_chips (players t') + pot (round t') =
    total_chips (players t) + pot (round t).
Proof.
  induction n as [|n IH]; intros t t'; [by intros [= <-]|].
  rewrite bettingRound_S. intros H. inv_bind H.
  apply betting_turn_total in Hrun. apply IH in H. lia.
Qed.

(** A pass over players who are all in the hand with chips: each acts
    once, in queue order, and goes to the back. *)
Lemma bettingRound_rotates n cc ci : forall t t' q1 q2,
  bettingRound n cc ci t = Ok t' ->
  turnOrder t = q1 ++ q2 -> length q1 = n -> NoDup q1 ->
  (forall i, i ∈ q1 ->
     exists p, players t !! i = Some p /\ folded p = false /\ chips p > 0) ->
  turnOrder t' = q2 ++ q1 /\
  (forall i, i ∉ q1 -> players t' !! i = players t !! i).
Proof.
  induction n as [|n IH]; intros t t' q1 q2 H Hq Hlen Hnd Hact.
  - destruct q1; [|done]. injection H as <-.
    rewrite Hq, app_nil_r. done.
  - destruct q1 as [|idx q1]; [done|]. cbn in Hlen.
    apply NoDup_cons in Hnd as [Hidx Hnd].
    destruct (Hact idx ltac:(by left)) as (p & Hp & Hf & Hc).
    rewrite bettingRound_S in H.
    rewrite (betting_turn_act _ _ _ idx (q1 ++ q2) p Hq Hp Hf Hc) in H.
    inv_bind H. rename a into t1.
    inv_bind Hrun. destruct a as [[p' rs'] ev']. injection Hrun as <-.
    destruct (IH _ t' q1 (q2 ++ [idx]) H) as [Hq' Hother].
    + cbn. by rewrite <- app_assoc.
    + lia.
    + done.
    + intros i Hi. cbn. rewrite list_lookup_insert_ne by (intros ->; done).
      apply Hact. by right.
    + split; [by rewrite Hq', <- app_assoc|].
      intros i Hi. rewrite Hother by (intros ?; apply Hi; by right).
      cbn. apply list_lookup_insert_ne. intros ->. apply Hi. by left.
Qed.
End round_facts.



(** A pass over queued players who are all in the hand with chips is
    their turns, taken in queue order. *)
Lemma bettingRound_turns n cc ci : forall t q1 q2,
  turnOrder t = q1 ++ q2 -> length q1 = n -> NoDup q1 ->
  (forall i, i ∈ q1 ->
     exists p, players t !! i = Some p /\ folded p = false /\ chips p > 0) ->
  bettingRound n cc ci t =
    '(ps, rs, ev) ← turns_in_order cc ci q1 (players t) (round t) (env t);
    Ok (mkTable ps rs (q2 ++ q1) ev).
Proof.
  induction n as [|n IH]; intros t q1 q2 Hq Hlen Hnd Hact.
  - destruct q1; [|done]. cbn. rewrite app_nil_r. cbn in Hq. rewrite <- Hq.
    by destruct t.
  - destruct q1 as [|idx q1]; [done|]. cbn in Hlen.
    apply NoDup_cons in Hnd as [Hidx Hnd].
    destruct (Hact idx ltac:(by left)) as (p & Hp & Hf & Hc).
    rewrite bettingRound_S.
    rewrite (betting_turn_act _ _ _ idx (q1 ++ q2) p Hq Hp Hf Hc).
    cbn [turns_in_order]. rewrite Hp.
    destruct (takeAction p (round t) cc ci (env t)) as [[[p' rs'] ev']| |];
      [|done..].
    cbn [mbind result_bind].
    rewrite (IH _ q1 (q2 ++ [idx])).
    + cbn [players round env]. by rewrite <- app_assoc.
    + cbn. by rewrite <- app_assoc.
    + lia.
    + done.
    + intros i Hi. cbn. rewrite list_lookup_insert_ne by (intros ->; done).
      apply Hact. by right.
Qed.

(** X11.  When the Turn Queue holds as many indices as the pass has turns,
    all different, and every queued player is in the hand with chips when
    the pass begins, the pass is exactly one turn of each queued player,
    taken in queue order, each on the state the turn before left: it
    completes when these turns do and fails as the first of them that
    fails.  A completed pass leaves the queue as it began, every player
    having been dequeued once and re-enqueued, and changes no slot outside
    the queue. *)
Theorem X11_full_pass_rotates_queue (communityCards : list Card)
    (communityIndex : nat) (t : Table) :
  NoDup (turnOrder t) ->
  (forall i, i ∈ turnOrder t ->
     exists p, players t !! i = Some p /\ folded p = false /\ chips p > 0) ->
  bettingRound (length (turnOrder t)) communityCards communityIndex t =
    ('(ps, rs, ev) ← turns_in_order communityCards communityIndex
                       (turnOrder t) (players t) (round t) (env t);
     Ok (mkTable ps rs (turnOrder t) ev)) /\
  (forall t',
     bettingRound (length (turnOrder t)) communityCards communityIndex t = Ok t' ->
     turnOrder t' = turnOrder t /\
     (forall i, i ∉ turnOrder t -> players t' !! i = players t !! i)).
Proof.
  intros Hnd Hact. split.
  - rewrite (bettingRound_turns _ _ _ t (turnOrder t) []);
      [done|by rewrite app_nil_r|done..].
  - intros t' H.
    apply (bettingRound_rotates _ _ _ t t' (turnOrder t) [] H);
      [by rewrite app_nil_r|done..].
Qed.

(** The first betting round of a new game of two automated players: "Bot 1"
    raises to 50, then "Bot 2" bets 50. *)
Lemma X11_full_pass_rotates_queue_witness :
  bettingRound (length (turnOrder (table two_bots_game))) [] 0
               (table two_bots_game) =
    ('(ps, rs, ev) ← turns_in_order [] 0 (turnOrder (table two_bots_game))
                       (players (table two_bots_game))
                       (round (table two_bots_game))
                       (env (table two_bots_game));
     Ok (mkTable ps rs (turnOrder (table two_bots_game)) ev)).
Proof.
  destruct (X11_full_pass_rotates_queue [] 0%nat (table two_bots_game))
    as [Hpass _].
  - cbn. apply NoDup_cons. split; [by intros [=]%list_elem_of_singleton|].
    apply NoDup_singleton.
  - intros i Hi. cbn in Hi.
    apply elem_of_cons in Hi as [->|Hi%list_elem_of_singleton].
    + eexists. split_and!; [reflexivity|reflexivity|cbn; lia].
    + subst i. eexists. split_and!; [reflexivity|reflexivity|cbn; lia].
  - exact Hpass.
Defined.

(** ** Chips through a hand *)

Section hand_facts.
Implicit Types (p : Player) (ps : list Player) (g : Game) (t : Table) (d : Deck).


Lemma dealCard_Ok_inv d c d' :
  dealCard d = Ok (c, d') ->
  topCardIndex d < MAX_CARDS /\
  d' = mkDeck (cards d) (topCardIndex d + 1).
Proof.
  unfold dealCard. case_decide; [|discriminate]. by intros [= _ <-].
Qed.

(** Dealing the hole cards: two cards per player, chips untouched. *)
Lemma deal_holes idx : forall ps d ps' d',
  for_each deal_hole idx (ps, d) = Ok (ps', d') ->
  total_chips ps' = total_chips ps /\ length ps' = length ps /\
  cards d' = cards d /\
  (topCardIndex d <= MAX_CARDS ->
   topCardIndex d' = topCardIndex d + 2 * Z.of_nat (length idx) /\
   topCardIndex d' <= MAX_CARDS).
Proof.
  induction idx as [|i idx IH]; intros ps d ps' d' H.
  - injection H as <- <-. cbn. split_and!; try done. lia.
  - cbn [for_each] in H. inv_bind H. destruct a as [ps1 d1].
    unfold deal_hole in Hrun. inv_bind Hrun. destruct a as [c0 d0].
    inv_bind Hrun. destruct a as [c1 d1'].
    injection Hrun as <- <-.
    apply dealCard_Ok_inv in Hrun0 as [H0 ->].
    apply dealCard_Ok_inv in Hrun1 as [H1 ->]. cbn in H1.
    apply IH in H as (Ht & Hl & Hc & Hcur). cbn in Hc, Hcur.
    rewrite total_chips_alter in Ht by (by intros [? [??] ? ? ? ? ?]).
    rewrite length_alter in Hl.
    split_and!; [done..|]. intros _. cbn [length]. lia.
Qed.

Lemma deal_community_inv cc ci d i cc' ci' d' :
  deal_community (cc, ci, d) i = Ok (cc', ci', d') ->
  cards d' = cards d /\
  ((ci < 5)%nat /\ ci' = S ci /\ topCardIndex d < MAX_CARDS /\
     topCardIndex d' = topCardIndex d + 1 \/
   (5 <= ci)%nat /\ ci' = ci /\ d' = d /\ cc' = cc).
Proof.
  unfold deal_community. case_decide as Hci.
  - intros H. inv_bind H. destruct a as [c d1].
    apply dealCard_Ok_inv in Hrun as [Hlt ->].
    injection H as _ <- <-. cbn. split; [done|]. left. lia.
  - intros [= <- <- <-]. split; [done|]. right. split_and!; [lia|done..].
Qed.

(** The deck through the stages of a hand: the cursor only moves forward,
    by two cards per player and five community cards. *)
Lemma play_to_showdown_deck g starts t4 d' cc ci :
  deck_wf (deck g) ->
  play_to_showdown g = Ok (starts, t4, d', cc, ci) ->
  cards d' ≡ₚ cards (deck g) /\
  topCardIndex d' = topCardIndex (deck g) + 2 * Z.of_nat (numPlayers g) + 5 /\
  topCardIndex d' <= MAX_CARDS /\ ci = 5%nat.
Proof.
  intros [Hlen Hcur] H. unfold play_to_showdown in H.
  inv_bind H. destruct a as [t0 d0].
  unfold deal_hand in Hrun.
  destruct (next_shuffle (env (table g))) as [draw ev].
  inv_bind Hrun. destruct a as [ps d1]. injection Hrun as _ <-.
  apply deal_holes in Hrun0 as (_ & _ & Hc0 & Hcur0).
  rewrite length_seq in Hcur0. cbn [shuffle topCardIndex] in Hcur0.
  destruct (Hcur0 ltac:(lia)) as [Hcur1 Hle1]. clear Hcur0.
  inv_bind H. clear Hrun.
  inv_bind H. destruct a0 as [[cc1 ci1] d2].
  cbn [for_each seq] in Hrun.
  inv_bind Hrun. destruct a0 as [[cca cia] da].
  inv_bind Hrun. destruct a0 as [[ccb cib] db].
  inv_bind Hrun. destruct a0 as [[ccc cic] dc].
  injection Hrun as <- <- <-.
  apply deal_community_inv in Hrun0 as (Hca & [(_ & -> & _ & Hda)|(? & _)]); [|lia].
  apply deal_community_inv in Hrun1 as (Hcb & [(_ & -> & _ & Hdb)|(? & _)]); [|lia].
  apply deal_community_inv in Hrun2 as (Hcc & [(_ & -> & _ & Hdc)|(? & _)]); [|lia].
  inv_bind H. clear Hrun.
  inv_bind H. destruct a1 as [[cc2 ci2] d3].
  apply deal_community_inv in Hrun as (Hc3 & [(_ & -> & _ & Hd3)|(? & _)]); [|lia].
  inv_bind H. clear Hrun.
  inv_bind H. destruct a2 as [[cc3 ci3] d4].
  apply deal_community_inv in Hrun as (Hc4 & [(_ & -> & Hlt & Hd4)|(? & _)]); [|lia].
  inv_bind H. clear Hrun.
  injection H as _ _ <- _ <-.
  split_and!; [|lia|lia|done].
  rewrite Hc4, Hc3, Hcc, Hcb, Hca, Hc0. apply shuffle_perm.
Qed.
End hand_facts.

(** ** Elimination *)

Section elimination.
Implicit Types (p : Player) (ps cur : list Player) (E : gset string).

(** The state of the elimination loop after [k] iterations. *)
Lemma eliminate_loop ps E k :
  (k <= length ps)%nat ->
  exists cur r Ek,
    foldl eliminate_step (ps, 0%nat, E) (seq 0 k) = (cur, r, Ek) /\
    take r cur = survivors (take k ps) /\
    r = length (survivors (take k ps)) /\ (r <= k)%nat /\
    drop k cur = drop k ps /\ length cur = length ps /\
    Ek = broke_names (take k ps) ∪ E.
Proof.
  unfold survivors, broke_names. induction k as [|k IH]; intros Hk.
  - exists ps, 0%nat, E. cbn. split_and!; try done.
    rewrite take_0, filter_nil. cbn. by rewrite (left_id_L ∅ (∪)).
  - destruct IH as (cur & r & Ek & Hrun & Htake & Hr & Hle & Hdrop & Hlen & HE); [lia|].
    destruct (lookup_lt_is_Some_2 ps k) as [p Hp]; [lia|].
    assert (Hcur : cur !! k = Some p).
    { rewrite <- (Nat.add_0_r k), <- lookup_drop, Hdrop, lookup_drop.
      by rewrite Nat.add_0_r. }
    rewrite seq_S, foldl_app, Hrun. cbn [foldl Nat.add eliminate_step].
    rewrite Hcur, (take_S_r _ _ _ Hp), !filter_app, !filter_cons, !filter_nil.
    case_decide as Hz.
    + rewrite decide_False by (intros Hnz; contradiction).
      eexists _, _, _. split; [reflexivity|].
      rewrite !app_nil_r. split_and!.
      * by rewrite take_insert_ge.
      * done.
      * lia.
      * rewrite drop_insert_lt by lia.
        replace (S k) with (k + 1)%nat by lia.
        by rewrite <- !drop_drop, Hdrop.
      * by rewrite length_insert.
      * rewrite fmap_app, list_to_set_app_L. cbn. rewrite HE.
        apply set_eq. intros x. rewrite !elem_of_union, elem_of_empty. tauto.
    + rewrite decide_True by done.
      eexists _, _, _. split; [reflexivity|].
      rewrite app_nil_r. split_and!.
      * rewrite (take_S_r _ _ p).
        -- rewrite take_insert_ge by lia. by rewrite Htake.
        -- apply list_lookup_insert_eq. lia.
      * rewrite length_app. cbn. lia.
      * lia.
      * rewrite drop_insert_lt by lia.
        replace (S k) with (k + 1)%nat by lia.
        by rewrite <- !drop_drop, Hdrop.
      * by rewrite length_insert.
      * done.
Qed.
End elimination.

(** X14.  The elimination loop over the first [numPlayers] slots compacts
    the players who still hold chips to the front, in their order, and
    counts them; so no player with zero chips is left in the active roster.
    The names of exactly the players with zero chips are added to the
    eliminated set; the slots after [numPlayers] and the size of the array
    are untouched. *)
Theorem X14_eliminate (ps : list Player) (numPlayers : nat) (E : gset string) :
  (numPlayers <= length ps)%nat ->
  exists ps' remainingPlayers,
    eliminate ps numPlayers E =
      (ps', remainingPlayers, broke_names (take numPlayers ps) ∪ E) /\
    take remainingPlayers ps' = survivors (take numPlayers ps) /\
    remainingPlayers = length (survivors (take numPlayers ps)) /\
    Forall (fun p => chips p ≠ 0) (take remainingPlayers ps') /\
    drop numPlayers ps' = drop numPlayers ps /\
    length ps' = length ps.
Proof.
  intros Hn.
  destruct (eliminate_loop ps E numPlayers Hn)
    as (cur & r & Ek & Hrun & Htake & Hr & Hle & Hdrop & Hlen & ->).
  exists cur, r. unfold eliminate. split_and!; try done.
  rewrite Htake. unfold survivors. apply Forall_forall.
  by intros p [? _]%list_elem_of_filter.
Qed.

(** Ann is out of chips, the two automated players are not. *)
Lemma X14_eliminate_witness :
  exists ps' remainingPlayers,
    eliminate (set_chips 0 ann_30 :: two_bots) 3 ∅ =
      (ps', remainingPlayers,
       broke_names (take 3 (set_chips 0 ann_30 :: two_bots)) ∪ ∅) /\
    take remainingPlayers ps' = two_bots.
Proof.
  destruct (X14_eliminate (set_chips 0 ann_30 :: two_bots) 3 ∅)
    as (ps' & r & Hrun & Htake & _); [cbn; lia|].
  exists ps', r. split; [exact Hrun|exact Htake].
Defined.

(** ** A whole hand *)

Section whole_hand.
Implicit Types (p : Player) (ps : list Player) (g : Game) (t : Table) (d : Deck).

Lemma deal_hand_total g t0 d0 :
  deal_hand g = Ok (t0, d0) ->
  total_chips (players t0) = total_chips (players (table g)) /\
  length (players t0) = length (players (table g)).
Proof.
  unfold deal_hand. destruct (next_shuffle (env (table g))) as [draw ev].
  intros H. inv_bind H. destruct a as [ps d]. injection H as <- <-.
  by apply deal_holes in Hrun as (? & ? & _).
Qed.

Lemma play_to_showdown_total g starts t4 d' cc ci :
  play_to_showdown g = Ok (starts, t4, d', cc, ci) ->
  total_chips (players t4) + pot (round t4) =
    total_chips (players (table g)) + pot (round (table g)) /\
  length (players t4) = length (players (table g)).
Proof.
  unfold play_to_showdown. intros H.
  inv_bind H. destruct a as [t0 d0].
  pose proof (deal_hand_round _ _ _ Hrun) as [Hr0 _].
  apply deal_hand_total in Hrun as [Ht0 Hl0].
  inv_bind H. rename a into t1.
  pose proof (bettingRound_roster _ _ _ _ _ Hrun) as [Hl1 _].
  apply bettingRound_total in Hrun.
  inv_bind H. destruct a as [[cc1 ci1] d1]. clear Hrun0.
  inv_bind H. rename a into t2.
  pose proof (bettingRound_roster _ _ _ _ _ Hrun0) as [Hl2 _].
  apply bettingRound_total in Hrun0.
  inv_bind H. destruct a as [[cc2 ci2] d2]. clear Hrun1.
  inv_bind H. rename a into t3.
  pose proof (bettingRound_roster _ _ _ _ _ Hrun1) as [Hl3 _].
  apply bettingRound_total in Hrun1.
  inv_bind H. destruct a as [[cc3 ci3] d3]. clear Hrun2.
  inv_bind H. rename a into t4'.
  pose proof (bettingRound_roster _ _ _ _ _ Hrun2) as [Hl4 _].
  apply bettingRound_total in Hrun2.
  injection H as <- <- <- <- <-. rewrite Hr0 in Hrun. split; [lia|congruence].
Qed.

Lemma dealCard_cases d :
  (exists c, dealCard d = Ok (c, mkDeck (cards d) (topCardIndex d + 1)) /\
             topCardIndex d < MAX_CARDS) \/
  (dealCard d = Throw ExhaustedDeck /\ MAX_CARDS <= topCardIndex d).
Proof. unfold dealCard. case_decide; [left; eauto|right; split; [done|lia]]. Qed.

Lemma deal_hole_cases ps d i :
  (topCardIndex d + 2 <= MAX_CARDS /\
   exists ps', deal_hole (ps, d) i =
                 Ok (ps', mkDeck (cards d) (topCardIndex d + 2))) \/
  (topCardIndex d + 2 > MAX_CARDS /\ deal_hole (ps, d) i = Throw ExhaustedDeck).
Proof.
  unfold deal_hole.
  destruct (dealCard_cases d) as [(c0 & -> & H0)|[-> H0]];
    [|right; split; [lia|done]].
  cbn [mbind result_bind].
  destruct (dealCard_cases (mkDeck (cards d) (topCardIndex d + 1)))
    as [(c1 & -> & H1)|[-> H1]]; cbn [topCardIndex cards mbind result_bind] in *.
  - left. split; [lia|]. eexists. do 3 f_equal. lia.
  - right. split; [lia|done].
Qed.

(** With fewer than two cards per player left, dealing the hole cards
    fails. *)
Lemma deal_holes_throw idx : forall ps d,
  topCardIndex d <= MAX_CARDS ->
  topCardIndex d + 2 * Z.of_nat (length idx) > MAX_CARDS ->
  for_each deal_hole idx (ps, d) = Throw ExhaustedDeck.
Proof.
  induction idx as [|i idx IH]; intros ps d Hle Hgt; [cbn in Hgt; lia|].
  change (for_each deal_hole (i :: idx) (ps, d))
    with (deal_hole (ps, d) i ≫= for_each deal_hole idx).
  destruct (deal_hole_cases ps d i) as [(H2 & ps' & ->)|[_ ->]]; [|done].
  cbn [mbind result_bind]. apply IH; cbn [topCardIndex length] in *; lia.
Qed.
End whole_hand.




(** X15.  A hand never rewinds the deck: on a deck that satisfies the class
    invariant, a completed hand leaves the same cards, reordered by the
    shuffle, with the cursor advanced by exactly two cards per player plus
    the five community cards, so still within the 52 cards. *)
Theorem X15_hand_uses_up_the_deck (g g' : Game) :
  deck_wf (deck g) ->
  playHand g = Ok g' ->
  cards (deck g') ≡ₚ cards (deck g) /\
  topCardIndex (deck g') =
    topCardIndex (deck g) + 2 * Z.of_nat (numPlayers g) + 5 /\
  deck_wf (deck g').
Proof.
  intros Hwf H. unfold playHand in H. inv_bind H.
  destruct a as [[[[starts t4] d3] cc3] ci3].
  apply (play_to_showdown_deck _ _ _ _ _ _ Hwf) in Hrun as (Hperm & Hcur & Hle & _).
  destruct (showdown _ _ _ _ _) as [ps5 pot5].
  destruct (eliminate _ _ _) as [[ps6 remaining] eliminated].
  injection H as <-. cbn [deck].
  split_and!; [done..|].
  destruct Hwf as [Hlen Hrange]. split; [by rewrite Hperm|lia].
Qed.

Lemma X15_hand_uses_up_the_deck_witness :
  exists g', playHand two_bots_game = Ok g' /\ topCardIndex (deck g') = 9.
Proof.
  destruct (playHand two_bots_game) as [g'| |] eqn:H;
    [|vm_compute in H; discriminate H..].
  exists g'. split; [reflexivity|].
  exact (proj1 (proj2 (X15_hand_uses_up_the_deck two_bots_game g' new_Deck_wf H))).
Defined.

(** X16.  A hand begun with fewer than two cards per player left in the
    deck fails with the exhausted-deck error while the hole cards are
    dealt, before any player acts, whatever the shuffle and the inputs. *)
Theorem X16_hand_fails_on_short_deck (g : Game) :
  topCardIndex (deck g) <= MAX_CARDS ->
  topCardIndex (deck g) + 2 * Z.of_nat (numPlayers g) > MAX_CARDS ->
  deal_hand g = Throw ExhaustedDeck /\
  playHand g = Throw ExhaustedDeck.
Proof.
  intros Hle Hgt.
  assert (Hdeal : deal_hand g = Throw ExhaustedDeck).
  { unfold deal_hand. destruct (next_shuffle (env (table g))) as [draw ev].
    rewrite deal_holes_throw; [done|done|by rewrite length_seq]. }
  split; [exact Hdeal|].
  unfold playHand, play_to_showdown. by rewrite Hdeal.
Qed.

(** Six players, with 45 cards of the deck already dealt. *)
Lemma X16_hand_fails_on_short_deck_witness :
  playHand (gameLoop_start (fst (seat_players [])) 6
              (mkDeck (cards new_Deck) 45) quiet_env) =
    Throw ExhaustedDeck.
Proof.
  apply (X16_hand_fails_on_short_deck
           (gameLoop_start (fst (seat_players [])) 6
              (mkDeck (cards new_Deck) 45) quiet_env));
    cbn; unfold MAX_CARDS; lia.
Defined.

(** ** Re-ranking, again *)

Section ranking_facts.
Implicit Types (p x y : Player) (ps arr seg out l : list Player).

Lemma with_chips_cons c x l :
  with_chips c (x :: l) =
    if decide (chips x = c) then x :: with_chips c l else with_chips c l.
Proof. unfold with_chips. by rewrite filter_cons. Qed.

Lemma elem_of_with_chips c x l : x ∈ with_chips c l <-> chips x = c /\ x ∈ l.
Proof. unfold with_chips. by rewrite list_elem_of_filter. Qed.

(** The head of a sorted list holds at least as many chips as anyone in
    it. *)
Lemma by_chips_desc_head x l y :
  by_chips_desc (x :: l) -> y ∈ x :: l -> chips x >= chips y.
Proof.
  intros [Hx _]%StronglySorted_cons [->|Hy]%elem_of_cons; [lia|].
  rewrite Forall_forall in Hx. by apply Hx.
Qed.

(** A list is determined by being sorted by chips and by the order of the
    players within each chip count. *)
Lemma sorted_stable_unique l1 : forall l2,
  by_chips_desc l1 -> by_chips_desc l2 ->
  (forall c, with_chips c l1 = with_chips c l2) -> l1 = l2.
Proof.
  induction l1 as [|x l1 IH]; intros [|y l2] Hs1 Hs2 Heq.
  - done.
  - specialize (Heq (chips y)). rewrite with_chips_cons, decide_True in Heq by done.
    discriminate Heq.
  - specialize (Heq (chips x)). rewrite with_chips_cons, decide_True in Heq by done.
    discriminate Heq.
  - assert (Hxy : chips x = chips y).
    { assert (Hy : y ∈ x :: l1).
      { apply (elem_of_with_chips (chips y)). rewrite Heq.
        apply elem_of_with_chips. split; [done|by left]. }
      assert (Hx : x ∈ y :: l2).
      { apply (elem_of_with_chips (chips x)). rewrite <- Heq.
        apply elem_of_with_chips. split; [done|by left]. }
      pose proof (by_chips_desc_head _ _ _ Hs1 Hy).
      pose proof (by_chips_desc_head _ _ _ Hs2 Hx). lia. }
    pose proof (Heq (chips x)) as Hhead.
    rewrite !with_chips_cons, decide_True in Hhead by done.
    rewrite decide_True in Hhead by done.
    injection Hhead as -> Htail. f_equal.
    apply IH.
    + by apply StronglySorted_cons in Hs1 as [_ ?].
    + by apply StronglySorted_cons in Hs2 as [_ ?].
    + intros c. specialize (Heq c). rewrite !with_chips_cons in Heq.
      case_decide; [by injection Heq|done].
Qed.

Lemma stable_sort_unique seg out1 out2 :
  stable_sort_of seg out1 -> stable_sort_of seg out2 -> out1 = out2.
Proof.
  intros (_ & Hs1 & Hf1) (_ & Hs2 & Hf2).
  apply sorted_stable_unique; [done..|]. intros c. by rewrite Hf1, Hf2.
Qed.

Lemma mergeSort_whole arr :
  stable_sort_of arr (mergeSort arr 0 (Z.of_nat (length arr) - 1)).
Proof.
  destruct (mergeSort_roster arr (length arr) ltac:(lia)) as (out & Hrun & Hout).
  rewrite drop_all, app_nil_r in Hrun. rewrite take_ge in Hout by lia.
  by rewrite Hrun.
Qed.

(** Among players of one chip count the tree keeps the insertion order:
    a newcomer goes right of everybody it ties with. *)
Lemma insert_stable c t x :
  by_chips_desc (inOrder t) ->
  with_chips c (inOrder (insert t x)) =
    with_chips c (inOrder t) ++ with_chips c [x].
Proof.
  unfold with_chips, by_chips_desc.
  induction t as [|l IHl q r IHr]; intros Hs; [done|].
  rewrite insert_node. cbn [inOrder] in Hs.
  apply StronglySorted_app in Hs as (Hcross & Hl & Hqr).
  pose proof Hqr as [Hq Hr]%StronglySorted_cons.
  case_decide as Hgt; cbn [inOrder].
  - rewrite !filter_app, IHl by done. rewrite <- !app_assoc. f_equal.
    rewrite filter_cons, filter_nil. case_decide as Hc; [|by rewrite app_nil_r].
    assert (Hnone : filter (fun p => chips p = c) (q :: inOrder r) = []).
    { apply (with_chips_none c (q :: inOrder r)). apply Forall_forall. intros z Hz.
      pose proof (by_chips_desc_head _ _ _ Hqr Hz). lia. }
    by rewrite Hnone.
  - rewrite !filter_app, !(filter_cons _ q), IHr by done.
    rewrite <- !app_assoc. f_equal. by case_decide.
Qed.

Lemma addPlayers_stable c ps :
  with_chips c (inOrder (addPlayers ps)) = with_chips c ps.
Proof.
  induction ps as [|x ps IH] using rev_ind; [done|].
  rewrite addPlayers_snoc, insert_stable by apply addPlayers_sorted.
  rewrite IH. unfold with_chips. by rewrite filter_app.
Qed.
End ranking_facts.

(** X17.  Re-ranking as the game loop calls it, on the first [numPlayers]
    slots of a longer array: those slots come out as a stable sort of what
    they held, by chips in non-increasing order, and the slots after them
    are left alone; with no player at all (the upper bound is then [-1])
    the array comes back as it is. *)
Theorem X17_mergeSort_on_active_roster (arr : list Player) (numPlayers : nat) :
  (numPlayers <= length arr)%nat ->
  (exists out,
     mergeSort arr 0 (Z.of_nat numPlayers - 1) = out ++ drop numPlayers arr /\
     stable_sort_of (take numPlayers arr) out) /\
  mergeSort arr 0 (-1) = arr.
Proof.
  intros Hn. split; [by apply mergeSort_roster|].
  rewrite mergeSort_eqn. by rewrite decide_False by lia.
Qed.

Lemma X17_mergeSort_on_active_roster_witness :
  exists out,
    mergeSort (set_chips 0 ann_30 :: two_bots) 0 (Z.of_nat 2 - 1) =
      out ++ drop 2 (set_chips 0 ann_30 :: two_bots) /\
    stable_sort_of (take 2 (set_chips 0 ann_30 :: two_bots)) out.
Proof.
  apply (X17_mergeSort_on_active_roster (set_chips 0 ann_30 :: two_bots) 2).
  cbn. lia.
Defined.

(** X18.  The result of [mergeSort] is the only arrangement of the array
    that is sorted by chips in non-increasing order and keeps the players
    of each chip count in their order; so an array that is already sorted
    comes back unchanged, and sorting twice is the same as sorting once. *)
Theorem X18_mergeSort_sorted_input (arr : list Player) :
  (by_chips_desc arr -> mergeSort arr 0 (Z.of_nat (length arr) - 1) = arr) /\
  (forall out, stable_sort_of arr out ->
     mergeSort arr 0 (Z.of_nat (length arr) - 1) = out) /\
  mergeSort (mergeSort arr 0 (Z.of_nat (length arr) - 1)) 0
            (Z.of_nat (length arr) - 1) =
    mergeSort arr 0 (Z.of_nat (length arr) - 1).
Proof.
  pose proof (mergeSort_whole arr) as Hsort.
  assert (Hsorted : forall l, by_chips_desc l ->
            mergeSort l 0 (Z.of_nat (length l) - 1) = l).
  { intros l Hl. apply (stable_sort_unique l); [apply mergeSort_whole|].
    by split_and!. }
  split_and!.
  - apply Hsorted.
  - intros out Hout. by apply (stable_sort_unique arr).
  - destruct Hsort as (Hperm & Hs & _).
    rewrite <- (Permutation_length Hperm) at 2. by apply Hsorted.
Qed.

Lemma X18_mergeSort_sorted_input_witness :
  mergeSort two_bots 0 (Z.of_nat (length two_bots) - 1) = two_bots.
Proof.
  apply (proj1 (X18_mergeSort_sorted_input two_bots)).
  repeat constructor; cbn; lia.
Defined.

(** X19.  The ranking tree and the merge sort agree: inserting the players
    of a sequence one by one and reading the tree in order lists them
    exactly as [mergeSort] arranges the sequence, by chips in
    non-increasing order with ties in insertion order. *)
Theorem X19_tree_agrees_with_mergeSort (ps : list Player) :
  inOrder (addPlayers ps) = mergeSort ps 0 (Z.of_nat (length ps) - 1) /\
  forall c, with_chips c (inOrder (addPlayers ps)) = with_chips c ps.
Proof.
  split; [|intros c; apply addPlayers_stable].
  apply (stable_sort_unique ps); [|apply mergeSort_whole].
  split_and!; [apply addPlayers_perm|apply addPlayers_sorted|].
  intros c. apply addPlayers_stable.
Qed.

(** ** The roster a hand leaves *)

Section roster_after_hand.
Implicit Types (p : Player) (ps : list Player) (g : Game).

Lemma showdown_length ps n cc cs (pot : Z) :
  length (showdown ps n cc cs pot).1 = length ps.
Proof.
  unfold showdown. destruct (showdown_scan ps n cc cs).2; cbn; [|done].
  apply length_alter.
Qed.

Lemma playHand_roster g g' :
  (numPlayers g <= length (players (table g)))%nat ->
  playHand g = Ok g' ->
  (numPlayers g' <= numPlayers g)%nat /\
  length (players (table g')) = length (players (table g)) /\
  by_chips_desc (take (numPlayers g') (players (table g'))) /\
  Forall (fun p => chips p ≠ 0) (take (numPlayers g') (players (table g'))) /\
  eliminatedPlayers g ⊆ eliminatedPlayers g'.
Proof.
  intros Hn H. unfold playHand in H. inv_bind H.
  destruct a as [[[[starts t4] d3] cc3] ci3].
  apply play_to_showdown_total in Hrun as [_ Hlen4].
  pose proof (showdown_length (players t4) (numPlayers g) cc3 ci3 (pot (round t4)))
    as Hlen5.
  destruct (showdown _ _ _ _ _) as [ps5 pot5]. cbn [fst] in Hlen5.
  destruct (eliminate_loop ps5 (eliminatedPlayers g) (numPlayers g))
    as (ps6 & r & E6 & Hel & Htake & Hr & Hle & _ & Hlen6 & HE); [lia|].
  unfold eliminate in H. rewrite Hel in H.
  destruct (mergeSort_roster ps6 r) as (out & Hsort & Hperm & Hsorted & _); [lia|].
  injection H as <-. cbn [numPlayers table players eliminatedPlayers].
  assert (Hout : length out = r).
  { rewrite Hperm, length_take. lia. }
  rewrite Hsort, take_app_length' by done.
  split_and!.
  - done.
  - rewrite length_app, length_drop. lia.
  - done.
  - rewrite Hperm, Htake. unfold survivors. apply Forall_forall.
    by intros p [? _]%list_elem_of_filter.
  - rewrite HE. apply union_subseteq_r.
Qed.
End roster_after_hand.

(** X20.  After a completed hand the active roster is ranked and holds no
    broke player: its first [numPlayers] slots, with the number of players
    as the hand leaves it, are sorted by chips in non-increasing order and
    none of them has zero chips; the number of players has not grown, the
    array has kept its size, and the eliminated set has only gained
    names. *)
Theorem X20_hand_leaves_ranked_roster (g g' : Game) :
  (numPlayers g <= length (players (table g)))%nat ->
  playHand g = Ok g' ->
  (numPlayers g' <= numPlayers g)%nat /\
  length (players (table g')) = length (players (table g)) /\
  by_chips_desc (take (numPlayers g') (players (table g'))) /\
  Forall (fun p => chips p ≠ 0) (take (numPlayers g') (players (table g'))) /\
  eliminatedPlayers g ⊆ eliminatedPlayers g'.
Proof. apply playHand_roster. Qed.

Lemma X20_hand_leaves_ranked_roster_witness :
  exists g',
    playHand two_bots_game = Ok g' /\
    by_chips_desc (take (numPlayers g') (players (table g'))).
Proof.
  destruct (playHand two_bots_game) as [g'| |] eqn:H;
    [|vm_compute in H; discriminate H..].
  exists g'. split; [reflexivity|].
  apply (X20_hand_leaves_ranked_roster two_bots_game g'); [cbn; lia|exact H].
Defined.

(** ** The interaction graph *)

Section interaction_graph.
Implicit Types (g : InterGraph) (a b x y : string) (ps : list Player).

Lemma edge_count_insert g a (l : list (string * Z)) :
  (edge_count (<[a := l]> g) + length (edges_of g a) =
   edge_count g + length l)%nat.
Proof.
  unfold edge_count, edges_of.
  destruct (g !! a) as [l0|] eqn:Ha; cbn [default].
  - pose proof (map_fold_delete_L (fun _ (l : list (string * Z)) n =>
                                     (length l + n)%nat) 0%nat a l0 g
                  ltac:(intros; cbv beta; lia) Ha) as E1.
    pose proof (map_fold_insert_L (fun _ (l : list (string * Z)) n =>
                                     (length l + n)%nat) 0%nat a l (delete a g)
                  ltac:(intros; cbv beta; lia) (lookup_delete_eq g a)) as E2.
    rewrite insert_delete_eq in E2. cbv beta in E1, E2. unfold id. lia.
  - rewrite map_fold_insert_L; [|intros; cbv beta; lia|done]. cbn. lia.
Qed.

Lemma edge_count_push a e g : edge_count (push_edge a e g) = S (edge_count g).
Proof.
  unfold push_edge.
  pose proof (edge_count_insert g a (default [] (g !! a) ++ [e])) as H.
  unfold edges_of in H. rewrite length_app in H. cbn in H. lia.
Qed.

Lemma edge_count_addInter x y c g :
  edge_count (addInter x y c g) = S (S (edge_count g)).
Proof. unfold addInter. by rewrite !edge_count_push. Qed.

Lemma edges_of_push x e g a :
  edges_of (push_edge x e g) a =
    if decide (x = a) then edges_of g a ++ [e] else edges_of g a.
Proof.
  unfold edges_of, push_edge. rewrite lookup_insert.
  case_decide; [by subst|done].
Qed.

Lemma count_single b (c : Z) y (c0 : Z) :
  length (filter ((b, c) =.) [(y, c0)]) =
    if decide (y = b /\ c0 = c) then 1%nat else 0%nat.
Proof.
  rewrite filter_cons, filter_nil.
  destruct (decide ((b, c) = (y, c0))) as [H1|H1];
    destruct (decide (y = b /\ c0 = c)) as [H2|H2]; cbn; try done.
  - exfalso. apply H2. by injection H1.
  - exfalso. destruct H2 as [-> ->]. by apply H1.
Qed.

Lemma count_edge_addInter x y c0 g a b c :
  count_edge (addInter x y c0 g) a b c =
    (count_edge g a b c
     + (if decide (x = a /\ y = b /\ c0 = c) then 1 else 0)
     + (if decide (y = a /\ x = b /\ c0 = c) then 1 else 0))%nat.
Proof.
  unfold count_edge, addInter. rewrite !edges_of_push.
  destruct (decide (y = a)) as [Hy|Hy], (decide (x = a)) as [Hx|Hx];
    rewrite ?filter_app, ?length_app, ?count_single;
    repeat case_decide; try lia; exfalso; intuition congruence.
Qed.

Lemma addInter_symmetric x y c0 g :
  symmetric_graph g -> symmetric_graph (addInter x y c0 g).
Proof.
  intros Hsym a b c. rewrite !count_edge_addInter, (Hsym a b c).
  repeat case_decide; try lia; exfalso; intuition congruence.
Qed.

Lemma betInter_inner_count ps pi cb count : forall first g,
  edge_count (betInter_inner ps pi cb first count g) =
    (edge_count g +
     2 * length (filter (fun p => folded p = false)
                        (take count (drop first ps))))%nat.
Proof.
  unfold betInter_inner.
  induction count as [|count IH]; intros first g;
    [cbn [seq foldl]; rewrite take_0, filter_nil; cbn [length]; lia|].
  cbn [seq foldl]. rewrite IH.
  destruct (ps !! first) as [pj|] eqn:Hj.
  - rewrite (drop_S _ _ _ Hj). cbn [take]. rewrite filter_cons.
    destruct (folded pj); [by rewrite decide_False|].
    rewrite decide_True by done. rewrite edge_count_addInter. cbn [length]. lia.
  - apply lookup_ge_None in Hj.
    rewrite !drop_ge by lia. by rewrite !take_nil.
Qed.

Lemma betInter_inner_symmetric ps pi cb count : forall first g,
  symmetric_graph g -> symmetric_graph (betInter_inner ps pi cb first count g).
Proof.
  unfold betInter_inner.
  induction count as [|count IH]; intros first g Hsym; [done|].
  cbn [seq foldl]. apply IH.
  destruct (ps !! first) as [pj|]; [|done].
  destruct (folded pj); [done|]. by apply addInter_symmetric.
Qed.

Lemma betInter_from_count ps n cb m : forall first g,
  (n - first = m)%nat ->
  edge_count (betInter_from ps n cb first g) =
    (edge_count g +
     length (filter (fun p => folded p = false) (take m (drop first ps))) *
     (length (filter (fun p => folded p = false) (take m (drop first ps))) - 1))%nat.
Proof.
  unfold betInter_from.
  induction m as [|m IH]; intros first g Hm; rewrite Hm;
    [cbn [seq foldl]; rewrite take_0, filter_nil; cbn [length]; lia|].
  cbn [seq foldl].
  specialize (IH (S first)). replace (n - S first)%nat with m in IH by lia.
  rewrite IH by lia.
  destruct (ps !! first) as [pi|] eqn:Hi.
  - rewrite (drop_S _ _ _ Hi). cbn [take]. rewrite filter_cons.
    destruct (folded pi); [by rewrite decide_False|].
    rewrite decide_True by done.
    rewrite betInter_inner_count.
    replace (n - S first)%nat with m by lia.
    cbn [length]. nia.
  - apply lookup_ge_None in Hi.
    rewrite !drop_ge by lia. by rewrite !take_nil.
Qed.

Lemma betInter_from_symmetric ps n cb idx : forall g,
  symmetric_graph g ->
  symmetric_graph
    (foldl (fun g i =>
              match ps !! i with
              | Some pi =>
                  if folded pi then g
                  else betInter_inner ps pi cb (S i) (n - S i) g
              | None => g
              end) g idx).
Proof.
  induction idx as [|i idx IH]; intros g Hsym; [done|].
  cbn [foldl]. apply IH.
  destruct (ps !! i) as [pi|]; [|done].
  destruct (folded pi); [done|]. by apply betInter_inner_symmetric.
Qed.
End interaction_graph.

(** X21.  Recording the interactions of a betting round adds exactly
    [k * (k - 1)] adjacency entries to the graph, for [k] the number of
    players in the hand among the first [numPlayers]: two entries for each
    pair of players in the hand, none for a folded player, and nothing is
    ever removed. *)
Theorem X21_betInter_adds_pairs (ps : list Player) (numPlayers : nat)
    (currentBet : Z) (g : InterGraph) :
  edge_count (betInter ps numPlayers currentBet g) =
    (edge_count g +
     in_hand_count ps numPlayers * (in_hand_count ps numPlayers - 1))%nat.
Proof.
  unfold betInter, in_hand_count.
  rewrite (betInter_from_count ps numPlayers currentBet numPlayers 0 g) by lia.
  by rewrite drop_0.
Qed.

(** X22.  The interaction graph stays symmetric: [addInter] lists an
    interaction under both players, so in the empty graph, and after any
    [addInter] or [betInter] on a symmetric graph, every edge is listed as
    often from one end as from the other, with the same weight. *)
Theorem X22_graph_stays_symmetric :
  symmetric_graph ∅ /\
  (forall x y c g, symmetric_graph g -> symmetric_graph (addInter x y c g)) /\
  (forall ps numPlayers currentBet g,
     symmetric_graph g ->
     symmetric_graph (betInter ps numPlayers currentBet g)).
Proof.
  split_and!.
  - intros a b c. unfold count_edge, edges_of. by rewrite !lookup_empty.
  - intros x y c g. apply addInter_symmetric.
  - intros ps n cb g Hsym. unfold betInter, betInter_from.
    by apply betInter_from_symmetric.
Qed.

(** The interactions of the two automated players at a bet of 50. *)
Lemma X22_graph_stays_symmetric_witness :
  symmetric_graph (betInter two_bots 2 50 ∅).
Proof.
  apply (proj2 (proj2 X22_graph_stays_symmetric)).
  apply (proj1 X22_graph_stays_symmetric).
Defined.

(** ** Displays, tables and seats *)

Section displays.
Implicit Types (p : Player) (ps : list Player) (cc : list Card).

Lemma string_app_nil_r (s : string) : s +:+ "" = s.
Proof.
  induction s as [|a s IH]; [done|].
  change (String a (s +:+ "") = String a s). by rewrite IH.
Qed.

Lemma recursiveComcard_eqn cc index totalCards :
  recursiveComcard cc index totalCards =
    if decide (totalCards <= index)%nat then ""
    else card_text (cc !!! index) +:+
         (if decide (index < totalCards - 1)%nat then ", " else "") +:+
         recursiveComcard cc (S index) totalCards.
Proof.
  simp recursiveComcard.
  destruct (decide (totalCards <= index)%nat); simp recursiveComcard; reflexivity.
Qed.

Lemma recursiveComcard_from cc totalCards k : forall index,
  (totalCards - index = k)%nat -> (totalCards <= length cc)%nat ->
  recursiveComcard cc index totalCards =
    String.concat ", " (card_text <$> take k (drop index cc)).
Proof.
  induction k as [|k IH]; intros index Hk Hlen; rewrite recursiveComcard_eqn.
  - by rewrite decide_True by lia.
  - rewrite decide_False by lia.
    destruct (lookup_lt_is_Some_2 cc index) as [c Hc]; [lia|].
    rewrite (list_lookup_total_correct _ _ _ Hc), (drop_S _ _ _ Hc).
    rewrite (IH (S index)) by lia.
    cbn [take fmap list_fmap String.concat].
    destruct k as [|k].
    + rewrite decide_False by lia. rewrite take_0. cbn [fmap list_fmap String.concat].
      by rewrite !string_app_nil_r.
    + rewrite decide_True by lia.
      destruct (lookup_lt_is_Some_2 cc (S index)) as [c' Hc']; [lia|].
      rewrite (drop_S _ _ _ Hc'). reflexivity.
Qed.

Lemma playerStats_lookup ps n nm :
  playerStats ps n !! nm =
    (fun p => (gamesWon p, chips p)) <$>
      last (filter (fun p => name p = nm) (take n ps)).
Proof.
  unfold playerStats. induction n as [|n IH]; [by rewrite take_0|].
  rewrite seq_S, foldl_app. cbn [foldl Nat.add].
  destruct (ps !! n) as [p|] eqn:Hp.
  - rewrite (take_S_r _ _ _ Hp), filter_app, filter_cons, filter_nil.
    rewrite lookup_insert. destruct (decide (name p = nm)) as [Hnm|Hnm].
    + by rewrite last_snoc.
    + by rewrite app_nil_r.
  - apply lookup_ge_None in Hp. rewrite IH.
    by rewrite !take_ge by lia.
Qed.

Lemma manageSidePot_lookup (sidePots : gmap nat Z) ps n i :
  manageSidePot sidePots ps n !! i =
    match ps !! i with
    | Some p =>
        if decide ((i < n)%nat /\ chips p = 0 /\ folded p = false)
        then Some 0 else sidePots !! i
    | None => sidePots !! i
    end.
Proof.
  unfold manageSidePot. induction n as [|n IH].
  - cbn. destruct (ps !! i); [|done]. by rewrite decide_False by lia.
  - rewrite seq_S, foldl_app. cbn [foldl Nat.add].
    assert (Hstep : forall p, ps !! i = Some p -> i <> n ->
      ((i < n)%nat /\ chips p = 0 /\ folded p = false) <->
      ((i < S n)%nat /\ chips p = 0 /\ folded p = false)) by (intros; split; intros (? & ? & ?); split_and!; try done; lia).
    destruct (decide (i = n)) as [->|Hne].
    + destruct (ps !! n) as [q|] eqn:Hq.
      * destruct (decide (chips q = 0)) as [Hz|Hz].
        -- destruct (folded q) eqn:Hf.
           ++ rewrite IH. rewrite !decide_False; [done|intros (_ & _ & ?); done|lia].
           ++ rewrite lookup_insert, decide_True by done.
              rewrite decide_True by (split_and!; [lia|done|done]). by rewrite Hz.
        -- rewrite IH. rewrite !decide_False; [done|intros (_ & ? & _); done|lia].
      * by rewrite IH.
    + assert (Hrec : foldl (fun pots i0 => match ps !! i0 with
                 | Some p => if decide (chips p = 0)
                             then if folded p then pots else <[i0 := chips p]> pots
                             else pots
                 | None => pots end) sidePots (seq 0 n) !! i =
               match ps !! i with
               | Some p => if decide ((i < S n)%nat /\ chips p = 0 /\ folded p = false)
                           then Some 0 else sidePots !! i
               | None => sidePots !! i end).
      { rewrite IH. destruct (ps !! i) as [p|] eqn:Hp; [|done].
        apply decide_ext, Hstep; done. }
      destruct (ps !! n) as [q|] eqn:Hq; [|exact Hrec].
      destruct (decide (chips q = 0)); [|exact Hrec].
      destruct (folded q); [exact Hrec|].
      rewrite lookup_insert_ne by done. exact Hrec.
Qed.
End displays.

(** X23.  The community cards are displayed as the texts "<rank> of
    <suit>" of the first [totalCards] cards, in order, joined by ", ": no
    separator before the first or after the last, and nothing at all when
    no card is out. *)
Theorem X23_community_display (communityCards : list Card) (totalCards : nat) :
  (totalCards <= length communityCards)%nat ->
  recursiveComcard communityCards 0 totalCards =
    String.concat ", " (card_text <$> take totalCards communityCards).
Proof.
  intros Hlen.
  rewrite (recursiveComcard_from communityCards totalCards totalCards 0) by lia.
  by rewrite drop_0.
Qed.

Lemma X23_community_display_witness :
  recursiveComcard
    [mkCard "7" "Clubs"; mkCard "King" "Hearts"; mkCard "2" "Spades";
     default_Card; default_Card] 0 3 =
  "7 of Clubs, King of Hearts, 2 of Spades".
Proof.
  apply (X23_community_display
           [mkCard "7" "Clubs"; mkCard "King" "Hearts"; mkCard "2" "Spades";
            default_Card; default_Card] 3).
  cbn. lia.
Defined.

(** X24.  The statistics table holds, under each name, the games won and
    the chips of the last player of that name among the first
    [numPlayers], and nothing under a name that no such player bears: two
    players of one name share a single row, the later one's. *)
Theorem X24_playerStats_last_wins (ps : list Player) (numPlayers : nat)
    (nm : string) :
  playerStats ps numPlayers !! nm =
    (fun p => (gamesWon p, chips p)) <$>
      last (filter (fun p => name p = nm) (take numPlayers ps)).
Proof. apply playerStats_lookup. Qed.

(** X25.  Every side pot that [manageSidePot] records is zero: it writes
    an entry only for a player among the first [numPlayers] who has not
    folded and holds no chips, and the entry is that player's chip count;
    all other entries are left as they were. *)
Theorem X25_side_pots_are_zero (sidePots : gmap nat Z) (ps : list Player)
    (numPlayers i : nat) :
  manageSidePot sidePots ps numPlayers !! i =
    match ps !! i with
    | Some p =>
        if decide ((i < numPlayers)%nat /\ chips p = 0 /\ folded p = false)
        then Some 0 else sidePots !! i
    | None => sidePots !! i
    end.
Proof. apply manageSidePot_lookup. Qed.

(** ** Seating *)

Section seating.
Implicit Types (p : Player) (ps : list Player).

Lemma contains_Bot_prefix (s : string) : contains "Bot" ("Bot " +:+ s) = true.
Proof. reflexivity. Qed.

Lemma total_chips_const c ps :
  Forall (fun p => chips p = c) ps -> total_chips ps = c * Z.of_nat (length ps).
Proof.
  induction 1 as [|p ps Hp _ IH]; [cbn; lia|].
  rewrite total_chips_cons, IH, Hp. cbn [length]. lia.
Qed.

Lemma by_chips_desc_const c ps :
  Forall (fun p => chips p = c) ps -> by_chips_desc ps.
Proof.
  induction 1 as [|p ps Hp Hps IH]; [constructor|].
  constructor; [exact IH|].
  eapply Forall_impl; [exact Hps|]. cbn. intros q Hq. lia.
Qed.

Lemma seat_players_fresh (humans : list string) p :
  p ∈ (seat_players humans).1 ->
  chips p = 1000 /\ folded p = false /\ gamesWon p = 0.
Proof.
  unfold seat_players. cbn [fst].
  rewrite elem_of_app, !list_elem_of_fmap.
  intros [(h & -> & _)|(i & -> & _)]; done.
Qed.
End seating.

(** X26.  Seating a new game with at most six humans fills all six seats:
    the humans first, in the order their names were entered, then the bots
    "Bot 1", "Bot 2", ... on the seats that are left, each of them played
    by the automated policy; everyone starts with 1000 chips, not folded
    and with no game won, 6000 chips in all; and the ranking displayed
    before the game lists the players in seating order. *)
Theorem X26_seating (humans : list string) (ps : list Player) (n : nat) :
  (length humans <= MAX_PLAYERS)%nat ->
  seat_players humans = (ps, n) ->
  n = MAX_PLAYERS /\ length ps = MAX_PLAYERS /\
  take (length humans) ps = new_Player <$> humans /\
  (forall i p, (length humans <= i)%nat -> ps !! i = Some p ->
     name p = "Bot " +:+ to_string (Z.of_nat (i - length humans) + 1) /\
     is_bot p = true) /\
  Forall (fun p => chips p = 1000 /\ folded p = false /\ gamesWon p = 0) ps /\
  total_chips ps = 6000 /\
  inOrder (addPlayers ps) = ps.
Proof.
  intros Hlen Hseat.
  assert (Hfresh : Forall (fun p => chips p = 1000 /\ folded p = false /\
                                    gamesWon p = 0) ps).
  { apply Forall_forall. intros p Hp. apply (seat_players_fresh humans).
    by rewrite Hseat. }
  assert (Hchips : Forall (fun p => chips p = 1000) ps).
  { eapply Forall_impl; [exact Hfresh|]. by intros p (? & _). }
  unfold seat_players in Hseat. injection Hseat as <- <-.
  assert (Hsize : length ((new_Player <$> humans) ++
      ((fun i => new_Player ("Bot " +:+ to_string (Z.of_nat i + 1))) <$>
         seq 0 (MAX_PLAYERS - length humans))) = MAX_PLAYERS).
  { rewrite length_app, !length_fmap, length_seq. lia. }
  split_and!.
  - lia.
  - exact Hsize.
  - rewrite take_app_length'; [done|by rewrite length_fmap].
  - intros i p Hi Hp.
    rewrite lookup_app_r in Hp by (rewrite length_fmap; lia).
    rewrite length_fmap, list_lookup_fmap in Hp.
    destruct (seq 0 (MAX_PLAYERS - length humans) !! (i - length humans)%nat)
      as [k|] eqn:Hk; [|discriminate Hp].
    apply lookup_seq in Hk as [-> _]. injection Hp as <-.
    split; [reflexivity|]. apply contains_Bot_prefix.
  - exact Hfresh.
  - rewrite (total_chips_const 1000) by exact Hchips. rewrite Hsize. reflexivity.
  - apply sorted_stable_unique.
    + apply addPlayers_sorted.
    + by apply (by_chips_desc_const 1000).
    + intros c. apply addPlayers_stable.
Qed.

Lemma X26_seating_witness :
  exists ps,
    seat_players ["Ann"; "Bob"] = (ps, 6%nat) /\
    take 2 ps = [new_Player "Ann"; new_Player "Bob"] /\
    total_chips ps = 6000.
Proof.
  exists (seat_players ["Ann"; "Bob"]).1.
  destruct (X26_seating ["Ann"; "Bob"] (seat_players ["Ann"; "Bob"]).1 6)
    as (_ & _ & Htake & _ & _ & Htotal & _).
  - unfold MAX_PLAYERS. cbn. lia.
  - reflexivity.
  - split; [reflexivity|]. split; [exact Htake|exact Htotal].
Defined.

(** ** The loop of hands *)

Section game_loop.
Implicit Types (g : Game) (p : Player) (ps : list Player).

Lemma loop_guard_two g : loop_guard g = true -> (2 <= numPlayers g)%nat.
Proof.
  unfold loop_guard, players_with_chips. intros H%bool_decide_eq_true.
  pose proof (length_filter (fun p => chips p > 0)
                (take (numPlayers g) (players (table g)))) as Hf.
  rewrite length_take in Hf. lia.
Qed.

Lemma playHand_deck g g' :
  deck_wf (deck g) -> playHand g = Ok g' ->
  topCardIndex (deck g') =
    topCardIndex (deck g) + 2 * Z.of_nat (numPlayers g) + 5 /\
  deck_wf (deck g').
Proof.
  intros Hwf H. unfold playHand in H. inv_bind H.
  destruct a as [[[[starts t4] d3] cc3] ci3].
  apply (play_to_showdown_deck _ _ _ _ _ _ Hwf) in Hrun as (Hperm & Hcur & Hle & _).
  destruct (showdown _ _ _ _ _) as [ps5 pot5].
  destruct (eliminate _ _ _) as [[ps6 remaining] eliminated].
  injection H as <-. cbn [deck]. split; [done|].
  destruct Hwf as [Hlen Hrange]. split; [by rewrite Hperm|lia].
Qed.

Lemma hands_deck k : forall g g',
  deck_wf (deck g) -> hands k g g' ->
  topCardIndex (deck g) + 9 * Z.of_nat k <= topCardIndex (deck g') /\
  deck_wf (deck g').
Proof.
  induction k as [|k IH]; intros g g' Hwf Hrun; inversion Hrun; subst.
  - split; [lia|done].
  - match goal with
    | Hg : loop_guard g = true, Hp : playHand g = Ok ?g1,
      Hr : hands k (after_prompts ?rest ?g1) g' |- _ =>
        apply loop_guard_two in Hg;
        destruct (playHand_deck g g1 Hwf Hp) as [Hcur Hwf1];
        destruct (IH (after_prompts rest g1) g' Hwf1 Hr) as [Hle Hwf']
    end.
    cbn [after_prompts deck] in Hle. split; [lia|done].
Qed.

(** Names decide who is automated, and dealing changes no name. *)
Lemma bots_by_name ps ps' :
  name <$> ps' = name <$> ps ->
  Forall (fun p => is_bot p = true) ps -> Forall (fun p => is_bot p = true) ps'.
Proof.
  intros Hn Hb.
  assert (H : forall qs, Forall (fun p => is_bot p = true) qs <->
                         Forall (fun s => contains "Bot" s = true) (name <$> qs)).
  { intros qs. by rewrite Forall_fmap. }
  apply H. rewrite Hn. by apply H.
Qed.

Lemma deal_holes_names idx : forall ps d ps' d',
  for_each deal_hole idx (ps, d) = Ok (ps', d') -> name <$> ps' = name <$> ps.
Proof.
  induction idx as [|i idx IH]; intros ps d ps' d' H.
  - by injection H as <- <-.
  - cbn [for_each] in H. inv_bind H. destruct a as [ps1 d1].
    apply IH in H. rewrite H.
    unfold deal_hole in Hrun. inv_bind Hrun. destruct a as [c0 d0].
    inv_bind Hrun. destruct a as [c1 d2]. injection Hrun as <- _.
    apply list_eq. intros j. rewrite !list_lookup_fmap.
    rewrite list_lookup_alter. case_decide as Hij; [subst j|done].
    by destruct (ps !! i).
Qed.

Lemma deal_holes_room idx : forall ps d,
  topCardIndex d + 2 * Z.of_nat (length idx) <= MAX_CARDS ->
  exists ps',
    for_each deal_hole idx (ps, d) =
      Ok (ps', mkDeck (cards d) (topCardIndex d + 2 * Z.of_nat (length idx))).
Proof.
  induction idx as [|i idx IH]; intros ps d Hroom.
  - exists ps. cbn. rewrite Z.add_0_r. by destruct d.
  - change (for_each deal_hole (i :: idx) (ps, d))
      with (deal_hole (ps, d) i ≫= for_each deal_hole idx).
    destruct (deal_hole_cases ps d i) as [(H2 & ps1 & ->)|[Hgt _]];
      [|cbn [length] in Hroom; lia].
    cbn [mbind result_bind].
    destruct (IH ps1 (mkDeck (cards d) (topCardIndex d + 2))) as [ps' Hps'].
    { cbn [topCardIndex length] in *. lia. }
    exists ps'. rewrite Hps'. cbn [cards topCardIndex length]. do 2 f_equal. f_equal. lia.
Qed.

Lemma deal_community_cases cc ci d i :
  (ci < 5)%nat ->
  (topCardIndex d < MAX_CARDS /\
   exists c, deal_community (cc, ci, d) i =
               Ok (<[ci := c]> cc, S ci, mkDeck (cards d) (topCardIndex d + 1))) \/
  (MAX_CARDS <= topCardIndex d /\
   deal_community (cc, ci, d) i = Throw ExhaustedDeck).
Proof.
  intros Hci. unfold deal_community. rewrite decide_True by done.
  destruct (dealCard_cases d) as [(c & -> & Hlt)|[-> Hge]].
  - left. split; [done|]. by exists c.
  - by right.
Qed.

(** Among automated players a hand reaches the showdown exactly when the
    deck holds the cards it deals. *)
Lemma play_to_showdown_bots g :
  Forall (fun p => is_bot p = true) (players (table g)) ->
  deck_wf (deck g) ->
  (topCardIndex (deck g) + 2 * Z.of_nat (numPlayers g) + 5 <= MAX_CARDS /\
   exists r, play_to_showdown g = Ok r) \/
  (topCardIndex (deck g) + 2 * Z.of_nat (numPlayers g) + 5 > MAX_CARDS /\
   play_to_showdown g = Throw ExhaustedDeck).
Proof.
  intros Hbots [Hlen Hcur]. unfold play_to_showdown, deal_hand.
  destruct (next_shuffle (env (table g))) as [draw ev].
  destruct (decide (topCardIndex (deck g) + 2 * Z.of_nat (numPlayers g) <= MAX_CARDS))
    as [Hroom|Hshort].
  2:{ right. split; [lia|].
      rewrite deal_holes_throw; [done|cbn; lia|rewrite length_seq; cbn; lia]. }
  destruct (deal_holes_room (seq 0 (numPlayers g)) (players (table g))
              (shuffle draw (deck g))) as [ps0 Hps0].
  { rewrite length_seq. cbn. lia. }
  pose proof (deal_holes_names _ _ _ _ _ Hps0) as Hnames.
  rewrite Hps0, length_seq. cbn [mbind result_bind topCardIndex cards shuffle].
  set (d0 := mkDeck _ _).
  assert (Hd0 : topCardIndex d0 = topCardIndex (deck g) + 2 * Z.of_nat (numPlayers g))
    by reflexivity.
  clearbody d0.
  set (t0 := mkTable ps0 _ _ ev).
  assert (Hb0 : Forall (fun p => is_bot p = true) (players t0))
    by (by apply (bots_by_name (players (table g)))).
  clearbody t0.
  destruct (bettingRound_bots (numPlayers g) (communityCards g) 0 t0 Hb0)
    as (t1 & -> & Hb1).
  cbn [mbind result_bind for_each seq].
  destruct (deal_community_cases (communityCards g) 0 d0 0%nat) as [(Hl1 & c1 & ->)|[Hg1 ->]];
    [lia| |right; split; [lia|done]].
  cbn [mbind result_bind].
  set (d1 := mkDeck (cards d0) _).
  assert (Hd1 : topCardIndex d1 = topCardIndex d0 + 1) by reflexivity. clearbody d1.
  destruct (deal_community_cases (<[0%nat := c1]> (communityCards g)) 1 d1 1%nat)
    as [(Hl2 & c2 & ->)|[Hg2 ->]]; [lia| |right; split; [lia|done]].
  cbn [mbind result_bind].
  set (d2 := mkDeck (cards d1) _).
  assert (Hd2 : topCardIndex d2 = topCardIndex d1 + 1) by reflexivity. clearbody d2.
  set (cc2 := <[1%nat := c2]> _). clearbody cc2.
  destruct (deal_community_cases cc2 2 d2 2%nat)
    as [(Hl3 & c3 & ->)|[Hg3 ->]]; [lia| |right; split; [lia|done]].
  cbn [mbind result_bind].
  set (d3 := mkDeck (cards d2) _).
  assert (Hd3 : topCardIndex d3 = topCardIndex d2 + 1) by reflexivity. clearbody d3.
  set (cc3 := <[2%nat := c3]> _). clearbody cc3.
  destruct (bettingRound_bots (numPlayers g) cc3 3 t1 Hb1) as (t2 & -> & Hb2).
  cbn [mbind result_bind].
  destruct (deal_community_cases cc3 3 d3 0%nat)
    as [(Hl4 & c4 & ->)|[Hg4 ->]]; [lia| |right; split; [lia|done]].
  cbn [mbind result_bind].
  set (d4 := mkDeck (cards d3) _).
  assert (Hd4 : topCardIndex d4 = topCardIndex d3 + 1) by reflexivity. clearbody d4.
  set (cc4 := <[3%nat := c4]> _). clearbody cc4.
  destruct (bettingRound_bots (numPlayers g) cc4 4 t2 Hb2) as (t3 & -> & Hb3).
  cbn [mbind result_bind].
  destruct (deal_community_cases cc4 4 d4 0%nat)
    as [(Hl5 & c5 & ->)|[Hg5 ->]]; [lia| |right; split; [lia|done]].
  cbn [mbind result_bind].
  destruct (bettingRound_bots (numPlayers g) (<[4%nat := c5]> cc4) 5 t3 Hb3)
    as (t4 & -> & Hb4).
  cbn [mbind result_bind].
  left. split; [lia|]. eauto.
Qed.
End game_loop.

(** X27.  The loop of [gameLoop] cannot run for long: the deck is never
    rewound and each hand takes at least nine cards from it, two for each
    of at least two players and five for the table.  So after [k] hands
    the cursor of the deck has advanced by at least [9 * k], and no more
    than five hands are ever completed on one deck. *)
Theorem X27_at_most_five_hands (k : nat) (g g' : Game) :
  deck_wf (deck g) ->
  hands k g g' ->
  topCardIndex (deck g) + 9 * Z.of_nat k <= topCardIndex (deck g') /\
  deck_wf (deck g') /\
  (k <= 5)%nat.
Proof.
  intros Hwf Hrun.
  destruct (hands_deck k g g' Hwf Hrun) as [Hle Hwf'].
  split_and!; [done..|].
  destruct Hwf as [_ Hcur]. destruct Hwf' as [_ Hcur'].
  unfold MAX_CARDS in *. lia.
Qed.

Lemma X27_at_most_five_hands_witness :
  exists g', hands 1 two_bots_game g' /\ 9 <= topCardIndex (deck g').
Proof.
  destruct (playHand two_bots_game) as [g1| |] eqn:H;
    [|vm_compute in H; discriminate H..].
  assert (Hrun : hands 1 two_bots_game (after_prompts [] g1)).
  { eapply hands_more; [reflexivity|exact H|apply hands_none]. }
  exists (after_prompts [] g1). split; [exact Hrun|].
  exact (proj1 (X27_at_most_five_hands 1 two_bots_game (after_prompts [] g1)
                  new_Deck_wf Hrun)).
Defined.

(** X28.  A table of automated players never waits for input, so a hand
    among them has one of two outcomes, decided by the deck alone: with two
    cards per player and five more left in the deck the hand is completed;
    with fewer it ends in the exhausted-deck error. *)
Theorem X28_bots_hand_outcome (g : Game) :
  Forall (fun p => is_bot p = true) (players (table g)) ->
  deck_wf (deck g) ->
  (topCardIndex (deck g) + 2 * Z.of_nat (numPlayers g) + 5 <= MAX_CARDS ->
   exists g', playHand g = Ok g') /\
  (topCardIndex (deck g) + 2 * Z.of_nat (numPlayers g) + 5 > MAX_CARDS ->
   playHand g = Throw ExhaustedDeck).
Proof.
  intros Hbots Hwf.
  destruct (play_to_showdown_bots g Hbots Hwf) as [(Hroom & r & Hr)|(Hshort & Hr)].
  - split; [|lia]. intros _. unfold playHand. rewrite Hr.
    destruct r as [[[[starts t4] d3] cc3] ci3]. cbn [mbind result_bind].
    destruct (showdown _ _ _ _ _) as [ps5 pot5].
    destruct (eliminate _ _ _) as [[ps6 remaining] eliminated]. eauto.
  - split; [lia|]. intros _. unfold playHand. by rewrite Hr.
Qed.

Lemma X28_bots_hand_outcome_witness :
  (exists g', playHand two_bots_game = Ok g') /\
  playHand (gameLoop_start two_bots 2 (mkDeck (cards new_Deck) 44) quiet_env) =
    Throw ExhaustedDeck.
Proof.
  split.
  - apply (X28_bots_hand_outcome two_bots_game).
    + repeat constructor.
    + exact new_Deck_wf.
    + vm_compute. discriminate.
  - apply (X28_bots_hand_outcome
             (gameLoop_start two_bots 2 (mkDeck (cards new_Deck) 44) quiet_env)).
    + repeat constructor.
    + split; [reflexivity|cbn; unfold MAX_CARDS; lia].
    + vm_compute. reflexivity.
Defined.
